(** * Voice-to-code front end: lexer, parser, semantic analyzer, code generator

    A shallow embedding of [src/python/utils.py], [config.py],
    [lexical_analyzer.py], [syntax_analyzer.py], [semantic_analyzer.py] and
    [code_generator.py], and the properties of the specification proved
    (or refuted) on it.

    Conventions.
    - A Python [str] is a list of Unicode code points ([pystr]).
    - [logger.*] and [print] calls only write diagnostics; they are left out
      of the first reading of the code, in which the stack has no bound
      either.  The module [Limited] reads the parser, the analyzer and the
      generator again with the interpreter's recursion limit and with
      [print]; the properties that depend on them are stated there.
    - The tables of the Unicode database that Python consults ([str.lower],
      [\w], [\d], [\s]) are a parameter ([Unicode]). *)

From Stdlib Require Import NArith ZArith Lia Bool.
From Stdlib Require Import Strings.Ascii Strings.String DecimalString.
From stdpp Require Import gmap list.

Local Open Scope nat_scope.

(* ================================================================== *)
(** * Python strings *)
(* ================================================================== *)

Definition char := N.
Definition pystr := list char.

(** An ASCII literal as a Python string. *)
Definition u (s : string) : pystr := map N_of_ascii (list_ascii_of_string s).

(** What Python's Unicode database decides. [isalnum] is
    [Py_UNICODE_ISALNUM], [isdigit] the decimal digits of [\d], [isspace]
    the white space of [\s] and [str.strip], [lower] is [str.lower]. *)
Record Unicode := {
  isalnum : char -> bool;
  isdigit : char -> bool;
  isspace : char -> bool;
  lower : pystr -> pystr
}.

(** The ASCII part of the database, leaving every other code point
    unclassified; used to run the model on concrete inputs. *)
Definition in_range (lo hi c : char) : bool := ((lo <=? c) && (c <=? hi))%N.

Definition ascii_lower_char (c : char) : char :=
  if in_range 65%N 90%N c then (c + 32)%N else c.

Definition ascii_unicode : Unicode := {|
  isalnum c := in_range 48%N 57%N c || in_range 65%N 90%N c || in_range 97%N 122%N c;
  isdigit c := in_range 48%N 57%N c;
  isspace c := in_range 9%N 13%N c || in_range 28%N 32%N c;
  lower s := map ascii_lower_char s
|}.

Definition char_in (s : string) (c : char) : bool :=
  bool_decide (c ∈ u s).

(* ================================================================== *)
(** * Regular expressions (the fragment the lexer uses) *)
(* ================================================================== *)

(** Every pattern of the lexer is a sequence of character classes, each
    with a quantifier.  [rmatch] is the greedy, backtracking matcher of
    Python's [re] on that fragment: it returns the end of the match. *)
Inductive quant := One | Opt | Star | Plus.

Definition regex := list ((char -> bool) * quant).

Section Star.
Variable c : char -> bool.
Variable k : pystr -> nat -> option nat.

Fixpoint star (s : pystr) (n : nat) : option nat :=
  match s with
  | x :: s' =>
      if c x then
        match star s' (S n) with
        | Some e => Some e
        | None => k s n
        end
      else k s n
  | [] => k s n
  end.
End Star.

Fixpoint rmatch (r : regex) : pystr -> nat -> option nat :=
  match r with
  | [] => fun _ n => Some n
  | (c, q) :: r' =>
      let k := rmatch r' in
      match q with
      | One => fun s n =>
          match s with
          | x :: s' => if c x then k s' (S n) else None
          | [] => None
          end
      | Opt => fun s n =>
          match s with
          | x :: s' =>
              if c x then
                match k s' (S n) with
                | Some e => Some e
                | None => k s n
                end
              else k s n
          | [] => k s n
          end
      | Star => star c k
      | Plus => fun s n =>
          match s with
          | x :: s' => if c x then star c k s' (S n) else None
          | [] => None
          end
      end
  end.

(** [re.compile(pattern).match(text, position)]: [Some e] is a match
    object whose [end()] is [e]; its [group()] is [text[position:e]]. *)
Definition re_match (r : regex) (text : pystr) (position : nat) : option nat :=
  rmatch r (drop position text) position.

Definition group (text : pystr) (position e : nat) : pystr :=
  take (e - position) (drop position text).

(* ================================================================== *)
(** * utils.py *)
(* ================================================================== *)

Section Utils.
Context (U : Unicode).

(** [\w] *)
Definition isword (c : char) : bool := isalnum U c || (c =? 95)%N.

(** The class [[\w\s.,;:?!¿¡]] of [normalize_text]; [¿] is U+00BF and
    [¡] is U+00A1. *)
Definition kept (c : char) : bool :=
  isword c || isspace U c || char_in ".,;:?!" c || (c =? 191)%N || (c =? 161)%N.

(** [re.sub(r'\s+', ' ', text)]: every maximal run of white space
    becomes one space; [in_run] says that the previous character was
    white space. *)
Fixpoint collapse_from (in_run : bool) (s : pystr) : pystr :=
  match s with
  | [] => []
  | x :: s' =>
      if isspace U x then
        if in_run then collapse_from true s' else 32%N :: collapse_from true s'
      else x :: collapse_from false s'
  end.

Definition collapse_spaces (s : pystr) : pystr := collapse_from false s.

Fixpoint lstrip (s : pystr) : pystr :=
  match s with
  | x :: s' => if isspace U x then lstrip s' else s
  | [] => []
  end.
Definition rstrip (s : pystr) : pystr := reverse (lstrip (reverse s)).
Definition strip (s : pystr) : pystr := rstrip (lstrip s).

Definition normalize_text (text : pystr) : pystr :=
  let text := lower U text in
  let text := List.filter kept text in
  let text := strip (collapse_spaces text) in
  text.
End Utils.

(* ================================================================== *)
(** * config.py *)
(* ================================================================== *)

(** [SPECIAL_TOKENS]; a dict is iterated in insertion order, so it is kept
    as an association list.  [á] is U+00E1, [ó] is U+00F3. *)
Definition SPECIAL_TOKENS : list (pystr * list pystr) := [
  (u "VARIABLE", [u "var"; u "variable"]);
  (u "FUNCTION", [u "funci" ++ [243%N] ++ u "n"; u "funcion"; u "def"; u "definir"]);
  (u "LOOP", [u "para"; u "mientras"; u "for"; u "while"]);
  (u "CONDITION", [u "si"; u "if"; u "sino"; u "else"]);
  (u "OPERATOR", [u "m" ++ [225%N] ++ u "s"; u "mas"; u "menos"; u "por";
                  u "dividido"; u "igual"; u "mayor"; u "menor"]);
  (u "DATA_TYPE", [u "entero"; u "flotante"; u "cadena"; u "booleano";
                   u "lista"; u "diccionario"])
].

Definition KEYWORD_MAPPING_items : list (pystr * pystr) := [
  (u "si", u "if");
  (u "sino", u "else");
  (u "para", u "for");
  (u "mientras", u "while");
  (u "en", u "in");
  (u "rango", u "range");
  (u "funci" ++ [243%N] ++ u "n", u "def");
  (u "funcion", u "def");
  (u "devolver", u "return");
  (u "verdadero", u "True");
  (u "falso", u "False");
  (u "y", u "and");
  (u "o", u "or");
  (u "no", u "not");
  (u "imprimir", u "print");
  (u "clase", u "class")
].

Definition KEYWORD_MAPPING : gmap pystr pystr := list_to_map KEYWORD_MAPPING_items.

(* ================================================================== *)
(** * lexical_analyzer.py *)
(* ================================================================== *)

Record Token := mkToken {
  type : pystr;
  value : pystr;
  position : Z
}.

Record LexicalAnalyzer := {
  special_tokens : list (pystr * list pystr);
  keyword_mapping : gmap pystr pystr
}.

(** [LexicalAnalyzer.__init__]: [x or DEFAULT] takes the default for [None]
    and for an empty dict. *)
Definition LexicalAnalyzer_init
    (special : option (list (pystr * list pystr)))
    (mapping : option (gmap pystr pystr)) : LexicalAnalyzer := {|
  special_tokens :=
    match special with
    | Some (x :: l) => x :: l
    | _ => SPECIAL_TOKENS
    end;
  keyword_mapping :=
    match mapping with
    | Some m => if decide (m = ∅) then KEYWORD_MAPPING else m
    | None => KEYWORD_MAPPING
    end
|}.

(** [LexicalAnalyzer()] *)
Definition default_lexer : LexicalAnalyzer := LexicalAnalyzer_init None None.

Definition python_keywords : list pystr := [
  u "def"; u "if"; u "else"; u "elif"; u "for"; u "while"; u "in";
  u "return"; u "and"; u "or"; u "not"; u "True"; u "False"; u "None";
  u "print"; u "class"
].

(** The loop over [self.special_tokens.items()]: the first category that
    lists the word. *)
Fixpoint special_category (special : list (pystr * list pystr)) (word : pystr)
    : option pystr :=
  match special with
  | [] => None
  | (token_type, words) :: rest =>
      if decide (word ∈ words) then Some token_type
      else special_category rest word
  end.

Section Lexer.
Context (U : Unicode).
Context (L : LexicalAnalyzer).

Definition token_func := pystr -> nat -> Token.

(** [lambda m, p: Token(T, m.group(), p)] *)
Definition plain (T : string) : token_func :=
  fun m p => mkToken (u T) m (Z.of_nat p).

Definition _identify_word : token_func := fun m position =>
  let word := lower U m in
  if decide (word ∈ python_keywords) then
    mkToken (u "KEYWORD") word (Z.of_nat position)
  else
    match keyword_mapping L !! word with
    | Some mapped => mkToken (u "KEYWORD") mapped (Z.of_nat position)
    | None =>
        match special_category (special_tokens L) word with
        | Some token_type => mkToken token_type word (Z.of_nat position)
        | None => mkToken (u "IDENTIFIER") word (Z.of_nat position)
        end
    end.

(** The character classes of the patterns. *)
Definition az (c : char) : bool := in_range 97%N 122%N c.
Definition AZ (c : char) : bool := in_range 65%N 90%N c.
Definition d09 (c : char) : bool := in_range 48%N 57%N c.
Definition only (x : char) (c : char) : bool := (c =? x)%N.
Definition except (x : char) (c : char) : bool := negb (c =? x)%N.
Definition dquote : char := 34%N.
Definition squote : char := 39%N.

(** [[a-zA-Z_][a-zA-Z0-9_]*] *)
Definition re_word : regex :=
  [ (fun c => az c || AZ c || only 95%N c, One);
    (fun c => az c || AZ c || d09 c || only 95%N c, Star) ].
(** [\d+\.\d+] *)
Definition re_float : regex :=
  [ (isdigit U, Plus); (only 46%N, One); (isdigit U, Plus) ].
(** [\d+] *)
Definition re_integer : regex := [ (isdigit U, Plus) ].
(** [[+\-*/=<>!]=?] *)
Definition re_operator : regex :=
  [ (char_in "+-*/=<>!", One); (only 61%N, Opt) ].
(** [[\(\)\[\]\{\},;:]] *)
Definition re_delimiter : regex := [ (char_in "()[]{},;:", One) ].
(** a double quote, any run of other characters, a double quote *)
Definition re_string_double : regex :=
  [ (only dquote, One); (except dquote, Star); (only dquote, One) ].
(** the same between single quotes *)
Definition re_string_single : regex :=
  [ (only squote, One); (except squote, Star); (only squote, One) ].
(** [\s+] *)
Definition re_space : regex := [ (isspace U, Plus) ].

(** [_build_token_patterns] *)
Definition patterns : list (regex * option token_func) := [
  (re_word, Some _identify_word);
  (re_float, Some (plain "FLOAT"));
  (re_integer, Some (plain "INTEGER"));
  (re_operator, Some (plain "OPERATOR"));
  (re_delimiter, Some (plain "DELIMITER"));
  (re_string_double, Some (plain "STRING"));
  (re_string_single, Some (plain "STRING"));
  (re_space, None)
].

(** The [for pattern, token_func in self.patterns] loop of [tokenize] at
    one position: [Some (tokens', position')] when a pattern matched
    ([break]), [None] when the loop ran to its end with [match] unset. *)
Fixpoint try_patterns (pats : list (regex * option token_func))
    (normalized_text : pystr) (position : nat) (tokens : list Token)
    : option (list Token * nat) :=
  match pats with
  | [] => None
  | (pattern, func) :: rest =>
      match re_match pattern normalized_text position with
      | Some e =>
          let tokens :=
            match func with
            | Some f => tokens ++ [f (group normalized_text position e) position]
            | None => tokens
            end in
          Some (tokens, e)
      | None => try_patterns rest normalized_text position tokens
      end
  end.

(** The [while position < len(normalized_text)] loop; [fuel] bounds the
    number of iterations, [None] means it ran out. *)
Fixpoint tokenize_loop (fuel : nat) (normalized_text : pystr)
    (position : nat) (tokens : list Token) : option (list Token * nat) :=
  match fuel with
  | 0 => None
  | S fuel =>
      if decide (position < length normalized_text) then
        match try_patterns patterns normalized_text position tokens with
        | Some (tokens, e) => tokenize_loop fuel normalized_text e tokens
        | None => tokenize_loop fuel normalized_text (position + 1) tokens
        end
      else Some (tokens, position)
  end.

Definition tokenize (text : pystr) : option (list Token) :=
  let normalized_text := normalize_text U text in
  match tokenize_loop (S (length normalized_text)) normalized_text 0 [] with
  | Some (tokens, position) =>
      Some (tokens ++ [mkToken (u "EOF") [] (Z.of_nat position)])
  | None => None
  end.

Definition map_to_python_tokens (tokens : list Token) : list Token :=
  map (fun token =>
         if decide (type token = u "KEYWORD") then
           match keyword_mapping L !! value token with
           | Some mapped => mkToken (type token) mapped (position token)
           | None => token
           end
         else token) tokens.
End Lexer.


(* ================================================================== *)
(** * Exceptions and stateful code *)
(* ================================================================== *)

(** The exceptions the modelled code can raise; each carries its message
    ([str(e)]).  All of them derive from Python's [Exception].
    [RecursionError] is what the interpreter raises when a call exceeds its
    recursion limit; [OutputError] stands for what [print] raises when it
    cannot write to standard output ([UnicodeEncodeError], [OSError],
    [ValueError] on a closed stream). *)
Inductive exn :=
| SyntaxError (msg : pystr)
| IndexError (msg : pystr)
| KeyError (msg : pystr)
| TypeError (msg : pystr)
| AttributeError (msg : pystr)
| RecursionError (msg : pystr)
| OutputError (msg : pystr).

Definition exn_str (e : exn) : pystr :=
  match e with
  | SyntaxError m | IndexError m | KeyError m | TypeError m
  | AttributeError m | RecursionError m | OutputError m => m
  end.

(** A method of an object with fields [S]: it returns a value and the new
    fields, or raises leaving the fields as they were at the [raise], or
    exhausts the fuel that bounds recursion depth and loop iterations in
    this model. *)
Inductive result (S A : Type) :=
| Ok (a : A) (s : S)
| Raised (e : exn) (s : S)
| OutOfFuel.
Arguments Ok {S A} a s.
Arguments Raised {S A} e s.
Arguments OutOfFuel {S A}.

Definition M (S A : Type) : Type := S -> result S A.

Definition ret {S A} (a : A) : M S A := fun s => Ok a s.
Definition bind {S A B} (m : M S A) (f : A -> M S B) : M S B :=
  fun s =>
    match m s with
    | Ok a s' => f a s'
    | Raised e s' => Raised e s'
    | OutOfFuel => OutOfFuel
    end.
Definition raise {S A} (e : exn) : M S A := fun s => Raised e s.
Definition out_of_fuel {S A} : M S A := fun _ => OutOfFuel.
Definition get {S} : M S S := fun s => Ok s s.
Definition modify {S} (f : S -> S) : M S unit := fun s => Ok tt (f s).

Declare Scope py_scope.
Delimit Scope py_scope with py.
Notation "x <- c1 ;; c2" := (bind c1 (fun x => c2))
  (at level 100, c1 at next level, right associativity) : py_scope.
Notation "c1 ;; c2" := (bind c1 (fun _ => c2))
  (at level 100, right associativity) : py_scope.
Local Open Scope py_scope.

(** [wp m s Q R F]: running [m] from [s] ends in a value and state that
    satisfy [Q], or in an exception and state that satisfy [R]; [F] is what
    holds if the fuel runs out. *)
Definition wp {S A} (m : M S A) (s : S) (Q : A → S → Prop)
    (R : exn → S → Prop) (F : Prop) : Prop :=
  match m s with
  | Ok a s' => Q a s'
  | Raised e s' => R e s'
  | OutOfFuel => F
  end.

(** [if c: body] with no [else]. *)
Definition when {S} (c : bool) (body : M S unit) : M S unit :=
  if c then body else ret tt.

(* ================================================================== *)
(** * syntax_analyzer.py *)
(* ================================================================== *)

(** [value] is [None] or the text of a token.  [children or []] makes the
    children a list always. *)
#[local] Unset Elimination Schemes.
Inductive ASTNode := mkNode {
  node_type : pystr;
  node_value : option pystr;
  children : list ASTNode
}.
#[local] Set Elimination Schemes.

(** [ASTNode(T)], [ASTNode(T, v)], [ASTNode(T, None, cs)] *)
Definition node0 (T : string) : list ASTNode -> ASTNode := mkNode (u T) None.
Definition leaf (T : string) (v : pystr) : ASTNode := mkNode (u T) (Some v) [].

Record SyntaxAnalyzer := mkParser {
  tokens : list Token;
  current_token_index : nat
}.

Definition EOF_token : Token := mkToken (u "EOF") [] (-1).

Definition is_delimiter (d : string) (t : Token) : bool :=
  bool_decide (type t = u "DELIMITER") && bool_decide (value t = u d).
Definition is_keyword (k : string) (t : Token) : bool :=
  bool_decide (type t = u "KEYWORD") && bool_decide (value t = u k).

Module Parser.

Definition P := M SyntaxAnalyzer.

Definition token_at (self : SyntaxAnalyzer) (i : nat) : Token :=
  match tokens self !! i with
  | Some t => t
  | None => EOF_token
  end.

Definition current_token : P Token :=
  fun self => Ok (token_at self (current_token_index self)) self.

Definition peek_next_token : P Token :=
  fun self => Ok (token_at self (current_token_index self + 1)) self.

Definition consume : P Token :=
  token <- current_token ;;
  modify (fun self => mkParser (tokens self) (current_token_index self + 1)) ;;
  ret token.

Definition expect_message (token_type found : pystr) : pystr :=
  u "Se esperaba " ++ token_type ++ u ", pero se encontr" ++ [243%N; 32%N] ++ found.

Definition expect (token_type : string) : P Token :=
  token <- current_token ;;
  if decide (type token ≠ u token_type) then
    raise (SyntaxError (expect_message (u token_type) (type token)))
  else consume.

Definition for_in_message : pystr :=
  u "Se esperaba 'in' despu" ++ [233%N] ++ u "s del identificador en un bucle for".

(** The [while True] loop over the arguments of a call; [parse_expression]
    is the method itself, one level deeper. *)
Fixpoint arguments_loop (parse_expression : P ASTNode) (fuel : nat)
    (args : list ASTNode) : P (list ASTNode) :=
  match fuel with
  | 0 => out_of_fuel
  | S fuel =>
      arg_node <- parse_expression ;;
      let args := args ++ [arg_node] in
      token <- current_token ;;
      if is_delimiter "," token then
        consume ;; arguments_loop parse_expression fuel args
      else ret args
  end.

Fixpoint parse_expression (fuel : nat) : P ASTNode :=
  match fuel with
  | 0 => out_of_fuel
  | S fuel =>
      token <- current_token ;;
      if decide (type token ∈ [u "INTEGER"; u "FLOAT"]) then
        consume ;; ret (leaf "LITERAL" (value token))
      else if decide (type token = u "STRING") then
        consume ;; ret (leaf "LITERAL" (value token))
      else if decide (type token = u "IDENTIFIER") then
        consume ;;
        next <- current_token ;;
        if is_delimiter "(" next then
          consume ;;
          next <- current_token ;;
          args <- (if negb (is_delimiter ")" next)
                   then arguments_loop (parse_expression fuel) (S fuel) []
                   else ret []) ;;
          expect "DELIMITER" ;;
          ret (mkNode (u "FUNCTION_CALL") (Some (value token))
                 [node0 "ARGUMENTS" args])
        else ret (leaf "VARIABLE" (value token))
      else if is_delimiter "(" token then
        consume ;;
        expr_node <- parse_expression fuel ;;
        expect "DELIMITER" ;;
        ret expr_node
      else
        consume ;; ret (leaf "EXPRESSION" (value token))
  end.

(** The test of [parse_expression_statement]: an identifier followed by
    the operator [=]. *)
Definition assignment_ahead (current next : Token) : bool :=
  bool_decide (type current = u "IDENTIFIER")
  && bool_decide (type next = u "OPERATOR")
  && bool_decide (value next = u "=").

Definition parse_expression_statement (fuel : nat) : P ASTNode :=
  current <- current_token ;;
  next <- peek_next_token ;;
  if assignment_ahead current next then
    var_token <- consume ;;
    consume ;;
    expr_node <- parse_expression fuel ;;
    ret (node0 "ASSIGNMENT" [leaf "VARIABLE" (value var_token); expr_node])
  else parse_expression fuel.

(** [parse_block]; [parse_statement] is the method it calls back.  An
    [ASTNode] object is truthy, so [if statement:] always adds it. *)
Definition parse_block (parse_statement : P ASTNode) : P ASTNode :=
  token <- current_token ;;
  when (is_delimiter ":" token) (consume ;; ret tt) ;;
  token <- current_token ;;
  if decide (type token ≠ u "EOF") then
    statement <- parse_statement ;;
    ret (node0 "BLOCK" [statement])
  else ret (node0 "BLOCK" []).

(** The [while True] loop over the parameters of a definition. *)
Fixpoint parameters_loop (fuel : nat) (params : list ASTNode)
    : P (list ASTNode) :=
  match fuel with
  | 0 => out_of_fuel
  | S fuel =>
      param_token <- current_token ;;
      if decide (type param_token ≠ u "IDENTIFIER") then ret params
      else
        consume ;;
        let params := params ++ [leaf "PARAMETER" (value param_token)] in
        token <- current_token ;;
        if is_delimiter "," token then
          consume ;; parameters_loop fuel params
        else ret params
  end.

Definition parse_function_definition (fuel : nat)
    (parse_statement : P ASTNode) : P ASTNode :=
  consume ;;
  name_token <- current_token ;;
  let name_value := value name_token in
  consume ;;
  token <- current_token ;;
  when (is_delimiter "(" token) (consume ;; ret tt) ;;
  token <- current_token ;;
  params <- (if negb (is_delimiter ")" token)
             then parameters_loop fuel []
             else ret []) ;;
  token <- current_token ;;
  when (is_delimiter ")" token) (consume ;; ret tt) ;;
  body_node <- parse_block parse_statement ;;
  ret (mkNode (u "FUNCTION_DEF") (Some name_value)
         [node0 "PARAMETERS" params; body_node]).

Definition parse_if_statement (fuel : nat)
    (parse_statement : P ASTNode) : P ASTNode :=
  consume ;;
  condition_node <- parse_expression fuel ;;
  then_block <- parse_block parse_statement ;;
  token <- current_token ;;
  if is_keyword "else" token then
    consume ;;
    else_block <- parse_block parse_statement ;;
    ret (node0 "IF_STATEMENT"
           [node0 "CONDITION" [condition_node]; node0 "THEN" [then_block];
            node0 "ELSE" [else_block]])
  else
    ret (node0 "IF_STATEMENT"
           [node0 "CONDITION" [condition_node]; node0 "THEN" [then_block]]).

Definition parse_loop (fuel : nat) (parse_statement : P ASTNode)
    : P ASTNode :=
  token <- consume ;;
  if decide (value token = u "for") then
    var_token <- expect "IDENTIFIER" ;;
    next <- current_token ;;
    (if is_keyword "in" next then consume ;; ret tt
     else raise (SyntaxError for_in_message)) ;;
    iterable_node <- parse_expression fuel ;;
    body_node <- parse_block parse_statement ;;
    ret (node0 "FOR_LOOP"
           [leaf "VARIABLE" (value var_token);
            node0 "ITERABLE" [iterable_node]; node0 "BODY" [body_node]])
  else
    condition_node <- parse_expression fuel ;;
    body_node <- parse_block parse_statement ;;
    ret (node0 "WHILE_LOOP"
           [node0 "CONDITION" [condition_node]; node0 "BODY" [body_node]]).

Fixpoint parse_statement (fuel : nat) : P ASTNode :=
  match fuel with
  | 0 => out_of_fuel
  | S fuel =>
      token <- current_token ;;
      if is_keyword "def" token then
        parse_function_definition fuel (parse_statement fuel)
      else if is_keyword "if" token then
        parse_if_statement fuel (parse_statement fuel)
      else if bool_decide (type token = u "KEYWORD")
              && bool_decide (value token ∈ [u "for"; u "while"]) then
        parse_loop fuel (parse_statement fuel)
      else parse_expression_statement fuel
  end.

(** The [while] loop of [parse_program]. *)
Fixpoint program_loop (parse_statement : P ASTNode) (fuel : nat)
    (stmts : list ASTNode) : P (list ASTNode) :=
  match fuel with
  | 0 => out_of_fuel
  | S fuel =>
      token <- current_token ;;
      if decide (type token ≠ u "EOF") then
        statement <- parse_statement ;;
        program_loop parse_statement fuel (stmts ++ [statement])
      else ret stmts
  end.

Definition parse_program (fuel : nat) : P ASTNode :=
  stmts <- program_loop (parse_statement fuel) fuel [] ;;
  ret (node0 "PROGRAM" stmts).

(** What a call of [parse] does: it returns ([Returns r], where [r] is
    the AST or [None]) or, in this model, runs out of fuel. *)
Inductive outcome := Returns (r : option ASTNode) | Unfinished.

Definition parse_with (fuel : nat) (toks : list Token) : outcome :=
  match parse_program fuel (mkParser toks 0) with
  | Ok ast _ => Returns (Some ast)
  | Raised _ _ => Returns None
  | OutOfFuel => Unfinished
  end.

Definition parse (toks : list Token) : outcome :=
  parse_with (length toks + 2) toks.

End Parser.

(* ================================================================== *)
(** * semantic_analyzer.py *)
(* ================================================================== *)

(** A name is whatever [node.value] holds: [None] or a string. *)
Definition pyname := option pystr.

(** [str(x)] inside an f-string. *)
Definition fmt (x : pyname) : pystr :=
  match x with
  | Some s => s
  | None => u "None"
  end.

(** [repr(x)] of a name without quotes or backslashes in it. *)
Definition repr (x : pyname) : pystr :=
  match x with
  | Some s => u "'" ++ s ++ u "'"
  | None => u "None"
  end.

Record Symbol := mkSymbol {
  name : pyname;
  sym_type : pystr;
  scope : pyname;
  sym_value : option pystr
}.

Record SymbolTable := mkTable {
  symbols : gmap pyname (gmap pyname Symbol);
  current_scope : pyname
}.

Definition global : pyname := Some (u "global").

Module SymbolTable.

Definition T := M SymbolTable.

(** [__init__] *)
Definition init : SymbolTable := mkTable {[ global := ∅ ]} global.

Definition enter_scope (scope_name : pyname) : T unit :=
  modify (fun self =>
    let symbols :=
      match symbols self !! scope_name with
      | None => <[scope_name := ∅]> (symbols self)
      | Some _ => symbols self
      end in
    mkTable symbols scope_name).

Definition exit_scope : T unit :=
  modify (fun self => mkTable (symbols self) global).

(** [self.symbols[key]]: a missing key raises [KeyError]. *)
Definition scope_dict (key : pyname) : T (gmap pyname Symbol) :=
  fun self =>
    match symbols self !! key with
    | Some d => Ok d self
    | None => Raised (KeyError (repr key)) self
    end.

Definition add_symbol (name : pyname) (symbol_type : string) : T Symbol :=
  self <- get ;;
  let symbol := mkSymbol name (u symbol_type) (current_scope self) None in
  d <- scope_dict (current_scope self) ;;
  modify (fun self =>
    mkTable (<[current_scope self := <[name := symbol]> d]> (symbols self))
            (current_scope self)) ;;
  ret symbol.

Definition lookup (name : pyname) : T (option Symbol) :=
  self <- get ;;
  d <- scope_dict (current_scope self) ;;
  match d !! name with
  | Some symbol => ret (Some symbol)
  | None =>
      g <- scope_dict global ;;
      match g !! name with
      | Some symbol => ret (Some symbol)
      | None => ret None
      end
  end.

(** One call of a method of the table, and a sequence of calls. *)
Inductive call :=
| EnterScope (scope_name : pyname)
| ExitScope
| AddSymbol (name : pyname) (symbol_type : string)
| Lookup (name : pyname).

Definition do_call (c : call) : T unit :=
  match c with
  | EnterScope scope_name => enter_scope scope_name
  | ExitScope => exit_scope
  | AddSymbol name symbol_type => add_symbol name symbol_type ;; ret tt
  | Lookup name => lookup name ;; ret tt
  end.

Fixpoint do_calls (cs : list call) : T unit :=
  match cs with
  | [] => ret tt
  | c :: cs => do_call c ;; do_calls cs
  end.

End SymbolTable.

Record SemanticAnalyzer := mkAnalyzer {
  symbol_table : SymbolTable;
  errors : list pystr
}.

Module Semantic.

Definition A := M SemanticAnalyzer.

(** A method call on [self.symbol_table]. *)
Definition on_table {X} (m : SymbolTable.T X) : A X :=
  fun self =>
    match m (symbol_table self) with
    | Ok x t => Ok x (mkAnalyzer t (errors self))
    | Raised e t => Raised e (mkAnalyzer t (errors self))
    | OutOfFuel => OutOfFuel
    end.

(** [self.errors.append(msg)] *)
Definition append_error (msg : pystr) : A unit :=
  modify (fun self => mkAnalyzer (symbol_table self) (errors self ++ [msg])).

Definition index_error {X} : A X :=
  raise (IndexError (u "list index out of range")).

Definition Funcion : pystr := u "Funci" ++ [243%N] ++ u "n".
Definition already_defined (function_name : pyname) : pystr :=
  Funcion ++ u " '" ++ fmt function_name ++ u "' ya definida".
Definition function_undefined (function_name : pyname) : pystr :=
  Funcion ++ u " '" ++ fmt function_name ++ u "' no definida".
Definition not_a_function (function_name : pyname) : pystr :=
  u "'" ++ fmt function_name ++ u "' no es una funci" ++ [243%N] ++ u "n".
Definition variable_undefined (var_name : pyname) : pystr :=
  u "Variable '" ++ fmt var_name ++ u "' no definida".

Definition is_type (T : string) (ty : pystr) : bool := bool_decide (ty = u T).

(** [for param in params_node.children: add_symbol(param.value, 'PARAMETER')] *)
Fixpoint add_parameters (params : list ASTNode) : A unit :=
  match params with
  | [] => ret tt
  | param :: rest =>
      on_table (SymbolTable.add_symbol (node_value param) "PARAMETER") ;;
      add_parameters rest
  end.

(** [for child in children: self._analyze_node(child)] *)
Fixpoint for_each (_analyze_node : ASTNode → A unit) (l : list ASTNode)
    : A unit :=
  match l with
  | [] => ret tt
  | child :: rest => _analyze_node child ;; for_each _analyze_node rest
  end.

(** [_analyze_function_def] up to the first [node.children[...]]: the
    redefinition check, the registration and the new scope. *)
Definition declare_function (function_name : pyname) : A unit :=
  found <- on_table (SymbolTable.lookup function_name) ;;
  when (bool_decide (is_Some found))
    (append_error (already_defined function_name)) ;;
  on_table (SymbolTable.add_symbol function_name "FUNCTION") ;;
  on_table (SymbolTable.enter_scope function_name).

(** [_analyze_assignment] before the right-hand side is analyzed. *)
Definition define_target (var_name : pyname) : A unit :=
  found <- on_table (SymbolTable.lookup var_name) ;;
  when (negb (bool_decide (is_Some found)))
    (on_table (SymbolTable.add_symbol var_name "VARIABLE") ;; ret tt).

(** [_analyze_function_call] before the arguments are analyzed. *)
Definition check_callee (function_name : pyname) : A unit :=
  function_symbol <- on_table (SymbolTable.lookup function_name) ;;
  match function_symbol with
  | None => append_error (function_undefined function_name)
  | Some sym =>
      when (negb (bool_decide (sym_type sym = u "FUNCTION")))
        (append_error (not_a_function function_name))
  end.

(** The methods that [_analyze_node] dispatches to.  They call
    [_analyze_node] back; [node.children[i]] raises [IndexError] when the
    node has too few children. *)
Section Methods.
Variable _analyze_node : ASTNode → A unit.

Definition _analyze_program (node : ASTNode) : A unit :=
  for_each _analyze_node (children node).

Definition _analyze_function_def (node : ASTNode) : A unit :=
  declare_function (node_value node) ;;
  match children node with
  | [] => index_error
  | params_node :: rest =>
      add_parameters (children params_node) ;;
      match rest with
      | [] => index_error
      | body_node :: _ =>
          _analyze_node body_node ;;
          on_table SymbolTable.exit_scope
      end
  end.

Definition _analyze_block (node : ASTNode) : A unit :=
  for_each _analyze_node (children node).

Definition _analyze_if_statement (node : ASTNode) : A unit :=
  match children node with
  | [] => index_error
  | condition_node :: rest =>
      _analyze_node condition_node ;;
      match rest with
      | [] => index_error
      | then_node :: rest =>
          _analyze_node then_node ;;
          match rest with
          | else_node :: _ => _analyze_node else_node
          | [] => ret tt
          end
      end
  end.

Definition _analyze_for_loop (node : ASTNode) : A unit :=
  match children node with
  | [] => index_error
  | var_node :: rest =>
      on_table (SymbolTable.add_symbol (node_value var_node) "VARIABLE") ;;
      match rest with
      | [] => index_error
      | iterable_node :: rest =>
          _analyze_node iterable_node ;;
          match rest with
          | [] => index_error
          | body_node :: _ => _analyze_node body_node
          end
      end
  end.

Definition _analyze_while_loop (node : ASTNode) : A unit :=
  match children node with
  | [] => index_error
  | condition_node :: rest =>
      _analyze_node condition_node ;;
      match rest with
      | [] => index_error
      | body_node :: _ => _analyze_node body_node
      end
  end.

Definition _analyze_assignment (node : ASTNode) : A unit :=
  match children node with
  | [] => index_error
  | var_node :: rest =>
      define_target (node_value var_node) ;;
      match rest with
      | [] => index_error
      | expr_node :: _ => _analyze_node expr_node
      end
  end.

Definition _analyze_function_call (node : ASTNode) : A unit :=
  check_callee (node_value node) ;;
  match children node with
  | [] => index_error
  | args_node :: _ => for_each _analyze_node (children args_node)
  end.

End Methods.

Definition _analyze_variable (node : ASTNode) : A unit :=
  let var_name := node_value node in
  found <- on_table (SymbolTable.lookup var_name) ;;
  when (negb (bool_decide (is_Some found)))
    (append_error (variable_undefined var_name)).

Fixpoint _analyze_node (node : ASTNode) : A unit :=
  let ty := node_type node in
  if is_type "PROGRAM" ty then _analyze_program _analyze_node node
  else if is_type "FUNCTION_DEF" ty then _analyze_function_def _analyze_node node
  else if is_type "BLOCK" ty then _analyze_block _analyze_node node
  else if is_type "IF_STATEMENT" ty then _analyze_if_statement _analyze_node node
  else if is_type "FOR_LOOP" ty then _analyze_for_loop _analyze_node node
  else if is_type "WHILE_LOOP" ty then _analyze_while_loop _analyze_node node
  else if is_type "ASSIGNMENT" ty then _analyze_assignment _analyze_node node
  else if is_type "FUNCTION_CALL" ty then _analyze_function_call _analyze_node node
  else if is_type "VARIABLE" ty then _analyze_variable node
  else for_each _analyze_node (children node).

(** The loop over the children of a node. *)
Definition analyze_each : list ASTNode → A unit := for_each _analyze_node.

(** [__init__] *)
Definition init : SemanticAnalyzer := mkAnalyzer SymbolTable.init [].

(** [analyze]: the returned flag and the analyzer afterwards; [None]
    stands for a call that does not return. *)
Definition analyze (ast : ASTNode) (self : SemanticAnalyzer)
    : option (bool * SemanticAnalyzer) :=
  let self := mkAnalyzer (symbol_table self) [] in
  match _analyze_node ast self with
  | Ok _ self' => Some (bool_decide (errors self' = []), self')
  | Raised _ self' => Some (false, self')
  | OutOfFuel => None
  end.

End Semantic.

(* ================================================================== *)
(** * utils.format_python_code and code_generator.py *)
(* ================================================================== *)

(** A value that is [None] or a string, as [_generate_node] returns. *)
Definition pyobj := option pystr.

Definition nl : pystr := [10%N].

(** [s * n] for a string and an integer. *)
Definition times (s : pystr) (n : Z) : pystr :=
  concat (replicate (Z.to_nat n) s).

(** [s.split('\n')]; [cur] is the line being read. *)
Fixpoint split_lines (s cur : pystr) : list pystr :=
  match s with
  | [] => [cur]
  | c :: s' =>
      if (c =? 10)%N then cur :: split_lines s' []
      else split_lines s' (cur ++ [c])
  end.

(** [sep.join(items)] on strings. *)
Fixpoint join (sep : pystr) (items : list pystr) : pystr :=
  match items with
  | [] => []
  | [x] => x
  | x :: rest => x ++ sep ++ join sep rest
  end.

Definition endswith (s : pystr) (c : char) : bool :=
  match reverse s with
  | x :: _ => (x =? c)%N
  | [] => false
  end.

(** Decimal digits of a number, for messages. *)
Definition decimal (n : nat) : pystr :=
  u (DecimalString.NilEmpty.string_of_uint (Nat.to_uint n)).

Record CodeGenerator := mkGenerator {
  indent_level : Z;
  indent_size : Z
}.

Section Generator.
Context (U : Unicode).

(** The loop of [format_python_code]. *)
Fixpoint format_lines (lines : list pystr) (indent_level : Z)
    (formatted_lines : list pystr) : list pystr :=
  match lines with
  | [] => formatted_lines
  | line :: rest =>
      let stripped := strip U line in
      if endswith stripped 58%N then
        format_lines rest (indent_level + 1)
          (formatted_lines ++ [times (u "    ") indent_level ++ stripped])
      else if bool_decide (stripped ∈ [u "else:"; u "elif:"; u "except:"; u "finally:"]) then
        let indent_level := Z.max 0 (indent_level - 1) in
        format_lines rest (indent_level + 1)
          (formatted_lines ++ [times (u "    ") indent_level ++ stripped])
      else if bool_decide (stripped ∈ [u "break"; u "continue"; u "pass"; u "return"]) then
        format_lines rest indent_level
          (formatted_lines ++ [times (u "    ") indent_level ++ stripped])
      else if negb (bool_decide (stripped = [])) then
        format_lines rest indent_level
          (formatted_lines ++ [times (u "    ") indent_level ++ stripped])
      else format_lines rest indent_level formatted_lines
  end.

Definition G := M CodeGenerator.

Definition no_attribute (attr : string) : exn :=
  AttributeError (u "'NoneType' object has no attribute '" ++ u attr ++ u "'").

(** [format_python_code(code)]; [code.split] needs a string. *)
Definition format_python_code (code : pyobj) : G pystr :=
  match code with
  | None => raise (no_attribute "split")
  | Some code => ret (join nl (format_lines (split_lines code []) 0 []))
  end.

(** [x + s] where [s] is a string. *)
Definition add_str (x : pyobj) (s : pystr) : G pystr :=
  match x with
  | Some a => ret (a ++ s)
  | None =>
      raise (TypeError (u "unsupported operand type(s) for +: 'NoneType' and 'str'"))
  end.

(** [x.strip()] *)
Definition strip_of (x : pyobj) : G pystr :=
  match x with
  | Some a => ret (strip U a)
  | None => raise (no_attribute "strip")
  end.

(** [", ".join(items)]: the first item that is not a string raises. *)
Fixpoint checked_items (i : nat) (items : list pyobj) : G (list pystr) :=
  match items with
  | [] => ret []
  | Some x :: rest => xs <- checked_items (S i) rest ;; ret (x :: xs)
  | None :: _ =>
      raise (TypeError (u "sequence item " ++ decimal i
                        ++ u ": expected str instance, NoneType found"))
  end.

Definition comma_join (items : list pyobj) : G pyobj :=
  xs <- checked_items 0 items ;; ret (Some (join (u ", ") xs)).

Definition index_error {X} : G X :=
  raise (IndexError (u "list index out of range")).

Definition _indent : G pystr :=
  self <- get ;; ret (times (u " ") (indent_level self * indent_size self)).

(** [self.indent_level += d] *)
Definition shift (d : Z) : G unit :=
  modify (fun self => mkGenerator (indent_level self + d) (indent_size self)).

(** [if not code.strip(): code = self._indent() + filler] *)
Definition or_pass (code : pyobj) (filler : pystr) : G pyobj :=
  stripped <- strip_of code ;;
  if bool_decide (stripped = []) then
    ind <- _indent ;; ret (Some (ind ++ filler))
  else ret code.

Definition is_type := Semantic.is_type.

Definition header : pystr :=
  u "# C" ++ [243%N] ++ u "digo generado autom" ++ [225%N] ++ u "ticamente"
  ++ nl ++ nl.

(** The methods that [_generate_node] dispatches to.  They call
    [_generate_node] back; [node.children[i]] raises [IndexError] when the
    node has too few children. *)
Section Methods.
Variable _generate_node : ASTNode → G pyobj.

(** [self.indent_level += 1; code = self._generate_node(child);
    self.indent_level -= 1], then the [pass] for an empty block. *)
Definition deeper (child : ASTNode) (filler : pystr) : G pyobj :=
  shift 1 ;;
  code <- _generate_node child ;;
  shift (-1) ;;
  or_pass code filler.

(** [if node.children: return self._generate_node(node.children[0])],
    else the empty string. *)
Definition first_child (node : ASTNode) : G pyobj :=
  match children node with
  | child :: _ => _generate_node child
  | [] => ret (Some [])
  end.

(** [for child in node.children: code += self._generate_node(child) + "\n\n"] *)
Fixpoint generate_program_loop (l : list ASTNode) (code : pystr) : G pystr :=
  match l with
  | [] => ret code
  | child :: rest =>
      child_code <- _generate_node child ;;
      piece <- add_str child_code (nl ++ nl) ;;
      generate_program_loop rest (code ++ piece)
  end.

Definition _generate_program (node : ASTNode) : G pyobj :=
  code <- generate_program_loop (children node) header ;;
  ret (Some (rstrip U code)).

Definition _generate_function_def (node : ASTNode) : G pyobj :=
  let function_name := node_value node in
  match children node with
  | [] => index_error
  | params_node :: rest =>
      params_code <- _generate_node params_node ;;
      match rest with
      | [] => index_error
      | body_node :: _ =>
          body_code <- deeper body_node (u "pass") ;;
          ret (Some (u "def " ++ fmt function_name ++ u "(" ++ fmt params_code
                     ++ u "):" ++ nl ++ fmt body_code))
      end
  end.

(** The loop of [_generate_block]; [if child_code:] holds for a string
    that is not empty. *)
Fixpoint generate_block_loop (l : list ASTNode) (code : pystr) : G pystr :=
  match l with
  | [] => ret code
  | child :: rest =>
      child_code <- _generate_node child ;;
      match child_code with
      | Some (c :: cs) =>
          ind <- _indent ;;
          generate_block_loop rest (code ++ (ind ++ (c :: cs) ++ nl))
      | _ => generate_block_loop rest code
      end
  end.

Definition _generate_block (node : ASTNode) : G pyobj :=
  code <- generate_block_loop (children node) [] ;;
  ret (Some code).

Definition _generate_if_statement (node : ASTNode) : G pyobj :=
  match children node with
  | [] => index_error
  | condition_node :: rest =>
      condition_code <- _generate_node condition_node ;;
      match rest with
      | [] => index_error
      | then_node :: rest =>
          then_code <- deeper then_node (u "pass" ++ nl) ;;
          let code := u "if " ++ fmt condition_code ++ u ":" ++ nl
                      ++ fmt then_code in
          match rest with
          | else_node :: _ =>
              else_code <- deeper else_node (u "pass" ++ nl) ;;
              ret (Some (code ++ u "else:" ++ nl ++ fmt else_code))
          | [] => ret (Some code)
          end
      end
  end.

Definition _generate_for_loop (node : ASTNode) : G pyobj :=
  match children node with
  | [] => index_error
  | var_node :: rest =>
      var_code <- _generate_node var_node ;;
      match rest with
      | [] => index_error
      | iterable_node :: rest =>
          iterable_code <- _generate_node iterable_node ;;
          match rest with
          | [] => index_error
          | body_node :: _ =>
              body_code <- deeper body_node (u "pass" ++ nl) ;;
              ret (Some (u "for " ++ fmt var_code ++ u " in "
                         ++ fmt iterable_code ++ u ":" ++ nl ++ fmt body_code))
          end
      end
  end.

Definition _generate_while_loop (node : ASTNode) : G pyobj :=
  match children node with
  | [] => index_error
  | condition_node :: rest =>
      condition_code <- _generate_node condition_node ;;
      match rest with
      | [] => index_error
      | body_node :: _ =>
          body_code <- deeper body_node (u "pass" ++ nl) ;;
          ret (Some (u "while " ++ fmt condition_code ++ u ":" ++ nl
                     ++ fmt body_code))
      end
  end.

Definition _generate_assignment (node : ASTNode) : G pyobj :=
  match children node with
  | [] => index_error
  | var_node :: rest =>
      var_code <- _generate_node var_node ;;
      match rest with
      | [] => index_error
      | expr_node :: _ =>
          expr_code <- _generate_node expr_node ;;
          ret (Some (fmt var_code ++ u " = " ++ fmt expr_code))
      end
  end.

Definition _generate_function_call (node : ASTNode) : G pyobj :=
  let function_name := node_value node in
  match children node with
  | [] => index_error
  | args_node :: _ =>
      args_code <- _generate_node args_node ;;
      ret (Some (fmt function_name ++ u "(" ++ fmt args_code ++ u ")"))
  end.

Definition _generate_condition (node : ASTNode) : G pyobj := first_child node.
Definition _generate_then (node : ASTNode) : G pyobj := first_child node.
Definition _generate_else (node : ASTNode) : G pyobj := first_child node.
Definition _generate_iterable (node : ASTNode) : G pyobj := first_child node.
Definition _generate_body (node : ASTNode) : G pyobj := first_child node.

(** [for arg in node.children: args.append(self._generate_node(arg))] *)
Fixpoint generate_arguments_loop (l : list ASTNode) : G (list pyobj) :=
  match l with
  | [] => ret []
  | arg :: rest =>
      code <- _generate_node arg ;;
      codes <- generate_arguments_loop rest ;;
      ret (code :: codes)
  end.

Definition _generate_arguments (node : ASTNode) : G pyobj :=
  args <- generate_arguments_loop (children node) ;;
  comma_join args.

End Methods.

Definition _generate_variable (node : ASTNode) : G pyobj := ret (node_value node).
Definition _generate_literal (node : ASTNode) : G pyobj :=
  ret (Some (fmt (node_value node))).
Definition _generate_expression (node : ASTNode) : G pyobj :=
  ret (Some (fmt (node_value node))).
Definition _generate_parameters (node : ASTNode) : G pyobj :=
  comma_join (map node_value (children node)).

Fixpoint _generate_node (node : ASTNode) : G pyobj :=
  let ty := node_type node in
  if is_type "PROGRAM" ty then _generate_program _generate_node node
  else if is_type "FUNCTION_DEF" ty then _generate_function_def _generate_node node
  else if is_type "BLOCK" ty then _generate_block _generate_node node
  else if is_type "IF_STATEMENT" ty then _generate_if_statement _generate_node node
  else if is_type "FOR_LOOP" ty then _generate_for_loop _generate_node node
  else if is_type "WHILE_LOOP" ty then _generate_while_loop _generate_node node
  else if is_type "ASSIGNMENT" ty then _generate_assignment _generate_node node
  else if is_type "FUNCTION_CALL" ty then _generate_function_call _generate_node node
  else if is_type "VARIABLE" ty then _generate_variable node
  else if is_type "LITERAL" ty then _generate_literal node
  else if is_type "EXPRESSION" ty then _generate_expression node
  else if is_type "CONDITION" ty then _generate_condition _generate_node node
  else if is_type "THEN" ty then _generate_then _generate_node node
  else if is_type "ELSE" ty then _generate_else _generate_node node
  else if is_type "PARAMETERS" ty then _generate_parameters node
  else if is_type "ARGUMENTS" ty then _generate_arguments _generate_node node
  else if is_type "ITERABLE" ty then _generate_iterable _generate_node node
  else if is_type "BODY" ty then _generate_body _generate_node node
  else ret (Some []).

Definition error_comment (e : exn) : pystr :=
  u "# Error en la generaci" ++ [243%N] ++ u "n de c" ++ [243%N] ++ u "digo: "
  ++ exn_str e.

(** [generate]: the text returned and the generator afterwards; [None]
    stands for a call that does not return. *)
Definition generate (ast : ASTNode) (self : CodeGenerator)
    : option (pystr * CodeGenerator) :=
  match (code <- _generate_node ast ;; format_python_code code) self with
  | Ok formatted_code self' => Some (formatted_code, self')
  | Raised e self' => Some (error_comment e, self')
  | OutOfFuel => None
  end.

(** [CodeGenerator()] *)
Definition new_generator : CodeGenerator := mkGenerator 0 4.


End Generator.

(* ================================================================== *)
(** * The scan of the lexer, as the specification words it *)
(* ================================================================== *)

Section ScanSpec.
Context (U : Unicode) (L : LexicalAnalyzer).

(** Pattern number [i] of [pats] is the first, in the declared order,
    that matches [text] at [position]; its match ends at [e]. *)
Definition first_match (pats : list (regex * option token_func))
    (text : pystr) (position i : nat) (p : regex * option token_func)
    (e : nat) : Prop :=
  pats !! i = Some p ∧ re_match p.1 text position = Some e ∧
  ∀ j q, j < i → pats !! j = Some q → re_match q.1 text position = None.

Definition no_match (pats : list (regex * option token_func))
    (text : pystr) (position : nat) : Prop :=
  ∀ q, q ∈ pats → re_match q.1 text position = None.

(** [scan text position toks final]: scanning [text] from [position]
    emits [toks] and stops at [final].  At each position the first
    matching pattern wins and the scan moves to the end of its match; the
    white-space pattern (no token function) emits nothing; where nothing
    matches the scan moves on by one character. *)
Inductive scan (text : pystr) : nat → list Token → nat → Prop :=
| scan_end position :
    length text ≤ position → scan text position [] position
| scan_emit position i re f e toks final :
    position < length text →
    first_match (patterns U L) text position i (re, Some f) e →
    scan text e toks final →
    scan text position (f (group text position e) position :: toks) final
| scan_ignore position i re e toks final :
    position < length text →
    first_match (patterns U L) text position i (re, None) e →
    scan text e toks final →
    scan text position toks final
| scan_skip position toks final :
    position < length text →
    no_match (patterns U L) text position →
    scan text (position + 1) toks final →
    scan text position toks final.

(** The token types of the patterns after the first, in declared order;
    [None] is the white-space pattern. *)
Definition declared_types (m : pystr) (p : nat) : list (option pystr) :=
  map (fun q => (fun f : token_func => type (f m p)) <$> q.2)
      (tail (patterns U L)).
End ScanSpec.


(* ================================================================== *)
(** * Predicates used in the proofs *)
(* ================================================================== *)

(** A match ends inside the text and not before its start. *)
Definition bounded (k : pystr → nat → option nat) : Prop :=
  ∀ s n e, k s n = Some e → n ≤ e ≤ n + length s.

(** A pattern that starts with a class taken once or more: it consumes at
    least one character, and that character is in the class. *)
Definition consuming (r : regex) : Prop :=
  match r with
  | (_, One) :: _ | (_, Plus) :: _ => True
  | _ => False
  end.

(** [t] is the token that a pattern with a token function makes of a
    match somewhere in [text]. *)
Definition emitted (U : Unicode) (L : LexicalAnalyzer) (text : pystr)
    (t : Token) : Prop :=
  ∃ re f position e,
    (re, Some f) ∈ patterns U L ∧ re_match re text position = Some e ∧
    t = f (group text position e) position.

(** The ASCII characters that [normalize_text] is meant to delete and that
    the operator, delimiter and string patterns look for. *)
Definition forbidden : pystr := u "=+-*/<>()[]{}" ++ [dquote; squote].

(** None of them is a word character or white space in the Unicode
    database. *)
Definition punctuation_unclassified (U : Unicode) : Prop :=
  ∀ c, c ∈ forbidden → isalnum U c = false ∧ isspace U c = false.

(** The words that the OPERATOR category of [SPECIAL_TOKENS] lists. *)
Definition operator_words : list pystr :=
  [u "m" ++ [225%N] ++ u "s"; u "mas"; u "menos"; u "por";
   u "dividido"; u "igual"; u "mayor"; u "menor"].

(** What a token of [tokenize] can be, as far as strings, operators and
    delimiters go. *)
Definition lexed (t : Token) : Prop :=
  type t ≠ u "STRING"
  ∧ (type t = u "OPERATOR" → value t = u "!" ∨ value t ∈ operator_words)
  ∧ (type t = u "DELIMITER" → value t ∈ [u ","; u ";"; u ":"]).

(* ================================================================== *)
(** * Predicates about stateful code and the parser *)
(* ================================================================== *)

(** The token under the cursor, the parser one token further, and the
    number of tokens from the cursor to the end of the list. *)
Definition current (s : SyntaxAnalyzer) : Token :=
  Parser.token_at s (current_token_index s).
Definition next (s : SyntaxAnalyzer) : SyntaxAnalyzer :=
  mkParser (tokens s) (current_token_index s + 1).
Definition remaining (s : SyntaxAnalyzer) : nat :=
  length (tokens s) - current_token_index s.

(** Every BLOCK node of the tree has at most one child. *)
Fixpoint blocks_ok (node : ASTNode) : bool :=
  (if bool_decide (node_type node = u "BLOCK")
   then length (children node) <=? 1 else true)
  && forallb blocks_ok (children node).

(** From [s] the parser moved forward to [s'] over the same tokens. *)
Definition advanced (s s' : SyntaxAnalyzer) : Prop :=
  tokens s' = tokens s ∧ current_token_index s < current_token_index s'.

Definition parsed (s : SyntaxAnalyzer) (node : ASTNode)
    (s' : SyntaxAnalyzer) : Prop :=
  advanced s s' ∧ blocks_ok node = true.

(** The exception of an [expect] call made at [s]: the type of the current
    token is not the expected one. *)
Definition expect_failure (s : SyntaxAnalyzer) (e : exn) : Prop :=
  ∃ T : string,
    e = SyntaxError (Parser.expect_message (u T) (type (current s)))
    ∧ type (current s) ≠ u T.

(** The exception of a for-loop raised at [s]: the two tokens before the
    cursor are [for] and the loop variable (an identifier), and the current
    token is not the keyword [in]. *)
Definition for_in_failure (s : SyntaxAnalyzer) (e : exn) : Prop :=
  e = SyntaxError Parser.for_in_message
  ∧ is_keyword "in" (current s) = false
  ∧ ∃ i, current_token_index s = S (S i)
      ∧ value (Parser.token_at s i) = u "for"
      ∧ type (Parser.token_at s (S i)) = u "IDENTIFIER".

Definition hard_failure (s : SyntaxAnalyzer) (e : exn)
    (s' : SyntaxAnalyzer) : Prop :=
  tokens s' = tokens s ∧ (expect_failure s' e ∨ for_in_failure s' e).

(** From [s] the parser moved to [s'], possibly staying where it was. *)
Definition moved (s s' : SyntaxAnalyzer) : Prop :=
  tokens s' = tokens s ∧ current_token_index s ≤ current_token_index s'.

(** What a call of [parse_statement] is relied on for, at the states with
    fewer than [r] tokens left. *)
Definition statement_spec (r : nat) (parse_statement : Parser.P ASTNode) : Prop :=
  ∀ s, remaining s < r →
    wp parse_statement s (parsed s) (hard_failure s) False.

(** [m'] does what [m] does wherever [m] does not run out of fuel. *)
Definition fuel_le {S A} (m m' : M S A) : Prop :=
  ∀ s, m s = OutOfFuel ∨ m s = m' s.

(* ================================================================== *)
(** * Predicates about the symbol table and the points of analysis *)
(* ================================================================== *)

(** The invariant of the symbol table: the scope map has the key
    ["global"] and the key [current_scope]. *)
Definition table_ok (t : SymbolTable) : Prop :=
  is_Some (symbols t !! global) ∧ is_Some (symbols t !! current_scope t).

(** What [lookup(name)] finds in the table of [self]. *)
Definition found (name : pyname) (self : SemanticAnalyzer) : option Symbol :=
  match SymbolTable.lookup name (symbol_table self) with
  | Ok r _ => r
  | _ => None
  end.

(** [k] from the state that [m] leaves, if [m] returns. *)
Definition continue_after (m : Semantic.A unit) (self : SemanticAnalyzer)
    (k : SemanticAnalyzer → list (ASTNode * SemanticAnalyzer))
    : list (ASTNode * SemanticAnalyzer) :=
  match m self with
  | Ok _ self' => k self'
  | _ => []
  end.

(** The points of analysis: every node on which [_analyze_node] is called
    while [node] is analyzed from [self], with the analyzer as it is at
    that call, in order. *)
Fixpoint visits (node : ASTNode) (self : SemanticAnalyzer)
    : list (ASTNode * SemanticAnalyzer) :=
  let each := fix each (l : list ASTNode) (self : SemanticAnalyzer) :=
    match l with
    | [] => []
    | child :: rest =>
        visits child self
        ++ continue_after (Semantic._analyze_node child) self (each rest)
    end in
  let ty := node_type node in
  let kids := children node in
  (node, self) ::
  if Semantic.is_type "PROGRAM" ty then each kids self
  else if Semantic.is_type "FUNCTION_DEF" ty then
    match kids with
    | params_node :: body_node :: _ =>
        continue_after
          (Semantic.declare_function (node_value node) ;;
           Semantic.add_parameters (children params_node))
          self (visits body_node)
    | _ => []
    end
  else if Semantic.is_type "BLOCK" ty then each kids self
  else if Semantic.is_type "IF_STATEMENT" ty then
    match kids with
    | [] => []
    | condition_node :: rest =>
        visits condition_node self
        ++ continue_after (Semantic._analyze_node condition_node) self
             (fun self =>
                match rest with
                | [] => []
                | then_node :: rest =>
                    visits then_node self
                    ++ continue_after (Semantic._analyze_node then_node) self
                         (fun self =>
                            match rest with
                            | else_node :: _ => visits else_node self
                            | [] => []
                            end)
                end)
    end
  else if Semantic.is_type "FOR_LOOP" ty then
    match kids with
    | var_node :: iterable_node :: rest =>
        continue_after
          (Semantic.on_table
             (SymbolTable.add_symbol (node_value var_node) "VARIABLE") ;; ret tt)
          self
          (fun self =>
             visits iterable_node self
             ++ continue_after (Semantic._analyze_node iterable_node) self
                  (fun self =>
                     match rest with
                     | body_node :: _ => visits body_node self
                     | [] => []
                     end))
    | _ => []
    end
  else if Semantic.is_type "WHILE_LOOP" ty then
    match kids with
    | [] => []
    | condition_node :: rest =>
        visits condition_node self
        ++ continue_after (Semantic._analyze_node condition_node) self
             (fun self =>
                match rest with
                | body_node :: _ => visits body_node self
                | [] => []
                end)
    end
  else if Semantic.is_type "ASSIGNMENT" ty then
    match kids with
    | var_node :: expr_node :: _ =>
        continue_after (Semantic.define_target (node_value var_node)) self
          (visits expr_node)
    | _ => []
    end
  else if Semantic.is_type "FUNCTION_CALL" ty then
    match kids with
    | args_node :: _ =>
        continue_after (Semantic.check_callee (node_value node)) self
          (each (children args_node))
    | [] => []
    end
  else if Semantic.is_type "VARIABLE" ty then []
  else each kids self.

Fixpoint visits_each (l : list ASTNode) (self : SemanticAnalyzer)
    : list (ASTNode * SemanticAnalyzer) :=
  match l with
  | [] => []
  | child :: rest =>
      visits child self
      ++ continue_after (Semantic._analyze_node child) self (visits_each rest)
  end.


(** The number of children that the analysis of a node of this type
    indexes. *)
Definition arity (ty : pystr) : nat :=
  if Semantic.is_type "FUNCTION_DEF" ty then 2
  else if Semantic.is_type "IF_STATEMENT" ty then 2
  else if Semantic.is_type "FOR_LOOP" ty then 3
  else if Semantic.is_type "WHILE_LOOP" ty then 2
  else if Semantic.is_type "ASSIGNMENT" ty then 2
  else if Semantic.is_type "FUNCTION_CALL" ty then 1
  else 0.

(** At this point of analysis nothing is reported and nothing raises: the
    node has the children that its analysis indexes; a VARIABLE names a
    symbol that [lookup] finds; a FUNCTION_CALL names one of kind
    FUNCTION; a FUNCTION_DEF names one that [lookup] does not find. *)
Definition no_error_at (p : ASTNode * SemanticAnalyzer) : bool :=
  let ty := node_type p.1 in
  let symbol := found (node_value p.1) p.2 in
  (arity ty <=? length (children p.1))
  && (if Semantic.is_type "VARIABLE" ty then bool_decide (is_Some symbol)
      else if Semantic.is_type "FUNCTION_CALL" ty then
        match symbol with
        | Some sym => bool_decide (sym_type sym = u "FUNCTION")
        | None => false
        end
      else if Semantic.is_type "FUNCTION_DEF" ty then
        bool_decide (symbol = None)
      else true).

(** [m] returns from [self] without adding an error, and leaves the
    invariant of the symbol table in place. *)
Definition quiet (m : Semantic.A unit) (self : SemanticAnalyzer) : Prop :=
  ∃ self', m self = Ok tt self' ∧ errors self' = errors self
    ∧ table_ok (symbol_table self').

(** [m] run from [self] raises, or returns with at least [n] errors
    appended to those of [self], and leaves the invariant of the symbol
    table in place. *)
Definition appends {X} (n : nat) (m : Semantic.A X) (self : SemanticAnalyzer)
    : Prop :=
  wp m self
    (fun _ self' =>
       table_ok (symbol_table self')
       ∧ ∃ extra, errors self' = errors self ++ extra ∧ n ≤ length extra)
    (fun _ _ => True) False.

(** Inputs on which the analyzer is run in the statements below. *)
Definition empty_function (f : string) : ASTNode :=
  mkNode (u "FUNCTION_DEF") (Some (u f)) [node0 "PARAMETERS" []; node0 "BLOCK" []].

(** [def f(): ...] twice. *)
Definition twice_defined : ASTNode :=
  node0 "PROGRAM" [empty_function "f"; empty_function "f"].


(** An IF_STATEMENT node without children. *)
Definition childless_if : ASTNode := node0 "PROGRAM" [node0 "IF_STATEMENT" []].

(** [x = 5] and [x = x]. *)
Definition x_is_5 : ASTNode :=
  node0 "PROGRAM"
    [node0 "ASSIGNMENT" [leaf "VARIABLE" (u "x"); leaf "LITERAL" (u "5")]].
Definition x_is_x : ASTNode :=
  node0 "ASSIGNMENT" [leaf "VARIABLE" (u "x"); leaf "VARIABLE" (u "x")].

(* ================================================================== *)
(** * utils.tokenize, and what the normal form of a text is *)
(* ================================================================== *)

(** No two neighbours in [s] are both white space. *)
Fixpoint single_spaced (U : Unicode) (s : pystr) : bool :=
  match s with
  | x :: s' =>
      match s' with
      | y :: _ => negb (isspace U x && isspace U y)
      | [] => true
      end && single_spaced U s'
  | [] => true
  end.

Module utils.
Section Tokenize.
Context (U : Unicode).

(** The class [[.,;:?!¿¡]] *)
Definition ispunct (c : char) : bool :=
  char_in ".,;:?!" c || (c =? 191)%N || (c =? 161)%N.

(** The two alternatives of the pattern of [tokenize], a run of word
    characters and one punctuation mark. *)
Definition re_words : regex := [ (isword U, Plus) ].
Definition re_punct : regex := [ (ispunct, One) ].

(** A match of the alternation at [position]: the left alternative is
    tried first. *)
Definition alternation (text : pystr) (position : nat) : option nat :=
  match re_match re_words text position with
  | Some e => Some e
  | None => re_match re_punct text position
  end.

(** [re.findall(pattern, text)] for a pattern without groups that matches
    no empty string: the matches from left to right, each search starting
    where the previous match ended; [fuel] bounds the number of steps. *)
Fixpoint findall (fuel : nat) (text : pystr) (position : nat)
    (matches : list pystr) : option (list pystr) :=
  match fuel with
  | 0 => None
  | S fuel =>
      if decide (position < length text) then
        match alternation text position with
        | Some e => findall fuel text e (matches ++ [group text position e])
        | None => findall fuel text (position + 1) matches
        end
      else Some matches
  end.

Definition tokenize (text : pystr) : option (list pystr) :=
  findall (S (length text)) text 0 [].

End Tokenize.
End utils.

(* ================================================================== *)
(** * What format_python_code computes *)
(* ================================================================== *)

(** Each line after as many indentation units as there are earlier lines
    that end in a colon, counting from [indent_level]. *)
Fixpoint indent_by_colons (stripped : list pystr) (indent_level : Z)
    : list pystr :=
  match stripped with
  | [] => []
  | s :: rest =>
      (times (u "    ") indent_level ++ s)
      :: indent_by_colons rest
           (if endswith s 58%N then (indent_level + 1)%Z else indent_level)
  end.

(** The lines of [code], stripped, without the empty ones. *)
Definition stripped_lines (U : Unicode) (code : pystr) : list pystr :=
  List.filter (fun s => negb (bool_decide (s = [])))
    (map (strip U) (split_lines code [])).

(* ================================================================== *)
(** * Positions of the tokens *)
(* ================================================================== *)

(** The positions of [toks] increase strictly, from [from] on and below
    [bound]. *)
Fixpoint positions_increase (from bound : Z) (toks : list Token) : Prop :=
  match toks with
  | [] => True
  | t :: rest =>
      (from ≤ position t < bound)%Z
      ∧ positions_increase (position t + 1) bound rest
  end.

(* ================================================================== *)
(** * The shape of the trees that the parser builds *)
(* ================================================================== *)

(** [node.value] is a string. *)
Definition has_value (node : ASTNode) : bool :=
  bool_decide (is_Some (node_value node)).

(** The shape that the analyzer and the generator rely on, all through
    the tree: a node has the children that they index, a VARIABLE has a
    name, and so has every child of a PARAMETERS node. *)
Fixpoint well_formed (node : ASTNode) : bool :=
  (arity (node_type node) <=? length (children node))
  && (if Semantic.is_type "VARIABLE" (node_type node)
      then bool_decide (is_Some (node_value node)) else true)
  && (if Semantic.is_type "PARAMETERS" (node_type node)
      then forallb has_value (children node) else true)
  && forallb well_formed (children node).

(** Whenever [m] returns, what it returns satisfies [Q]. *)
Definition returns {S A} (Q : A → Prop) (m : M S A) : Prop :=
  ∀ s, wp m s (fun a _ => Q a) (fun _ _ => True) True.

(** Whenever [m] returns a tree, the tree is well formed. *)
Definition shaped {S} (m : M S ASTNode) : Prop :=
  returns (fun node => well_formed node = true) m.

(* ================================================================== *)
(** * Runs of the analyzer and of the generator that end normally *)
(* ================================================================== *)

(** [m] run from [self] returns (it does not raise), and leaves the
    invariant of the symbol table in place. *)
Definition completes {X} (m : Semantic.A X) (self : SemanticAnalyzer) : Prop :=
  wp m self (fun _ self' => table_ok (symbol_table self'))
    (fun _ _ => False) False.

(** [m] returns a value that satisfies [Q] and leaves the generator as it
    was. *)
Definition gives {X} (Q : X → Prop) (m : G X) : Prop :=
  ∀ self, ∃ x, m self = Ok x self ∧ Q x.

(** Whatever [m] does, it leaves [indent_size] alone and [indent_level]
    not lower than it was; when it returns, the generator is as it was. *)
Definition restores {X} (m : G X) : Prop :=
  ∀ self,
    wp m self (fun _ self' => self' = self)
      (fun _ self' => indent_size self' = indent_size self
                      ∧ (indent_level self ≤ indent_level self')%Z)
      False.

(* ================================================================== *)
(** * What the analyzer has recorded *)
(* ================================================================== *)

(** Every scope of [t] is a scope of [t'], with at least the names it
    has in [t].  The symbols bound to the names need not be the same. *)
Definition extends (t t' : SymbolTable) : Prop :=
  ∀ scope d, symbols t !! scope = Some d →
    ∃ d', symbols t' !! scope = Some d'
      ∧ ∀ name, is_Some (d !! name) → is_Some (d' !! name).

(** From [self] to [self'] the scopes, the names in them and the errors
    have only grown, and the invariant of the table holds in [self']. *)
Definition grown (self self' : SemanticAnalyzer) : Prop :=
  table_ok (symbol_table self')
  ∧ extends (symbol_table self) (symbol_table self')
  ∧ errors self `prefix_of` errors self'.

(** Whether [m] returns or raises, what is recorded has only grown. *)
Definition keeps {X} (m : Semantic.A X) : Prop :=
  ∀ self, table_ok (symbol_table self) →
    wp m self (fun _ self' => grown self self')
      (fun _ self' => grown self self') False.

(** The name is listed in the global scope. *)
Definition in_global (name : pyname) (t : SymbolTable) : Prop :=
  ∃ g, symbols t !! global = Some g ∧ is_Some (g !! name).

(* ================================================================== *)
(** * syntax_analyzer.ASTNode.__str__ *)
(* ================================================================== *)

(** [__str__(level)]: the node on one line after two spaces per level,
    then its children one level deeper. *)
Fixpoint __str__ (node : ASTNode) (level : nat) : pystr :=
  times (u "  ") (Z.of_nat level) ++ node_type node
  ++ match node_value node with
     | Some v => u ": " ++ v
     | None => []
     end
  ++ nl
  ++ concat (map (fun child => __str__ child (level + 1)) (children node)).

(** The number of nodes of a tree. *)
Fixpoint node_count (node : ASTNode) : nat :=
  S (list_sum (map node_count (children node))).

(** No type and no value in the tree has a line break in it. *)
Fixpoint one_line_each (node : ASTNode) : bool :=
  bool_decide (10%N ∉ node_type node)
  && match node_value node with
     | Some v => bool_decide (10%N ∉ v)
     | None => true
     end
  && forallb one_line_each (children node).

(** The number of line breaks of a text. *)
Definition line_breaks (s : pystr) : nat :=
  length (List.filter (fun c => (c =? 10)%N) s).

(* ================================================================== *)
(** * simple_syntax_analyzer.py, simple_semantic_analyzer.py,
      simple_code_generator.py *)
(* ================================================================== *)

(** The root that [SimpleSyntaxAnalyzer.parse] returns: a node of the
    class [ASTNode] of simple_syntax_analyzer.py (the same three fields)
    with the attribute [original_code]; [None] stands for a node on which
    the attribute is not set. *)
Record SimpleAST := mkSimple {
  tree : ASTNode;
  original_code : option pystr
}.

Module SimpleSyntaxAnalyzer.

(** [for token in tokens: if token.type != 'EOF':
    reconstructed_code += token.value + " "] *)
Fixpoint reconstruct (tokens : list Token) (reconstructed_code : pystr)
    : pystr :=
  match tokens with
  | [] => reconstructed_code
  | token :: rest =>
      if decide (type token ≠ u "EOF") then
        reconstruct rest (reconstructed_code ++ (value token ++ u " "))
      else reconstruct rest reconstructed_code
  end.

(** [for token in tokens: if token.type != 'EOF':
    code_node.add_child(ASTNode(token.type, token.value))] *)
Fixpoint add_tokens (tokens : list Token) (kids : list ASTNode)
    : list ASTNode :=
  match tokens with
  | [] => kids
  | token :: rest =>
      if decide (type token ≠ u "EOF") then
        add_tokens rest (kids ++ [mkNode (type token) (Some (value token)) []])
      else add_tokens rest kids
  end.

(** [parse(tokens, original_code)]; nothing in its [try] block raises, so
    it returns the root. *)
Definition parse (U : Unicode) (tokens : list Token)
    (original_code : option pystr) : option SimpleAST :=
  let code :=
    match original_code with
    | Some code => code
    | None => strip U (reconstruct tokens [])
    end in
  Some (mkSimple (node0 "PROGRAM" [node0 "CODE" (add_tokens tokens [])])
          (Some code)).

End SimpleSyntaxAnalyzer.

Record SimpleSemanticAnalyzer := mkSimpleAnalyzer {
  simple_errors : list pystr
}.

Module SimpleSemanticAnalyzer.

(** [analyze]: the flag returned and the analyzer afterwards. *)
Definition analyze (ast : SimpleAST) (self : SimpleSemanticAnalyzer)
    : bool * SimpleSemanticAnalyzer :=
  (true, mkSimpleAnalyzer []).

Definition get_errors (self : SimpleSemanticAnalyzer) : list pystr :=
  simple_errors self.

End SimpleSemanticAnalyzer.

Module SimpleCodeGenerator.

Definition missing_code : pystr :=
  u "# Error: No se encontr" ++ [243%N] ++ u " el c" ++ [243%N]
  ++ u "digo original en el AST".

(** [generate]: the code kept on the root, if there is one. *)
Definition generate (ast : SimpleAST) : pystr :=
  match original_code ast with
  | Some code => code
  | None => missing_code
  end.

End SimpleCodeGenerator.

(* ================================================================== *)
(** * What the parser builds from the tokens of the lexer *)
(* ================================================================== *)

(** No node of the tree is an ASSIGNMENT or a FUNCTION_CALL. *)
Fixpoint no_assignment_or_call (node : ASTNode) : bool :=
  negb (Semantic.is_type "ASSIGNMENT" (node_type node))
  && negb (Semantic.is_type "FUNCTION_CALL" (node_type node))
  && forallb no_assignment_or_call (children node).

(** The tokens of the parser are tokens as [tokenize] makes them. *)
Definition over_lexed (s : SyntaxAnalyzer) : Prop := Forall lexed (tokens s).

(** From a state over such tokens, whenever [m] returns, it is in a state
    over such tokens and with a result that satisfies [Q]. *)
Definition returns_on {A} (Q : A → Prop) (m : Parser.P A) : Prop :=
  ∀ s, over_lexed s →
    wp m s (fun a s' => over_lexed s' ∧ Q a) (fun _ _ => True) True.

(** Over such tokens, whenever [m] returns a tree, the tree has no
    assignment and no call. *)
Definition plainly (m : Parser.P ASTNode) : Prop :=
  returns_on (fun node => no_assignment_or_call node = true) m.

(* ================================================================== *)
(** * The limits of the interpreter: recursion depth and standard output *)
(* ================================================================== *)

(** The modules above read the three traversals with a stack that has no
    bound and with the [print] calls of the parser left out.  [Limited]
    reads the same methods as CPython runs them.

    - Every call of a function or method of these Python modules needs a
      frame.  A method [m frames] is the body of [m] running with room for
      [frames] more frames; a call that finds no room raises
      [RecursionError].  The interpreter's limit is 1000 frames unless
      [sys.setrecursionlimit] changed it.  [RecursionError] derives from
      [Exception], so the [except Exception] of [parse], [analyze] and
      [generate] catches it.
    - [print] writes to standard output and raises when it cannot
      ([stdout]).
    - Built-in functions and methods ([len], [list.append], [str.join],
      ...) take no frame.  The logger calls of [parse], [analyze] and
      [generate] themselves run at the depth of the caller and are left
      out; the one inside the traversal of the generator needs [logging]
      frames. *)
Definition recursion_error : exn :=
  RecursionError (u "maximum recursion depth exceeded").

(** CPython appends the place where the limit was hit to the message in
    some versions, so the properties below speak of any [RecursionError]. *)
Definition is_RecursionError (e : exn) : Prop := ∃ msg, e = RecursionError msg.

(** The exception that a [print] call raises when writing [text] fails. *)
Definition print_failure (stdout : pystr → option pystr) (e : exn) : Prop :=
  ∃ text msg, stdout text = Some msg ∧ e = OutputError msg.

(** What stops the parser from outside its own code. *)
Definition stopped (stdout : pystr → option pystr) (e : exn) : Prop :=
  is_RecursionError e ∨ print_failure stdout e.

(** No exception at all: [sim never ml mi] says that [ml] and [mi] do the
    same. *)
Definition never (e : exn) : Prop := False.

(** [ml] does what [mi] does, unless it is stopped by an exception in [I]. *)
Definition sim {St A} (I : exn → Prop) (ml mi : M St A) : Prop :=
  ∀ s, ml s = mi s ∨ ∃ e s', ml s = Raised e s' ∧ I e.

(** [ml] returns [f s] from [s] and leaves [s] as it is, unless it is
    stopped by an exception in [I]. *)
Definition reads {St A} (I : exn → Prop) (ml : M St A) (f : St → A) : Prop :=
  ∀ s, ml s = Ok (f s) s ∨ ∃ e s', ml s = Raised e s' ∧ I e.

Module Limited.

Section Frames.
Context {St : Type}.

(** A call: the callee runs with one frame less. *)
Definition call {A} (frames : nat) (callee : nat → M St A) : M St A :=
  match frames with
  | 0 => raise recursion_error
  | S frames => callee frames
  end.

(** The calls that build [object]: a constructor ([Token(...)],
    [ASTNode(...)], [Symbol(...)]) or [add_child].  Their bodies call
    nothing, so each needs one frame on top of the caller's, and where a
    node is built by several of them in a row one [build] stands for
    them. *)
Definition build {A} (frames : nat) (object : A) : M St A :=
  call frames (fun _ => ret object).

(** [a and b], [a or b]: [b] is evaluated only when [a] does not decide. *)
Definition and_ (a b : M St bool) : M St bool :=
  x <- a ;; if x then b else ret false.
Definition or_ (a b : M St bool) : M St bool :=
  x <- a ;; if x then ret true else b.

(** [m == v], [m != v] *)
Definition is_ {A} `{EqDecision A} (m : M St A) (v : A) : M St bool :=
  x <- m ;; ret (bool_decide (x = v)).
Definition is_not {A} `{EqDecision A} (m : M St A) (v : A) : M St bool :=
  x <- m ;; ret (bool_decide (x ≠ v)).

End Frames.

(* ------------------------------------------------------------------ *)
(** ** syntax_analyzer.py *)
(* ------------------------------------------------------------------ *)

Section Syntax.

(** [stdout text] is [None] when [print] writes [text], and the message of
    the exception when the write fails (the stream is closed, or its
    encoding lacks a character of [text]). *)
Variable stdout : pystr → option pystr.

Definition P := Parser.P.

Definition print (text : pystr) : P unit :=
  match stdout text with
  | None => ret tt
  | Some msg => raise (OutputError msg)
  end.

Definition current_token (frames : nat) : P Token :=
  self <- get ;;
  match tokens self !! current_token_index self with
  | Some token => ret token
  | None => build frames EOF_token
  end.

Definition peek_next_token (frames : nat) : P Token :=
  self <- get ;;
  match tokens self !! (current_token_index self + 1) with
  | Some token => ret token
  | None => build frames EOF_token
  end.

Definition consume (frames : nat) : P Token :=
  token <- call frames current_token ;;
  modify (fun self => mkParser (tokens self) (current_token_index self + 1)) ;;
  ret token.

Definition expect (token_type : string) (frames : nat) : P Token :=
  token <- call frames current_token ;;
  if decide (type token ≠ u token_type) then
    raise (SyntaxError (Parser.expect_message (u token_type) (type token)))
  else call frames consume.

(** [self.current_token().type], [self.peek_next_token().value], ... *)
Definition attr {X} (frames : nat) (method : nat → P Token)
    (field : Token → X) : P X :=
  token <- call frames method ;; ret (field token).

(** [self.current_token().type == T and self.current_token().value == v] *)
Definition current_is (frames : nat) (T v : string) : P bool :=
  and_ (is_ (attr frames current_token type) (u T))
       (is_ (attr frames current_token value) (u v)).

(** [self.current_token().type != T or self.current_token().value != v] *)
Definition current_is_not (frames : nat) (T v : string) : P bool :=
  or_ (is_not (attr frames current_token type) (u T))
      (is_not (attr frames current_token value) (u v)).

(** The texts that the parser prints. *)
Definition encontro : pystr := u "pero se encontr" ++ [243%N; 32%N].

Definition after_def (current : Token) : pystr :=
  u "Token actual despu" ++ [233%N] ++ u "s de consumir 'def': "
  ++ type current ++ u ", '" ++ value current ++ u "'".

Definition identifier_warning (found : pystr) : pystr :=
  u "ADVERTENCIA: Se esperaba un identificador, " ++ encontro ++ found.

Definition parameter_warning (found : pystr) : pystr :=
  u "ADVERTENCIA: Se esperaba un identificador para par" ++ [225%N]
  ++ u "metro, " ++ encontro ++ found.

Definition delimiter_warning (d : string) (found_type found_value : pystr)
    : pystr :=
  u "ADVERTENCIA: Se esperaba '" ++ u d ++ u "', " ++ encontro
  ++ found_type ++ u ": '" ++ found_value ++ u "'".

(** [print(f"ADVERTENCIA: Se esperaba 'd', pero se encontró
    {self.current_token().type}: '{self.current_token().value}'")] *)
Definition warn_delimiter (frames : nat) (d : string) : P unit :=
  found_type <- attr frames current_token type ;;
  found_value <- attr frames current_token value ;;
  print (delimiter_warning d found_type found_value).

(** [if <the current token is the delimiter d>: self.consume()
    else: print(...)] *)
Definition consume_delimiter (frames : nat) (d : string) : P unit :=
  here <- current_is frames "DELIMITER" d ;;
  if here then call frames consume ;; ret tt
  else warn_delimiter frames d.

(** [node.add_child(child)], on the list of children of [node]. *)
Definition add_child (frames : nat) (children : list ASTNode)
    (child : ASTNode) : P (list ASTNode) :=
  build frames (children ++ [child]).

(** The [while True] loop over the arguments of a call. *)
Fixpoint arguments_loop (parse_expression : nat → P ASTNode)
    (frames fuel : nat) (args : list ASTNode) : P (list ASTNode) :=
  match fuel with
  | 0 => out_of_fuel
  | S fuel =>
      arg_node <- call frames parse_expression ;;
      args <- add_child frames args arg_node ;;
      comma <- current_is frames "DELIMITER" "," ;;
      if comma then
        call frames consume ;;
        arguments_loop parse_expression frames fuel args
      else ret args
  end.

Fixpoint parse_expression (fuel frames : nat) : P ASTNode :=
  match fuel with
  | 0 => out_of_fuel
  | S fuel =>
      token <- call frames current_token ;;
      if decide (type token ∈ [u "INTEGER"; u "FLOAT"]) then
        call frames consume ;; build frames (leaf "LITERAL" (value token))
      else if decide (type token = u "STRING") then
        call frames consume ;; build frames (leaf "LITERAL" (value token))
      else if decide (type token = u "IDENTIFIER") then
        call frames consume ;;
        opening <- current_is frames "DELIMITER" "(" ;;
        if opening then
          call frames consume ;;
          args_node <- build frames (node0 "ARGUMENTS" []) ;;
          more <- current_is_not frames "DELIMITER" ")" ;;
          args <- (if more
                   then arguments_loop (parse_expression fuel) frames (S fuel)
                          (children args_node)
                   else ret (children args_node)) ;;
          call frames (expect "DELIMITER") ;;
          build frames (mkNode (u "FUNCTION_CALL") (Some (value token))
                          [node0 "ARGUMENTS" args])
        else build frames (leaf "VARIABLE" (value token))
      else if is_delimiter "(" token then
        call frames consume ;;
        expr_node <- call frames (parse_expression fuel) ;;
        call frames (expect "DELIMITER") ;;
        ret expr_node
      else
        call frames consume ;; build frames (leaf "EXPRESSION" (value token))
  end.

(** [self.current_token().type == 'IDENTIFIER' and
    self.peek_next_token().type == 'OPERATOR' and
    self.peek_next_token().value == '='] *)
Definition assignment_ahead (frames : nat) : P bool :=
  and_ (and_ (is_ (attr frames current_token type) (u "IDENTIFIER"))
             (is_ (attr frames peek_next_token type) (u "OPERATOR")))
       (is_ (attr frames peek_next_token value) (u "=")).

Definition parse_expression_statement (fuel frames : nat) : P ASTNode :=
  assignment <- assignment_ahead frames ;;
  if assignment then
    var_token <- call frames consume ;;
    call frames consume ;;
    expr_node <- call frames (parse_expression fuel) ;;
    build frames
      (node0 "ASSIGNMENT" [leaf "VARIABLE" (value var_token); expr_node])
  else call frames (parse_expression fuel).

Definition parse_block (parse_statement : nat → P ASTNode) (frames : nat)
    : P ASTNode :=
  consume_delimiter frames ":" ;;
  block_node <- build frames (node0 "BLOCK" []) ;;
  more <- is_not (attr frames current_token type) (u "EOF") ;;
  if more then
    statement <- call frames parse_statement ;;
    children <- add_child frames (children block_node) statement ;;
    ret (node0 "BLOCK" children)
  else ret block_node.

(** The [while True] loop over the parameters of a definition. *)
Fixpoint parameters_loop (frames fuel : nat) (params : list ASTNode)
    : P (list ASTNode) :=
  match fuel with
  | 0 => out_of_fuel
  | S fuel =>
      param_token <- call frames current_token ;;
      if decide (type param_token ≠ u "IDENTIFIER") then
        print (parameter_warning (type param_token)) ;;
        ret params
      else
        call frames consume ;;
        param <- build frames (leaf "PARAMETER" (value param_token)) ;;
        params <- add_child frames params param ;;
        comma <- current_is frames "DELIMITER" "," ;;
        if comma then
          call frames consume ;; parameters_loop frames fuel params
        else ret params
  end.

Definition parse_function_definition (fuel : nat)
    (parse_statement : nat → P ASTNode) (frames : nat) : P ASTNode :=
  call frames consume ;;
  current <- call frames current_token ;;
  print (after_def current) ;;
  name_token <- call frames current_token ;;
  when (bool_decide (type name_token ≠ u "IDENTIFIER"))
    (print (identifier_warning (type name_token))) ;;
  let name_value := value name_token in
  call frames consume ;;
  consume_delimiter frames "(" ;;
  params_node <- build frames (node0 "PARAMETERS" []) ;;
  more <- current_is_not frames "DELIMITER" ")" ;;
  params <- (if more
             then parameters_loop frames fuel (children params_node)
             else ret (children params_node)) ;;
  consume_delimiter frames ")" ;;
  body_node <- call frames (parse_block parse_statement) ;;
  build frames (mkNode (u "FUNCTION_DEF") (Some name_value)
                  [node0 "PARAMETERS" params; body_node]).

Definition parse_if_statement (fuel : nat)
    (parse_statement : nat → P ASTNode) (frames : nat) : P ASTNode :=
  call frames consume ;;
  condition_node <- call frames (parse_expression fuel) ;;
  then_block <- call frames (parse_block parse_statement) ;;
  if_children <- build frames
    [node0 "CONDITION" [condition_node]; node0 "THEN" [then_block]] ;;
  else_here <- current_is frames "KEYWORD" "else" ;;
  if else_here then
    call frames consume ;;
    else_block <- call frames (parse_block parse_statement) ;;
    if_children <- add_child frames if_children (node0 "ELSE" [else_block]) ;;
    ret (node0 "IF_STATEMENT" if_children)
  else ret (node0 "IF_STATEMENT" if_children).

Definition parse_loop (fuel : nat) (parse_statement : nat → P ASTNode)
    (frames : nat) : P ASTNode :=
  token <- call frames consume ;;
  if decide (value token = u "for") then
    var_token <- call frames (expect "IDENTIFIER") ;;
    in_here <- current_is frames "KEYWORD" "in" ;;
    (if in_here then call frames consume ;; ret tt
     else raise (SyntaxError Parser.for_in_message)) ;;
    iterable_node <- call frames (parse_expression fuel) ;;
    body_node <- call frames (parse_block parse_statement) ;;
    build frames
      (node0 "FOR_LOOP"
         [leaf "VARIABLE" (value var_token);
          node0 "ITERABLE" [iterable_node]; node0 "BODY" [body_node]])
  else
    condition_node <- call frames (parse_expression fuel) ;;
    body_node <- call frames (parse_block parse_statement) ;;
    build frames
      (node0 "WHILE_LOOP"
         [node0 "CONDITION" [condition_node]; node0 "BODY" [body_node]]).

Fixpoint parse_statement (fuel frames : nat) : P ASTNode :=
  match fuel with
  | 0 => out_of_fuel
  | S fuel =>
      token <- call frames current_token ;;
      if is_keyword "def" token then
        call frames (parse_function_definition fuel (parse_statement fuel))
      else if is_keyword "if" token then
        call frames (parse_if_statement fuel (parse_statement fuel))
      else if bool_decide (type token = u "KEYWORD")
              && bool_decide (value token ∈ [u "for"; u "while"]) then
        call frames (parse_loop fuel (parse_statement fuel))
      else call frames (parse_expression_statement fuel)
  end.

(** The [while] loop of [parse_program]. *)
Fixpoint program_loop (parse_statement : nat → P ASTNode)
    (frames fuel : nat) (stmts : list ASTNode) : P (list ASTNode) :=
  match fuel with
  | 0 => out_of_fuel
  | S fuel =>
      more <- is_not (attr frames current_token type) (u "EOF") ;;
      if more then
        statement <- call frames parse_statement ;;
        stmts <- add_child frames stmts statement ;;
        program_loop parse_statement frames fuel stmts
      else ret stmts
  end.

Definition parse_program (fuel frames : nat) : P ASTNode :=
  program_node <- build frames (node0 "PROGRAM" []) ;;
  stmts <- program_loop (parse_statement fuel) frames fuel
             (children program_node) ;;
  ret (node0 "PROGRAM" stmts).

(** What [parse] runs inside its [try]. *)
Definition parsing (frames : nat) (toks : list Token)
    : result SyntaxAnalyzer ASTNode :=
  call frames (parse_program (length toks + 2)) (mkParser toks 0).

Definition parse (frames : nat) (toks : list Token) : Parser.outcome :=
  match parsing frames toks with
  | Ok ast _ => Parser.Returns (Some ast)
  | Raised _ _ => Parser.Returns None
  | OutOfFuel => Parser.Unfinished
  end.

End Syntax.

(* ------------------------------------------------------------------ *)
(** ** semantic_analyzer.py *)
(* ------------------------------------------------------------------ *)

Section Analysis.

Definition A := Semantic.A.

(** [SymbolTable.add_symbol]; the other methods of the table call nothing. *)
Definition add_symbol (name : pyname) (symbol_type : string) (frames : nat)
    : SymbolTable.T Symbol :=
  self <- get ;;
  symbol <- build frames
              (mkSymbol name (u symbol_type) (current_scope self) None) ;;
  d <- SymbolTable.scope_dict (current_scope self) ;;
  modify (fun self =>
    mkTable (<[current_scope self := <[name := symbol]> d]> (symbols self))
            (current_scope self)) ;;
  ret symbol.

(** [self.symbol_table.lookup(name)] and the like: calls of the methods of
    the table. *)
Definition table_lookup (frames : nat) (name : pyname) : A (option Symbol) :=
  call frames (fun _ => Semantic.on_table (SymbolTable.lookup name)).
Definition table_add_symbol (frames : nat) (name : pyname)
    (symbol_type : string) : A Symbol :=
  call frames (fun n => Semantic.on_table (add_symbol name symbol_type n)).
Definition table_enter_scope (frames : nat) (scope_name : pyname) : A unit :=
  call frames (fun _ => Semantic.on_table (SymbolTable.enter_scope scope_name)).
Definition table_exit_scope (frames : nat) : A unit :=
  call frames (fun _ => Semantic.on_table SymbolTable.exit_scope).

Fixpoint add_parameters (frames : nat) (params : list ASTNode) : A unit :=
  match params with
  | [] => ret tt
  | param :: rest =>
      table_add_symbol frames (node_value param) "PARAMETER" ;;
      add_parameters frames rest
  end.

Definition declare_function (frames : nat) (function_name : pyname) : A unit :=
  found <- table_lookup frames function_name ;;
  when (bool_decide (is_Some found))
    (Semantic.append_error (Semantic.already_defined function_name)) ;;
  table_add_symbol frames function_name "FUNCTION" ;;
  table_enter_scope frames function_name.

Definition define_target (frames : nat) (var_name : pyname) : A unit :=
  found <- table_lookup frames var_name ;;
  when (negb (bool_decide (is_Some found)))
    (table_add_symbol frames var_name "VARIABLE" ;; ret tt).

Definition check_callee (frames : nat) (function_name : pyname) : A unit :=
  function_symbol <- table_lookup frames function_name ;;
  match function_symbol with
  | None => Semantic.append_error (Semantic.function_undefined function_name)
  | Some sym =>
      when (negb (bool_decide (sym_type sym = u "FUNCTION")))
        (Semantic.append_error (Semantic.not_a_function function_name))
  end.

Section Methods.
Variable _analyze_node : nat → ASTNode → A unit.

(** [self._analyze_node(child)] in a body that has [frames] frames left. *)
Definition visit (frames : nat) (child : ASTNode) : A unit :=
  call frames (fun n => _analyze_node n child).

Definition _analyze_program (node : ASTNode) (frames : nat) : A unit :=
  Semantic.for_each (visit frames) (children node).

Definition _analyze_function_def (node : ASTNode) (frames : nat) : A unit :=
  declare_function frames (node_value node) ;;
  match children node with
  | [] => Semantic.index_error
  | params_node :: rest =>
      add_parameters frames (children params_node) ;;
      match rest with
      | [] => Semantic.index_error
      | body_node :: _ =>
          visit frames body_node ;;
          table_exit_scope frames
      end
  end.

Definition _analyze_block (node : ASTNode) (frames : nat) : A unit :=
  Semantic.for_each (visit frames) (children node).

Definition _analyze_if_statement (node : ASTNode) (frames : nat) : A unit :=
  match children node with
  | [] => Semantic.index_error
  | condition_node :: rest =>
      visit frames condition_node ;;
      match rest with
      | [] => Semantic.index_error
      | then_node :: rest =>
          visit frames then_node ;;
          match rest with
          | else_node :: _ => visit frames else_node
          | [] => ret tt
          end
      end
  end.

Definition _analyze_for_loop (node : ASTNode) (frames : nat) : A unit :=
  match children node with
  | [] => Semantic.index_error
  | var_node :: rest =>
      table_add_symbol frames (node_value var_node) "VARIABLE" ;;
      match rest with
      | [] => Semantic.index_error
      | iterable_node :: rest =>
          visit frames iterable_node ;;
          match rest with
          | [] => Semantic.index_error
          | body_node :: _ => visit frames body_node
          end
      end
  end.

Definition _analyze_while_loop (node : ASTNode) (frames : nat) : A unit :=
  match children node with
  | [] => Semantic.index_error
  | condition_node :: rest =>
      visit frames condition_node ;;
      match rest with
      | [] => Semantic.index_error
      | body_node :: _ => visit frames body_node
      end
  end.

Definition _analyze_assignment (node : ASTNode) (frames : nat) : A unit :=
  match children node with
  | [] => Semantic.index_error
  | var_node :: rest =>
      define_target frames (node_value var_node) ;;
      match rest with
      | [] => Semantic.index_error
      | expr_node :: _ => visit frames expr_node
      end
  end.

Definition _analyze_function_call (node : ASTNode) (frames : nat) : A unit :=
  check_callee frames (node_value node) ;;
  match children node with
  | [] => Semantic.index_error
  | args_node :: _ => Semantic.for_each (visit frames) (children args_node)
  end.

End Methods.

Definition _analyze_variable (node : ASTNode) (frames : nat) : A unit :=
  let var_name := node_value node in
  found <- table_lookup frames var_name ;;
  when (negb (bool_decide (is_Some found)))
    (Semantic.append_error (Semantic.variable_undefined var_name)).

Fixpoint _analyze_node (frames : nat) (node : ASTNode) {struct node}
    : A unit :=
  let ty := node_type node in
  if Semantic.is_type "PROGRAM" ty then
    call frames (_analyze_program _analyze_node node)
  else if Semantic.is_type "FUNCTION_DEF" ty then
    call frames (_analyze_function_def _analyze_node node)
  else if Semantic.is_type "BLOCK" ty then
    call frames (_analyze_block _analyze_node node)
  else if Semantic.is_type "IF_STATEMENT" ty then
    call frames (_analyze_if_statement _analyze_node node)
  else if Semantic.is_type "FOR_LOOP" ty then
    call frames (_analyze_for_loop _analyze_node node)
  else if Semantic.is_type "WHILE_LOOP" ty then
    call frames (_analyze_while_loop _analyze_node node)
  else if Semantic.is_type "ASSIGNMENT" ty then
    call frames (_analyze_assignment _analyze_node node)
  else if Semantic.is_type "FUNCTION_CALL" ty then
    call frames (_analyze_function_call _analyze_node node)
  else if Semantic.is_type "VARIABLE" ty then
    call frames (_analyze_variable node)
  else Semantic.for_each (visit _analyze_node frames) (children node).

(** What [analyze] runs inside its [try], after [self.errors = []]. *)
Definition analyzing (frames : nat) (ast : ASTNode) (self : SemanticAnalyzer)
    : result SemanticAnalyzer unit :=
  call frames (fun n => _analyze_node n ast)
    (mkAnalyzer (symbol_table self) []).

Definition analyze (frames : nat) (ast : ASTNode) (self : SemanticAnalyzer)
    : option (bool * SemanticAnalyzer) :=
  match analyzing frames ast self with
  | Ok _ self' => Some (bool_decide (errors self' = []), self')
  | Raised _ self' => Some (false, self')
  | OutOfFuel => None
  end.

End Analysis.

(* ------------------------------------------------------------------ *)
(** ** code_generator.py *)
(* ------------------------------------------------------------------ *)

Section Generation.
Context (U : Unicode).

(** The number of frames that a call of the logger needs. *)
Variable logging : nat.

(** [logger.warning(...)] *)
Definition log (frames : nat) : G unit :=
  if frames <? logging then raise recursion_error else ret tt.

(** [self._indent()] *)
Definition indent (frames : nat) : G pystr := call frames (fun _ => _indent).

(** [if not code.strip(): code = self._indent() + filler] *)
Definition or_pass (frames : nat) (code : pyobj) (filler : pystr) : G pyobj :=
  stripped <- strip_of U code ;;
  if bool_decide (stripped = []) then
    ind <- indent frames ;; ret (Some (ind ++ filler))
  else ret code.

Section Methods.
Variable _generate_node : nat → ASTNode → G pyobj.

(** [self._generate_node(child)] in a body that has [frames] frames left. *)
Definition emit (frames : nat) (child : ASTNode) : G pyobj :=
  call frames (fun n => _generate_node n child).

Definition deeper (frames : nat) (child : ASTNode) (filler : pystr)
    : G pyobj :=
  shift 1 ;;
  code <- emit frames child ;;
  shift (-1) ;;
  or_pass frames code filler.

Definition first_child (node : ASTNode) (frames : nat) : G pyobj :=
  match children node with
  | child :: _ => emit frames child
  | [] => ret (Some [])
  end.

Fixpoint generate_program_loop (frames : nat) (l : list ASTNode)
    (code : pystr) : G pystr :=
  match l with
  | [] => ret code
  | child :: rest =>
      child_code <- emit frames child ;;
      piece <- add_str child_code (nl ++ nl) ;;
      generate_program_loop frames rest (code ++ piece)
  end.

Definition _generate_program (node : ASTNode) (frames : nat) : G pyobj :=
  code <- generate_program_loop frames (children node) header ;;
  ret (Some (rstrip U code)).

Definition _generate_function_def (node : ASTNode) (frames : nat) : G pyobj :=
  let function_name := node_value node in
  match children node with
  | [] => index_error
  | params_node :: rest =>
      params_code <- emit frames params_node ;;
      match rest with
      | [] => index_error
      | body_node :: _ =>
          body_code <- deeper frames body_node (u "pass") ;;
          ret (Some (u "def " ++ fmt function_name ++ u "(" ++ fmt params_code
                     ++ u "):" ++ nl ++ fmt body_code))
      end
  end.

Fixpoint generate_block_loop (frames : nat) (l : list ASTNode)
    (code : pystr) : G pystr :=
  match l with
  | [] => ret code
  | child :: rest =>
      child_code <- emit frames child ;;
      match child_code with
      | Some (c :: cs) =>
          ind <- indent frames ;;
          generate_block_loop frames rest (code ++ (ind ++ (c :: cs) ++ nl))
      | _ => generate_block_loop frames rest code
      end
  end.

Definition _generate_block (node : ASTNode) (frames : nat) : G pyobj :=
  code <- generate_block_loop frames (children node) [] ;;
  ret (Some code).

Definition _generate_if_statement (node : ASTNode) (frames : nat) : G pyobj :=
  match children node with
  | [] => index_error
  | condition_node :: rest =>
      condition_code <- emit frames condition_node ;;
      match rest with
      | [] => index_error
      | then_node :: rest =>
          then_code <- deeper frames then_node (u "pass" ++ nl) ;;
          let code := u "if " ++ fmt condition_code ++ u ":" ++ nl
                      ++ fmt then_code in
          match rest with
          | else_node :: _ =>
              else_code <- deeper frames else_node (u "pass" ++ nl) ;;
              ret (Some (code ++ u "else:" ++ nl ++ fmt else_code))
          | [] => ret (Some code)
          end
      end
  end.

Definition _generate_for_loop (node : ASTNode) (frames : nat) : G pyobj :=
  match children node with
  | [] => index_error
  | var_node :: rest =>
      var_code <- emit frames var_node ;;
      match rest with
      | [] => index_error
      | iterable_node :: rest =>
          iterable_code <- emit frames iterable_node ;;
          match rest with
          | [] => index_error
          | body_node :: _ =>
              body_code <- deeper frames body_node (u "pass" ++ nl) ;;
              ret (Some (u "for " ++ fmt var_code ++ u " in "
                         ++ fmt iterable_code ++ u ":" ++ nl ++ fmt body_code))
          end
      end
  end.

Definition _generate_while_loop (node : ASTNode) (frames : nat) : G pyobj :=
  match children node with
  | [] => index_error
  | condition_node :: rest =>
      condition_code <- emit frames condition_node ;;
      match rest with
      | [] => index_error
      | body_node :: _ =>
          body_code <- deeper frames body_node (u "pass" ++ nl) ;;
          ret (Some (u "while " ++ fmt condition_code ++ u ":" ++ nl
                     ++ fmt body_code))
      end
  end.

Definition _generate_assignment (node : ASTNode) (frames : nat) : G pyobj :=
  match children node with
  | [] => index_error
  | var_node :: rest =>
      var_code <- emit frames var_node ;;
      match rest with
      | [] => index_error
      | expr_node :: _ =>
          expr_code <- emit frames expr_node ;;
          ret (Some (fmt var_code ++ u " = " ++ fmt expr_code))
      end
  end.

Definition _generate_function_call (node : ASTNode) (frames : nat)
    : G pyobj :=
  let function_name := node_value node in
  match children node with
  | [] => index_error
  | args_node :: _ =>
      args_code <- emit frames args_node ;;
      ret (Some (fmt function_name ++ u "(" ++ fmt args_code ++ u ")"))
  end.

Definition _generate_condition := first_child.
Definition _generate_then := first_child.
Definition _generate_else := first_child.
Definition _generate_iterable := first_child.
Definition _generate_body := first_child.

Fixpoint generate_arguments_loop (frames : nat) (l : list ASTNode)
    : G (list pyobj) :=
  match l with
  | [] => ret []
  | arg :: rest =>
      code <- emit frames arg ;;
      codes <- generate_arguments_loop frames rest ;;
      ret (code :: codes)
  end.

Definition _generate_arguments (node : ASTNode) (frames : nat) : G pyobj :=
  args <- generate_arguments_loop frames (children node) ;;
  comma_join args.

End Methods.

Fixpoint _generate_node (frames : nat) (node : ASTNode) {struct node}
    : G pyobj :=
  let ty := node_type node in
  if is_type "PROGRAM" ty then
    call frames (_generate_program _generate_node node)
  else if is_type "FUNCTION_DEF" ty then
    call frames (_generate_function_def _generate_node node)
  else if is_type "BLOCK" ty then
    call frames (_generate_block _generate_node node)
  else if is_type "IF_STATEMENT" ty then
    call frames (_generate_if_statement _generate_node node)
  else if is_type "FOR_LOOP" ty then
    call frames (_generate_for_loop _generate_node node)
  else if is_type "WHILE_LOOP" ty then
    call frames (_generate_while_loop _generate_node node)
  else if is_type "ASSIGNMENT" ty then
    call frames (_generate_assignment _generate_node node)
  else if is_type "FUNCTION_CALL" ty then
    call frames (_generate_function_call _generate_node node)
  else if is_type "VARIABLE" ty then
    call frames (fun _ => _generate_variable node)
  else if is_type "LITERAL" ty then
    call frames (fun _ => _generate_literal node)
  else if is_type "EXPRESSION" ty then
    call frames (fun _ => _generate_expression node)
  else if is_type "CONDITION" ty then
    call frames (_generate_condition _generate_node node)
  else if is_type "THEN" ty then
    call frames (_generate_then _generate_node node)
  else if is_type "ELSE" ty then
    call frames (_generate_else _generate_node node)
  else if is_type "PARAMETERS" ty then
    call frames (fun _ => _generate_parameters node)
  else if is_type "ARGUMENTS" ty then
    call frames (_generate_arguments _generate_node node)
  else if is_type "ITERABLE" ty then
    call frames (_generate_iterable _generate_node node)
  else if is_type "BODY" ty then
    call frames (_generate_body _generate_node node)
  else log frames ;; ret (Some []).

(** What [generate] runs inside its [try]. *)
Definition generating (frames : nat) (ast : ASTNode) : G pystr :=
  code <- call frames (fun n => _generate_node n ast) ;;
  call frames (fun _ => format_python_code U code).

Definition generate (frames : nat) (ast : ASTNode) (self : CodeGenerator)
    : option (pystr * CodeGenerator) :=
  match generating frames ast self with
  | Ok formatted_code self' => Some (formatted_code, self')
  | Raised e self' => Some (error_comment e, self')
  | OutOfFuel => None
  end.

End Generation.

End Limited.

(** Inputs on which the recursion limit is reached: the tokens of [n]
    nested [if 1 :], and the tree of [n + 1] nested calls [f(f(...f()...))]
    as the parser builds it. *)
Fixpoint nested_ifs (n : nat) : list Token :=
  match n with
  | 0 => [mkToken (u "EOF") [] (-1)]
  | S n =>
      mkToken (u "KEYWORD") (u "if") 0 :: mkToken (u "INTEGER") (u "1") 0
      :: mkToken (u "DELIMITER") (u ":") 0 :: nested_ifs n
  end.

Fixpoint nested_calls (n : nat) : ASTNode :=
  match n with
  | 0 => mkNode (u "FUNCTION_CALL") (Some (u "f")) [node0 "ARGUMENTS" []]
  | S n =>
      mkNode (u "FUNCTION_CALL") (Some (u "f"))
        [node0 "ARGUMENTS" [nested_calls n]]
  end.

(** The tree of [def f ( ) :] followed by the nested calls. *)
Definition calls_in_function (n : nat) : ASTNode :=
  node0 "PROGRAM"
    [mkNode (u "FUNCTION_DEF") (Some (u "f"))
       [node0 "PARAMETERS" []; node0 "BLOCK" [nested_calls n]]].

(** The number of levels of a tree. *)
Fixpoint height (node : ASTNode) : nat :=
  S (list_max (map height (children node))).

(* ================================================================== *)
(** * Facts about strings and the matcher *)
(* ================================================================== *)

Section MatcherFacts.

Lemma star_bounded c k : bounded k → bounded (star c k).
Proof.
  intros Hk s. induction s as [|x s IH]; intros n e; simpl.
  - apply Hk.
  - destruct (c x); [|apply (Hk (x :: s))].
    destruct (star c k s (S n)) as [e'|] eqn:E.
    + intros [= <-]. apply IH in E. lia.
    + apply (Hk (x :: s)).
Qed.

Lemma rmatch_bounded r : bounded (rmatch r).
Proof.
  induction r as [|[c q] r IH]; simpl.
  - intros s n e [= <-]. lia.
  - destruct q; intros s n e.
    + destruct s as [|x s]; [done|]. destruct (c x); [|done].
      intros H%IH. simpl. lia.
    + destruct s as [|x s]; [apply IH|].
      destruct (c x); [|apply (IH (x :: s))].
      destruct (rmatch r s (S n)) eqn:E.
      * intros [= <-]. apply IH in E. simpl. lia.
      * apply (IH (x :: s)).
    + by apply star_bounded.
    + destruct s as [|x s]; [done|]. destruct (c x); [|done].
      intros H%star_bounded; [simpl; lia | done].
Qed.

Lemma rmatch_head r s n e :
  consuming r → rmatch r s n = Some e →
  ∃ c q r' x s', r = (c, q) :: r' ∧ s = x :: s' ∧ c x = true ∧ n < e.
Proof.
  destruct r as [|[c q] r]; [done|]. destruct q; try done; intros _; simpl.
  - destruct s as [|x s]; [done|]. destruct (c x) eqn:Hc; [|done].
    intros H%rmatch_bounded. exists c, One, r, x, s. repeat split; [done|lia].
  - destruct s as [|x s]; [done|]. destruct (c x) eqn:Hc; [|done].
    intros H%star_bounded; [|apply rmatch_bounded].
    exists c, Plus, r, x, s. repeat split; [done|lia].
Qed.

Lemma re_match_progress r text position e :
  consuming r → re_match r text position = Some e → position < e.
Proof.
  unfold re_match. intros Hr H.
  destruct (rmatch_head _ _ _ _ Hr H) as (?&?&?&?&?&?&?&?&?). done.
Qed.

End MatcherFacts.

(* ================================================================== *)
(** * The lexer *)
(* ================================================================== *)

Section LexerFacts.
Context (U : Unicode) (L : LexicalAnalyzer).

Lemma patterns_consuming q : q ∈ patterns U L → consuming q.1.
Proof.
  unfold patterns. rewrite !elem_of_cons, elem_of_nil.
  intros H. repeat (destruct H as [->|H]; [exact I|]). done.
Qed.

(** The [for] loop over the patterns stops at the first that matches. *)
Lemma try_patterns_some pats text position tokens tokens' e :
  try_patterns pats text position tokens = Some (tokens', e) →
  ∃ i re f, first_match pats text position i (re, f) e ∧
    tokens' = tokens ++
      match f with
      | Some f => [f (group text position e) position]
      | None => []
      end.
Proof.
  induction pats as [|[re f] pats IH]; simpl; [done|].
  destruct (re_match re text position) as [e'|] eqn:E.
  - intros [= <- <-]. exists 0, re, f. split.
    + split; [done|]. split; [done|]. intros j q Hj. lia.
    + destruct f; [done|]. by rewrite app_nil_r.
  - intros (i & re' & f' & (Hi & Hm & Hfirst) & ->)%IH.
    exists (S i), re', f'. split; [|done].
    split; [done|]. split; [done|].
    intros [|j] q Hj; simpl.
    + by intros [= <-].
    + apply Hfirst. lia.
Qed.

Lemma try_patterns_none pats text position tokens :
  try_patterns pats text position tokens = None →
  no_match pats text position.
Proof.
  induction pats as [|[re f] pats IH]; simpl.
  - intros _ q Hq. by apply elem_of_nil in Hq.
  - destruct (re_match re text position) eqn:E; [done|].
    intros H q [->|Hq]%elem_of_cons; [done|]. by apply IH.
Qed.

(** With fuel beyond the characters left, the [while] loop ends, and
    what it appends is what [scan] describes. *)
Lemma tokenize_loop_scan fuel text position tokens :
  length text - position < fuel →
  ∃ toks final,
    tokenize_loop U L fuel text position tokens = Some (tokens ++ toks, final)
    ∧ scan U L text position toks final.
Proof.
  revert position tokens.
  induction fuel as [|fuel IH]; intros position tokens Hfuel; [lia|].
  cbn [tokenize_loop]. case_decide as Hpos.
  - destruct (try_patterns (patterns U L) text position tokens)
      as [[tokens' e]|] eqn:E.
    + destruct (try_patterns_some _ _ _ _ _ _ E)
        as (i & re & f & Hfirst & ->).
      assert (position < e) as Hlt.
      { destruct Hfirst as (Hi & Hm & _).
        eapply re_match_progress; [|exact Hm].
        apply (patterns_consuming (re, f)).
        by eapply list_elem_of_lookup_2. }
      destruct (IH e (tokens ++ match f with
                                | Some f => [f (group text position e) position]
                                | None => []
                                end)) as (toks & final & Hloop & Hscan); [lia|].
      rewrite Hloop. destruct f as [f|].
      * exists (f (group text position e) position :: toks), final.
        split; [by rewrite <- app_assoc|]. by eapply scan_emit.
      * exists toks, final. split; [by rewrite app_nil_r|].
        by eapply scan_ignore.
    + apply try_patterns_none in E.
      destruct (IH (position + 1) tokens) as (toks & final & Hloop & Hscan);
        [lia|].
      exists toks, final. split; [done|]. by apply scan_skip.
  - exists [], position. split; [by rewrite app_nil_r|].
    apply scan_end. lia.
Qed.

Lemma tokenize_scan text :
  ∃ toks final,
    tokenize U L text = Some (toks ++ [mkToken (u "EOF") [] (Z.of_nat final)])
    ∧ scan U L (normalize_text U text) 0 toks final.
Proof.
  unfold tokenize.
  destruct (tokenize_loop_scan (S (length (normalize_text U text)))
              (normalize_text U text) 0 []) as (toks & final & -> & Hscan);
    [lia|].
  by exists toks, final.
Qed.

(** The scan is a function of the text: the first matching pattern and
    the end of its match are unique. *)
Lemma first_match_unique pats text position i j p q e e' :
  first_match pats text position i p e →
  first_match pats text position j q e' →
  p = q ∧ e = e'.
Proof.
  intros (Hi & Hm & Hfirst) (Hj & Hm' & Hfirst').
  destruct (Nat.lt_trichotomy i j) as [Hlt|[->|Hlt]].
  - rewrite (Hfirst' i p Hlt Hi) in Hm. discriminate Hm.
  - rewrite Hi in Hj. injection Hj as <-. rewrite Hm in Hm'.
    by injection Hm' as <-.
  - rewrite (Hfirst j q Hlt Hj) in Hm'. discriminate Hm'.
Qed.

Lemma first_match_not_no_match pats text position i p e :
  first_match pats text position i p e → ¬ no_match pats text position.
Proof.
  intros (Hi & Hm & _) Hno.
  rewrite (Hno p) in Hm; [discriminate Hm|]. by eapply list_elem_of_lookup_2.
Qed.

Lemma scan_deterministic text position toks final :
  scan U L text position toks final →
  ∀ toks' final', scan U L text position toks' final' →
    toks' = toks ∧ final' = final.
Proof.
  induction 1 as [position Hend
                 |position i re f e toks final Hpos Hfirst _ IH
                 |position i re e toks final Hpos Hfirst _ IH
                 |position toks final Hpos Hno _ IH];
    intros toks' final' Hscan; inversion Hscan; subst; try lia.
  - done.
  - match goal with H : first_match _ _ _ _ _ _ |- _ =>
      destruct (first_match_unique _ _ _ _ _ _ _ _ _ Hfirst H) as [[= <- <-] <-] end.
    match goal with H : scan _ _ _ _ _ _ |- _ =>
      destruct (IH _ _ H) as [-> ->] end. done.
  - match goal with H : first_match _ _ _ _ _ _ |- _ =>
      destruct (first_match_unique _ _ _ _ _ _ _ _ _ Hfirst H) as [[=] _] end.
  - by apply first_match_not_no_match in Hfirst.
  - match goal with H : first_match _ _ _ _ _ _ |- _ =>
      destruct (first_match_unique _ _ _ _ _ _ _ _ _ Hfirst H) as [[=] _] end.
  - match goal with H : first_match _ _ _ _ _ _ |- _ =>
      destruct (first_match_unique _ _ _ _ _ _ _ _ _ Hfirst H) as [[= <-] <-] end.
    match goal with H : scan _ _ _ _ _ _ |- _ => by apply IH end.
  - by apply first_match_not_no_match in Hfirst.
  - match goal with H : first_match _ _ _ _ _ _ |- _ =>
      by apply first_match_not_no_match in H end.
  - match goal with H : first_match _ _ _ _ _ _ |- _ =>
      by apply first_match_not_no_match in H end.
  - match goal with H : scan _ _ _ _ _ _ |- _ => by apply IH end.
Qed.

(** ** C1 *)

(** C1. For every text, [tokenize] returns (it never fails), and its
    tokens before the final EOF are those of the scan in which, at every
    position, the first pattern of the declared order (word, FLOAT,
    INTEGER, OPERATOR, DELIMITER, the two STRING patterns, white space)
    that matches wins and the scan moves to the end of the match, white
    space emits nothing, and a position where nothing matches is skipped
    by exactly one character; that scan has one outcome only. *)
Theorem C1_tokenize_first_match (text : pystr) :
  (∃ toks final,
      tokenize U L text = Some (toks ++ [mkToken (u "EOF") [] (Z.of_nat final)])
      ∧ scan U L (normalize_text U text) 0 toks final
      ∧ ∀ toks' final',
          scan U L (normalize_text U text) 0 toks' final' →
          toks' = toks ∧ final' = final)
  ∧ patterns U L !! 0 = Some (re_word, Some (_identify_word U L))
  ∧ ∀ m p, declared_types U L m p =
      [Some (u "FLOAT"); Some (u "INTEGER"); Some (u "OPERATOR");
       Some (u "DELIMITER"); Some (u "STRING"); Some (u "STRING"); None].
Proof.
  split; [|split; done].
  destruct (tokenize_scan text) as (toks & final & Htok & Hscan).
  exists toks, final. split; [done|]. split; [done|].
  by apply scan_deterministic.
Qed.

End LexerFacts.

Section LexerTokens.
Context (U : Unicode) (L : LexicalAnalyzer).

Lemma scan_emitted text position toks final :
  scan U L text position toks final → Forall (emitted U L text) toks.
Proof.
  induction 1 as [| position i re f e toks final Hpos (Hi & Hm & _) _ IH
                  | | ]; [done| |done|done].
  constructor; [|done].
  exists re, f, position, e. split; [|done].
  by eapply list_elem_of_lookup_2.
Qed.

Lemma special_category_some special word ty :
  special_category special word = Some ty →
  ∃ words, (ty, words) ∈ special ∧ word ∈ words.
Proof.
  induction special as [|[ty' words] special IH]; simpl; [done|].
  case_decide as Hw.
  - intros [= <-]. exists words. split; [left|done].
  - intros (ws & Hin & Hword)%IH. exists ws. split; [by right|done].
Qed.

(** The type that [_identify_word] gives a word. *)
Lemma identify_word_type m p :
  type (_identify_word U L m p) = u "KEYWORD" ∨
  type (_identify_word U L m p) = u "IDENTIFIER" ∨
  special_category (special_tokens L) (lower U m)
    = Some (type (_identify_word U L m p)) ∧
  value (_identify_word U L m p) = lower U m.
Proof.
  unfold _identify_word. case_decide; [by left|].
  destruct (keyword_mapping L !! lower U m); [by left|].
  destruct (special_category (special_tokens L) (lower U m)) eqn:E.
  - right; right. done.
  - right; left. done.
Qed.

Lemma emitted_type text t :
  emitted U L text t →
  type t ∈ [u "KEYWORD"; u "IDENTIFIER"; u "FLOAT"; u "INTEGER"; u "OPERATOR";
            u "DELIMITER"; u "STRING"] ∨
  type t ∈ (special_tokens L).*1.
Proof.
  intros (re & f & position & e & Hin & _ & ->).
  unfold patterns in Hin. rewrite !elem_of_cons, elem_of_nil in Hin.
  destruct Hin as [[= -> ->]|Hin].
  { destruct (identify_word_type (group text position e) position)
      as [->|[->|[Hs _]]]; [left; set_solver | left; set_solver |].
    right. apply special_category_some in Hs as (ws & Hin & _).
    apply list_elem_of_fmap. by exists (type (_identify_word U L (group text position e) position), ws). }
  left. repeat (destruct Hin as [[= -> ->]|Hin]; [simpl; set_solver|]).
  destruct Hin as [[=]|[]].
Qed.

(** The last token is the EOF token, and no token before it has type EOF,
    whenever no category of the special tokens is called EOF. *)
Lemma tokenize_single_final_EOF (text : pystr) :
  u "EOF" ∉ (special_tokens L).*1 →
  ∃ toks final,
    tokenize U L text = Some (toks ++ [mkToken (u "EOF") [] final])
    ∧ Forall (fun t => type t ≠ u "EOF") toks.
Proof.
  intros Hspecial.
  destruct (tokenize_scan U L text) as (toks & final & Htok & Hscan).
  exists toks, (Z.of_nat final). split; [done|].
  apply scan_emitted in Hscan.
  eapply Forall_impl; [exact Hscan|].
  intros t [Ht|Ht]%emitted_type Heq; rewrite Heq in Ht.
  - rewrite !elem_of_cons, elem_of_nil in Ht.
    repeat (destruct Ht as [Ht|Ht]; [discriminate Ht|]). done.
  - done.
Qed.

End LexerTokens.

(** ** C7 *)

Lemma default_special_no_EOF : u "EOF" ∉ (special_tokens default_lexer).*1.
Proof.
  apply (bool_decide_unpack (u "EOF" ∉ (special_tokens default_lexer).*1)).
  by vm_compute.
Qed.

(** C7. For every input string, the list that [tokenize] returns ends
    with the token of type EOF and empty value, which is its last element,
    and no token before it has type EOF. *)
Theorem C7_tokenize_single_final_EOF (U : Unicode) (text : pystr) :
  ∃ toks final,
    tokenize U default_lexer text = Some (toks ++ [mkToken (u "EOF") [] final])
    ∧ last (toks ++ [mkToken (u "EOF") [] final])
      = Some (mkToken (u "EOF") [] final)
    ∧ Forall (fun t => type t ≠ u "EOF") toks.
Proof.
  destruct (tokenize_single_final_EOF U default_lexer text
              default_special_no_EOF) as (toks & final & Htok & Hall).
  exists toks, final. split; [done|]. split; [apply last_snoc | done].
Qed.

(** ** C8 *)

Lemma KEYWORD_MAPPING_values_unmapped k v :
  KEYWORD_MAPPING !! k = Some v → KEYWORD_MAPPING !! v = None.
Proof.
  unfold KEYWORD_MAPPING. intros H%elem_of_list_to_map_2.
  unfold KEYWORD_MAPPING_items in H at 1.
  rewrite !elem_of_cons, elem_of_nil in H.
  repeat (destruct H as [[= -> ->]|H]; [by vm_compute|]). destruct H.
Qed.

(** C8. Under the default keyword mapping, [map_to_python_tokens] is
    idempotent: mapping a token list twice gives the same tokens (type,
    value and position) as mapping it once. *)
Theorem C8_map_to_python_tokens_idempotent (T : list Token) :
  map_to_python_tokens default_lexer (map_to_python_tokens default_lexer T)
  = map_to_python_tokens default_lexer T.
Proof.
  unfold map_to_python_tokens. rewrite map_map. apply map_ext.
  intros [ty v p]. cbn [type value position].
  change (keyword_mapping default_lexer) with KEYWORD_MAPPING.
  destruct (decide (ty = u "KEYWORD")) as [Hty|Hty].
  - destruct (KEYWORD_MAPPING !! v) as [w|] eqn:E; cbn [type value position].
    + rewrite decide_True by done.
      by rewrite (KEYWORD_MAPPING_values_unmapped _ _ E).
    + rewrite decide_True by done. by rewrite E.
  - cbn [type]. by rewrite decide_False.
Qed.

(* ================================================================== *)
(** * What survives [normalize_text] *)
(* ================================================================== *)

Section Normalized.
Context (U : Unicode).

Lemma collapse_from_chars in_run s c :
  c ∈ collapse_from U in_run s → c ∈ s ∨ c = 32%N.
Proof.
  revert in_run. induction s as [|x s IH]; intros in_run; simpl.
  - by left.
  - destruct (isspace U x).
    + destruct in_run.
      * intros [H| ->]%IH; [left; by right | by right].
      * intros [->|[H| ->]%IH]%elem_of_cons; [by right | left; by right | by right].
    + intros [->|[H| ->]%IH]%elem_of_cons; [left; by left | left; by right | by right].
Qed.

Lemma lstrip_subseteq s : lstrip U s ⊆ s.
Proof.
  induction s as [|x s IH]; simpl; [done|].
  destruct (isspace U x); [|done].
  intros c Hc. right. by apply IH.
Qed.

Lemma strip_subseteq s : strip U s ⊆ s.
Proof.
  unfold strip, rstrip. intros c Hc.
  rewrite elem_of_reverse in Hc. apply (lstrip_subseteq _ c) in Hc.
  rewrite elem_of_reverse in Hc. exact (lstrip_subseteq _ _ Hc).
Qed.

Lemma normalize_text_chars text c :
  c ∈ normalize_text U text → kept U c = true ∨ c = 32%N.
Proof.
  unfold normalize_text, collapse_spaces.
  intros [Hc| ->]%strip_subseteq%collapse_from_chars; [left|by right].
  apply list_elem_of_In, filter_In in Hc. tauto.
Qed.

Lemma forbidden_codes :
  forbidden = [61; 43; 45; 42; 47; 60; 62; 40; 41; 91; 93; 123; 125; 34; 39]%N.
Proof. reflexivity. Qed.

Lemma forbidden_not_kept c :
  punctuation_unclassified U → c ∈ forbidden → kept U c = false ∧ c ≠ 32%N.
Proof.
  intros HU Hc. destruct (HU c Hc) as [Ha Hs].
  unfold kept, isword. rewrite Ha, Hs.
  rewrite forbidden_codes in Hc.
  rewrite !elem_of_cons, elem_of_nil in Hc.
  repeat (destruct Hc as [->|Hc]; [by vm_compute|]). destruct Hc.
Qed.

Lemma forbidden_not_normalized text c :
  punctuation_unclassified U → c ∈ forbidden → c ∉ normalize_text U text.
Proof.
  intros HU Hc Hin.
  destruct (forbidden_not_kept c HU Hc) as [Hk Hne].
  apply normalize_text_chars in Hin as [Hin|Hin]; congruence.
Qed.

End Normalized.

(* ================================================================== *)
(** * The tokens of a normalized text *)
(* ================================================================== *)

(** Two string literals that differ. *)
Ltac differ :=
  let H := fresh in
  intros H; vm_compute in H; discriminate H.

(** A closed decidable fact. *)
Ltac decided P := apply (bool_decide_unpack P); vm_compute; exact I.

Section CleanTokens.
Context (U : Unicode).
Context (text : pystr).
Hypothesis Hclean : ∀ c, c ∈ forbidden → c ∉ text.

Lemma drop_head_in position (x : char) s :
  drop position text = x :: s → x ∈ text.
Proof.
  intros H. apply (subseteq_drop position text). rewrite H. by left.
Qed.

Lemma drop_second_in position (x y : char) s :
  drop position text = x :: y :: s → y ∈ text.
Proof.
  intros H. apply (subseteq_drop position text). rewrite H. right. by left.
Qed.

Lemma no_string_double position :
  re_match re_string_double text position = None.
Proof.
  unfold re_match, re_string_double.
  destruct (drop position text) as [|x s] eqn:Hd; cbn [rmatch]; [done|].
  destruct (only dquote x) eqn:Hx; [|done].
  apply N.eqb_eq in Hx as ->. apply drop_head_in in Hd.
  destruct (Hclean dquote); [decided (dquote ∈ forbidden) | done].
Qed.

Lemma no_string_single position :
  re_match re_string_single text position = None.
Proof.
  unfold re_match, re_string_single.
  destruct (drop position text) as [|x s] eqn:Hd; cbn [rmatch]; [done|].
  destruct (only squote x) eqn:Hx; [|done].
  apply N.eqb_eq in Hx as ->. apply drop_head_in in Hd.
  destruct (Hclean squote); [decided (squote ∈ forbidden) | done].
Qed.

Lemma operator_group position e :
  re_match re_operator text position = Some e →
  group text position e = u "!".
Proof.
  unfold re_match, re_operator, group.
  destruct (drop position text) as [|x s] eqn:Hd; cbn [rmatch]; [done|].
  destruct (char_in "+-*/=<>!" x) eqn:Hx; [|done].
  assert (x = 33%N) as ->.
  { apply drop_head_in in Hd. unfold char_in in Hx.
    apply bool_decide_eq_true in Hx.
    change (u "+-*/=<>!") with [43; 45; 42; 47; 61; 60; 62; 33]%N in Hx.
    rewrite !elem_of_cons, elem_of_nil in Hx.
    destruct Hx as [->|[->|[->|[->|[->|[->|[->|[->|[]]]]]]]]]; [..|done].
    - destruct (Hclean 43%N); [decided (43%N ∈ forbidden) | done].
    - destruct (Hclean 45%N); [decided (45%N ∈ forbidden) | done].
    - destruct (Hclean 42%N); [decided (42%N ∈ forbidden) | done].
    - destruct (Hclean 47%N); [decided (47%N ∈ forbidden) | done].
    - destruct (Hclean 61%N); [decided (61%N ∈ forbidden) | done].
    - destruct (Hclean 60%N); [decided (60%N ∈ forbidden) | done].
    - destruct (Hclean 62%N); [decided (62%N ∈ forbidden) | done]. }
  destruct s as [|y s].
  - intros [= <-]. by replace (S position - position) with 1 by lia.
  - destruct (only 61%N y) eqn:Hy.
    + apply N.eqb_eq in Hy as ->. apply drop_second_in in Hd.
      destruct (Hclean 61%N); [decided (61%N ∈ forbidden) | done].
    + intros [= <-]. by replace (S position - position) with 1 by lia.
Qed.

Lemma delimiter_group position e :
  re_match re_delimiter text position = Some e →
  group text position e ∈ [u ","; u ";"; u ":"].
Proof.
  unfold re_match, re_delimiter, group.
  destruct (drop position text) as [|x s] eqn:Hd; cbn [rmatch]; [done|].
  destruct (char_in "()[]{},;:" x) eqn:Hx; [|done].
  intros [= <-]. replace (S position - position) with 1 by lia.
  cbn [take]. rewrite take_0.
  apply drop_head_in in Hd. unfold char_in in Hx.
  apply bool_decide_eq_true in Hx.
  change (u "()[]{},;:") with [40; 41; 91; 93; 123; 125; 44; 59; 58]%N in Hx.
  rewrite !elem_of_cons, elem_of_nil in Hx.
  destruct Hx as [->|[->|[->|[->|[->|[->|[->|[->|[->|[]]]]]]]]]].
  - destruct (Hclean 40%N); [decided (40%N ∈ forbidden) | done].
  - destruct (Hclean 41%N); [decided (41%N ∈ forbidden) | done].
  - destruct (Hclean 91%N); [decided (91%N ∈ forbidden) | done].
  - destruct (Hclean 93%N); [decided (93%N ∈ forbidden) | done].
  - destruct (Hclean 123%N); [decided (123%N ∈ forbidden) | done].
  - destruct (Hclean 125%N); [decided (125%N ∈ forbidden) | done].
  - decided ([44%N] ∈ [u ","; u ";"; u ":"]).
  - decided ([59%N] ∈ [u ","; u ";"; u ":"]).
  - decided ([58%N] ∈ [u ","; u ";"; u ":"]).
Qed.

(** A word of the default configuration: its category is never STRING or
    DELIMITER, and when it is OPERATOR the word is one of
    [operator_words]. *)
Lemma identify_word_lexed m p : lexed (_identify_word U default_lexer m p).
Proof.
  destruct (identify_word_type U default_lexer m p) as [H|[H|[H Hv]]].
  - unfold lexed. rewrite H. split; [differ|]. split; differ.
  - unfold lexed. rewrite H. split; [differ|]. split; differ.
  - apply special_category_some in H as (ws & Hin & Hw).
    change (special_tokens default_lexer) with SPECIAL_TOKENS in Hin.
    unfold SPECIAL_TOKENS in Hin.
    rewrite !elem_of_cons, elem_of_nil in Hin.
    unfold lexed. rewrite Hv.
    destruct Hin as [Hin|[Hin|[Hin|[Hin|[Hin|[Hin|[]]]]]]];
      injection Hin as -> ->;
      (split; [differ|]); (split; [|differ]); try differ.
    intros _. right. exact Hw.
Qed.

Lemma emitted_lexed t : emitted U default_lexer text t → lexed t.
Proof.
  intros (re & f & position & e & Hin & Hm & ->).
  unfold patterns in Hin. rewrite !elem_of_cons, elem_of_nil in Hin.
  destruct Hin as [Hin|[Hin|[Hin|[Hin|[Hin|[Hin|[Hin|[Hin|[]]]]]]]]];
    try discriminate Hin; injection Hin as -> ->.
  - apply identify_word_lexed.
  - unfold lexed, plain; cbn [type value]. split; [differ|]. split; differ.
  - unfold lexed, plain; cbn [type value]. split; [differ|]. split; differ.
  - unfold lexed, plain; cbn [type value]. split; [differ|]. split; [|differ].
    intros _. left. by apply operator_group.
  - unfold lexed, plain; cbn [type value]. split; [differ|]. split; [differ|].
    intros _. by apply delimiter_group.
  - by rewrite no_string_double in Hm.
  - by rewrite no_string_single in Hm.
Qed.

End CleanTokens.

Lemma EOF_lexed position : lexed (mkToken (u "EOF") [] position).
Proof. unfold lexed; cbn [type value]. split; [differ|]. split; differ. Qed.

Lemma tokenize_lexed U text toks :
  punctuation_unclassified U →
  tokenize U default_lexer text = Some toks → Forall lexed toks.
Proof.
  intros HU Htok.
  destruct (tokenize_scan U default_lexer text) as (ts & final & Heq & Hscan).
  rewrite Heq in Htok. injection Htok as <-.
  apply Forall_app. split.
  - apply scan_emitted in Hscan. eapply Forall_impl; [exact Hscan|].
    intros t. apply emitted_lexed. intros c. by apply forbidden_not_normalized.
  - constructor; [apply EOF_lexed | constructor].
Qed.

Lemma token_at_lexed toks i j :
  Forall lexed toks → lexed (Parser.token_at (mkParser toks i) j).
Proof.
  intros Hall. unfold Parser.token_at; cbn [tokens].
  destruct (toks !! j) as [t|] eqn:E.
  - eapply Forall_forall; [exact Hall|]. by eapply list_elem_of_lookup_2.
  - apply EOF_lexed.
Qed.

Lemma operator_values_clean :
  Forall (fun v : pystr => Forall (fun c => c ∉ v) (u "=+-*/<>") ∧ v ≠ u "=")
         (u "!" :: operator_words).
Proof.
  decided (Forall (fun v : pystr => Forall (fun c => c ∉ v) (u "=+-*/<>") ∧ v ≠ u "=")
             (u "!" :: operator_words)).
Qed.

Lemma delimiter_values_clean :
  Forall (fun v : pystr => v ∉ [u "("; u ")"; u "["; u "]"; u "{"; u "}"])
         [u ","; u ";"; u ":"].
Proof.
  decided (Forall (fun v : pystr => v ∉ [u "("; u ")"; u "["; u "]"; u "{"; u "}"])
             [u ","; u ";"; u ":"]).
Qed.

Lemma lexed_operator t :
  lexed t → type t = u "OPERATOR" →
  (∀ c, c ∈ u "=+-*/<>" → c ∉ value t) ∧ value t ≠ u "=".
Proof.
  intros (_ & Hop & _) Hty. specialize (Hop Hty).
  assert (value t ∈ u "!" :: operator_words) as Hin.
  { destruct Hop as [->|H]; [by left | by right]. }
  destruct (proj1 (Forall_forall _ _) operator_values_clean _ Hin) as [Hc Hne].
  split; [|done]. intros c Hcin. by eapply Forall_forall in Hc.
Qed.

Lemma lexed_delimiter t :
  lexed t → type t = u "DELIMITER" →
  value t ∉ [u "("; u ")"; u "["; u "]"; u "{"; u "}"].
Proof.
  intros (_ & _ & Hd) Hty. specialize (Hd Hty).
  by apply (proj1 (Forall_forall _ _) delimiter_values_clean).
Qed.

(** ** C9 *)

(** C9. When the Unicode database classifies none of the characters
    [= + - * / < > ( ) [ ] { }] and the two quotes as a word character or
    white space, the tokens that [tokenize] returns for any input contain
    no STRING token, no OPERATOR token whose value has one of
    [= + - * / < >] in it (an OPERATOR token is [!] or one of the operator
    words of the special tokens), and no DELIMITER token that is a bracket;
    hence, at any cursor into these tokens, the parser's test for an
    assignment and its test for an opening parenthesis are false. *)
Theorem C9_normalized_tokens (U : Unicode) (text : pystr) (toks : list Token) :
  punctuation_unclassified U →
  tokenize U default_lexer text = Some toks →
  (∀ t, t ∈ toks →
     type t ≠ u "STRING"
     ∧ (type t = u "OPERATOR" →
          (∀ c, c ∈ u "=+-*/<>" → c ∉ value t)
          ∧ (value t = u "!" ∨ value t ∈ operator_words))
     ∧ (type t = u "DELIMITER" →
          value t ∉ [u "("; u ")"; u "["; u "]"; u "{"; u "}"]))
  ∧ (∀ i,
       Parser.assignment_ahead (Parser.token_at (mkParser toks i) i)
         (Parser.token_at (mkParser toks i) (i + 1)) = false
       ∧ is_delimiter "(" (Parser.token_at (mkParser toks i) i) = false).
Proof.
  intros HU Htok. pose proof (tokenize_lexed U text toks HU Htok) as Hall.
  split.
  - intros t Ht. pose proof (proj1 (Forall_forall _ _) Hall t Ht) as Hl.
    split; [apply Hl|]. split.
    + intros Hty. split; [by apply lexed_operator | by apply Hl].
    + by apply lexed_delimiter.
  - intros i. split.
    + apply not_true_is_false. unfold Parser.assignment_ahead.
      rewrite !andb_true_iff, !bool_decide_eq_true. intros [[_ Hty] Hv].
      pose proof (token_at_lexed toks i (i + 1) Hall) as Hl.
      by destruct (lexed_operator _ Hl Hty).
    + apply not_true_is_false. unfold is_delimiter.
      rewrite andb_true_iff, !bool_decide_eq_true. intros [Hty Hv].
      pose proof (token_at_lexed toks i i Hall) as Hl.
      apply (lexed_delimiter _ Hl Hty). rewrite Hv. by left.
Qed.

Lemma ascii_punctuation_unclassified : punctuation_unclassified ascii_unicode.
Proof.
  intros c Hc. rewrite forbidden_codes in Hc.
  rewrite !elem_of_cons, elem_of_nil in Hc.
  repeat (destruct Hc as [->|Hc]; [by vm_compute|]). destruct Hc.
Qed.

Lemma C9_witness :
  punctuation_unclassified ascii_unicode
  ∧ tokenize ascii_unicode default_lexer (u "x = (1)") =
      Some [mkToken (u "IDENTIFIER") (u "x") 0; mkToken (u "INTEGER") (u "1") 2;
            mkToken (u "EOF") [] 3]
  ∧ ∀ i,
      Parser.assignment_ahead
        (Parser.token_at (mkParser [mkToken (u "IDENTIFIER") (u "x") 0;
                                    mkToken (u "INTEGER") (u "1") 2;
                                    mkToken (u "EOF") [] 3] i) i)
        (Parser.token_at (mkParser [mkToken (u "IDENTIFIER") (u "x") 0;
                                    mkToken (u "INTEGER") (u "1") 2;
                                    mkToken (u "EOF") [] 3] i) (i + 1)) = false
      ∧ is_delimiter "("
          (Parser.token_at (mkParser [mkToken (u "IDENTIFIER") (u "x") 0;
                                      mkToken (u "INTEGER") (u "1") 2;
                                      mkToken (u "EOF") [] 3] i) i) = false.
Proof.
  split; [exact ascii_punctuation_unclassified|].
  split; [vm_compute; reflexivity|].
  apply (C9_normalized_tokens ascii_unicode (u "x = (1)")).
  - exact ascii_punctuation_unclassified.
  - vm_compute; reflexivity.
Defined.

(* ================================================================== *)
(** * Rules for stateful code *)
(* ================================================================== *)

Section WpRules.
Context {S A B : Type}.
Implicit Types (s : S) (R : exn → S → Prop) (F : Prop).

Lemma wp_ret (a : A) s (Q : A → S → Prop) R F : Q a s → wp (ret a) s Q R F.
Proof. done. Qed.

Lemma wp_raise e s (Q : A → S → Prop) R F : R e s → wp (raise e) s Q R F.
Proof. done. Qed.

Lemma wp_bind (m : M S A) (f : A → M S B) s (Q : B → S → Prop) R F :
  wp m s (fun a s' => wp (f a) s' Q R F) R F → wp (bind m f) s Q R F.
Proof. unfold wp, bind. cbv beta. by destruct (m s). Qed.

Lemma wp_mono (m : M S A) s (Q Q' : A → S → Prop) R R' F F' :
  wp m s Q R F →
  (∀ a s', Q a s' → Q' a s') → (∀ e s', R e s' → R' e s') → (F → F') →
  wp m s Q' R' F'.
Proof. unfold wp. destruct (m s); auto. Qed.

Lemma wp_ok (m : M S A) s a s' (Q : A → S → Prop) R F :
  wp m s Q R F → m s = Ok a s' → Q a s'.
Proof. unfold wp. intros H E. by rewrite E in H. Qed.

End WpRules.

Section ParserRules.
Context {B : Type}.
Implicit Types (s : SyntaxAnalyzer) (Q : B → SyntaxAnalyzer → Prop).

Lemma wp_current_token (f : Token → Parser.P B) s Q R F :
  wp (f (current s)) s Q R F → wp (bind Parser.current_token f) s Q R F.
Proof. done. Qed.

Lemma wp_peek_next_token (f : Token → Parser.P B) s Q R F :
  wp (f (Parser.token_at s (current_token_index s + 1))) s Q R F →
  wp (bind Parser.peek_next_token f) s Q R F.
Proof. done. Qed.

Lemma wp_consume (f : Token → Parser.P B) s Q R F :
  wp (f (current s)) (next s) Q R F → wp (bind Parser.consume f) s Q R F.
Proof. done. Qed.

Lemma wp_expect T (f : Token → Parser.P B) s Q R F :
  (type (current s) ≠ u T →
   R (SyntaxError (Parser.expect_message (u T) (type (current s)))) s) →
  (type (current s) = u T → wp (f (current s)) (next s) Q R F) →
  wp (bind (Parser.expect T) f) s Q R F.
Proof.
  intros Hr Hq. unfold wp, Parser.expect, Parser.current_token, bind at 1 2.
  cbv beta iota. fold (current s).
  destruct (decide (type (current s) ≠ u T)) as [H|H]; [by apply Hr|].
  apply dec_stable in H. by apply Hq.
Qed.

Lemma wp_when_consume (c : bool) (f : unit → Parser.P B) s Q R F :
  wp (f tt) (if c then next s else s) Q R F →
  wp (bind (when c (bind Parser.consume (fun _ => ret tt))) f) s Q R F.
Proof. by destruct c. Qed.

End ParserRules.

(* ================================================================== *)
(** * The parser *)
(* ================================================================== *)

Lemma real_token s i : type (Parser.token_at s i) ≠ u "EOF" → i < length (tokens s).
Proof.
  unfold Parser.token_at. destruct (tokens s !! i) eqn:E.
  - intros _. by eapply lookup_lt_Some.
  - intros H. by destruct H.
Qed.

Lemma real_current s : type (current s) ≠ u "EOF" → 0 < remaining s.
Proof. intros H%real_token. unfold remaining. lia. Qed.

Lemma remaining_next s : remaining (next s) = remaining s - 1.
Proof. unfold remaining, next; cbn. lia. Qed.

Lemma advanced_next s : advanced s (next s).
Proof. unfold advanced, next; cbn. split; [done|lia]. Qed.

Lemma advanced_trans s1 s2 s3 : advanced s1 s2 → advanced s2 s3 → advanced s1 s3.
Proof. unfold advanced. intros [-> ?] [-> ?]. split; [done|lia]. Qed.

Lemma advanced_remaining s s' : advanced s s' → remaining s' ≤ remaining s - 1.
Proof. unfold advanced, remaining. intros [-> ?]. lia. Qed.

Lemma hard_failure_trans s1 s2 e s3 :
  tokens s2 = tokens s1 → hard_failure s2 e s3 → hard_failure s1 e s3.
Proof. unfold hard_failure. intros <- [-> ?]. done. Qed.

Lemma blocks_ok_leaf T v : blocks_ok (leaf T v) = true.
Proof. unfold leaf, blocks_ok; cbn. by destruct (bool_decide _). Qed.

Lemma blocks_ok_node (T : string) v kids :
  u T ≠ u "BLOCK" →
  blocks_ok (mkNode (u T) v kids) = forallb blocks_ok kids.
Proof.
  intros H. cbn [blocks_ok node_type children].
  by rewrite bool_decide_eq_false_2.
Qed.

Lemma is_delimiter_true d t :
  is_delimiter d t = true → type t = u "DELIMITER" ∧ value t = u d.
Proof.
  unfold is_delimiter. rewrite andb_true_iff, !bool_decide_eq_true. done.
Qed.

Lemma is_keyword_true k t :
  is_keyword k t = true → type t = u "KEYWORD" ∧ value t = u k.
Proof.
  unfold is_keyword. rewrite andb_true_iff, !bool_decide_eq_true. done.
Qed.

Lemma is_delimiter_real d s :
  is_delimiter d (current s) = true → 0 < remaining s.
Proof.
  intros [H _]%is_delimiter_true. apply real_current. rewrite H. differ.
Qed.

Lemma is_keyword_real k s :
  is_keyword k (current s) = true → 0 < remaining s.
Proof.
  intros [H _]%is_keyword_true. apply real_current. rewrite H. differ.
Qed.

Lemma forallb_snoc {X} (f : X → bool) l x :
  forallb f l = true → f x = true → forallb f (l ++ [x]) = true.
Proof. intros Hl Hx. rewrite forallb_app, Hl. simpl. by rewrite Hx. Qed.

(** One step of symbolic execution of the parser. *)
Ltac pstep :=
  lazymatch goal with
  | |- wp (bind Parser.consume _) _ _ _ _ => apply wp_consume
  | |- wp (bind Parser.current_token _) _ _ _ _ => apply wp_current_token
  | |- wp (bind Parser.peek_next_token _) _ _ _ _ => apply wp_peek_next_token
  | |- wp (bind (when _ _) _) _ _ _ _ => apply wp_when_consume
  | |- wp (ret _) _ _ _ _ => apply wp_ret
  end;
  cbv beta.

Lemma arguments_loop_wp pe fuel k :
  (∀ s, remaining s < fuel → wp pe s (parsed s) (hard_failure s) False) →
  ∀ s args,
    remaining s < fuel → remaining s < k → forallb blocks_ok args = true →
    wp (Parser.arguments_loop pe k args) s
       (fun args' s' => advanced s s' ∧ forallb blocks_ok args' = true)
       (hard_failure s) False.
Proof.
  intros Hpe. induction k as [|k IH]; intros s args Hf Hk Hargs; [lia|].
  cbn [Parser.arguments_loop]. apply wp_bind.
  eapply wp_mono; [by apply Hpe | | done | done].
  intros a s1 [Hadv Ha]. cbv beta. pstep.
  pose proof (advanced_remaining _ _ Hadv) as Hrem.
  destruct (is_delimiter "," (current s1)) eqn:Hc.
  - apply is_delimiter_real in Hc. pstep.
    eapply wp_mono; [apply (IH (next s1) (args ++ [a])) | | | done].
    + rewrite remaining_next. lia.
    + rewrite remaining_next. lia.
    + by apply forallb_snoc.
    + intros args' s' [Hadv' Hargs']. split; [|done].
      eapply advanced_trans; [exact Hadv|].
      eapply advanced_trans; [apply advanced_next | exact Hadv'].
    + intros e s'. apply hard_failure_trans. cbn. apply Hadv.
  - pstep. split; [done|]. by apply forallb_snoc.
Qed.

Lemma parse_expression_wp fuel :
  ∀ s, remaining s < fuel →
    wp (Parser.parse_expression fuel) s (parsed s) (hard_failure s) False.
Proof.
  induction fuel as [|fuel IH]; intros s Hf; [lia|].
  cbn [Parser.parse_expression]. pstep.
  destruct (decide (type (current s) ∈ [u "INTEGER"; u "FLOAT"])).
  { do 2 pstep. split; [apply advanced_next | apply blocks_ok_leaf]. }
  destruct (decide (type (current s) = u "STRING")).
  { do 2 pstep. split; [apply advanced_next | apply blocks_ok_leaf]. }
  destruct (decide (type (current s) = u "IDENTIFIER")) as [Hid|Hid].
  { assert (0 < remaining s) as Hreal.
    { apply real_current. rewrite Hid. differ. }
    do 2 pstep.
    destruct (is_delimiter "(" (current (next s))) eqn:Hp.
    - pose proof (is_delimiter_real _ _ Hp) as Hreal'.
      rewrite remaining_next in Hreal'.
      do 2 pstep. apply wp_bind.
      apply wp_mono with
        (Q := fun args s' =>
                (tokens s' = tokens s
                 ∧ current_token_index s < current_token_index s')
                ∧ forallb blocks_ok args = true)
        (R := hard_failure (next (next s))) (F := False).
      + destruct (negb (is_delimiter ")" (current (next (next s))))).
        * eapply wp_mono;
            [apply (arguments_loop_wp _ fuel (S fuel) IH (next (next s)) [])
            | | done | done].
          -- rewrite !remaining_next. lia.
          -- rewrite !remaining_next. lia.
          -- done.
          -- intros args s' [[Ht Hi] Hargs]. cbn in Ht, Hi.
             split; [split; [done|lia] | done].
        * pstep. cbn. split; [split; [done|lia] | done].
      + intros args s2 [[Ht Hi] Hargs]. cbv beta.
        apply wp_expect.
        * intros Hne. split; [done|]. left. by exists "DELIMITER"%string.
        * intros _. pstep. split.
          -- split; cbn; [done|lia].
          -- rewrite blocks_ok_node by differ. cbn [forallb].
             unfold node0. rewrite blocks_ok_node by differ.
             by rewrite Hargs.
      + intros e s'. by apply hard_failure_trans.
      + done.
    - pstep. split; [apply advanced_next | apply blocks_ok_leaf]. }
  destruct (is_delimiter "(" (current s)) eqn:Hp.
  { pose proof (is_delimiter_real _ _ Hp) as Hreal.
    pstep. apply wp_bind.
    eapply wp_mono; [apply (IH (next s)) | | | done].
    - rewrite remaining_next. lia.
    - intros a s1 [[Ht Hi] Ha]. cbv beta. cbn in Ht, Hi.
      apply wp_expect.
      + intros Hne. split; [done|]. left. by exists "DELIMITER"%string.
      + intros _. pstep. split; [|done]. split; cbn; [done|lia].
    - intros e s'. by apply hard_failure_trans. }
  do 2 pstep. split; [apply advanced_next | apply blocks_ok_leaf].
Qed.

Lemma moved_refl s : moved s s.
Proof. by split. Qed.

Lemma moved_when (c : bool) s : moved s (if c then next s else s).
Proof. destruct c; split; cbn; (done || lia). Qed.

Lemma advanced_moved s s' : advanced s s' → moved s s'.
Proof. intros [? ?]. split; [done|lia]. Qed.

Lemma moved_trans s1 s2 s3 : moved s1 s2 → moved s2 s3 → moved s1 s3.
Proof. intros [H1 ?] [H2 ?]. split; [congruence|lia]. Qed.

Lemma advanced_then_moved s1 s2 s3 : advanced s1 s2 → moved s2 s3 → advanced s1 s3.
Proof. intros [H1 ?] [H2 ?]. split; [congruence|lia]. Qed.

Lemma moved_remaining s s' : moved s s' → remaining s' ≤ remaining s.
Proof. unfold remaining. intros [-> ?]. lia. Qed.

Lemma hard_failure_moved s1 s2 e s3 :
  moved s1 s2 → hard_failure s2 e s3 → hard_failure s1 e s3.
Proof. intros [H _]. by apply hard_failure_trans. Qed.

Lemma parse_block_wp pst r s :
  statement_spec r pst → remaining s < r →
  wp (Parser.parse_block pst) s
     (fun node s' => moved s s' ∧ blocks_ok node = true)
     (hard_failure s) False.
Proof.
  intros Hst Hr. unfold Parser.parse_block. do 2 pstep.
  set (s1 := if is_delimiter ":" (current s) then next s else s).
  assert (moved s s1) as Hm by apply moved_when.
  pstep. destruct (decide (type (current s1) ≠ u "EOF")) as [Hne|He].
  - apply wp_bind. eapply wp_mono; [apply Hst | | | done].
    + apply moved_remaining in Hm. lia.
    + intros st s2 [Hadv Hst2]. pstep. split.
      * eapply moved_trans; [exact Hm | by apply advanced_moved].
      * unfold node0. cbn [blocks_ok node_type children forallb].
        rewrite Hst2. by rewrite bool_decide_eq_true_2.
    + intros e s2. by apply hard_failure_moved.
  - pstep. split; [done|]. unfold node0. cbn [blocks_ok node_type children forallb].
    by rewrite bool_decide_eq_true_2.
Qed.

Lemma parameters_loop_wp k :
  ∀ s params, remaining s < k → forallb blocks_ok params = true →
    wp (Parser.parameters_loop k params) s
       (fun ps s' => moved s s' ∧ forallb blocks_ok ps = true)
       (hard_failure s) False.
Proof.
  induction k as [|k IH]; intros s params Hk Hps; [lia|].
  cbn [Parser.parameters_loop]. pstep.
  destruct (decide (type (current s) ≠ u "IDENTIFIER")) as [Hne|Hid].
  - pstep. split; [apply moved_refl | done].
  - apply dec_stable in Hid.
    assert (0 < remaining s) as Hreal.
    { apply real_current. rewrite Hid. differ. }
    do 2 pstep.
    assert (forallb blocks_ok (params ++ [leaf "PARAMETER" (value (current s))]) = true)
      as Hps' by (apply forallb_snoc; [done | apply blocks_ok_leaf]).
    destruct (is_delimiter "," (current (next s))) eqn:Hc.
    + pstep. eapply wp_mono; [apply (IH (next (next s))) | | | done].
      * rewrite !remaining_next. lia.
      * done.
      * intros ps s' [[Ht Hi] Hok]. cbn in Ht, Hi. split; [|done].
        split; [done|lia].
      * intros e s'. by apply hard_failure_trans.
    + pstep. split; [|done]. apply advanced_moved, advanced_next.
Qed.

Lemma parse_function_definition_wp f pst s :
  0 < remaining s → remaining s < f → statement_spec (remaining s) pst →
  wp (Parser.parse_function_definition f pst) s (parsed s) (hard_failure s) False.
Proof.
  intros Hreal Hf Hst. unfold Parser.parse_function_definition.
  do 5 pstep.
  set (s2 := next (next s)).
  set (s3 := if is_delimiter "(" (current s2) then next s2 else s2).
  assert (advanced s s2) as H2 by (split; cbn; [done|lia]).
  assert (moved s2 s3) as H3 by apply moved_when.
  pstep. apply wp_bind.
  apply wp_mono with
    (Q := fun ps s' => moved s3 s' ∧ forallb blocks_ok ps = true)
    (R := hard_failure s3) (F := False).
  - destruct (negb (is_delimiter ")" (current s3))).
    + apply parameters_loop_wp; [|done].
      apply advanced_remaining in H2. apply moved_remaining in H3. lia.
    + pstep. split; [apply moved_refl | done].
  - intros ps s4 [H4 Hps]. cbv beta. do 2 pstep.
    set (s5 := if is_delimiter ")" (current s4) then next s4 else s4).
    assert (moved s4 s5) as H5 by apply moved_when.
    assert (advanced s s5) as Hs5.
    { eapply advanced_then_moved; [exact H2|].
      eapply moved_trans; [exact H3|]. by eapply moved_trans. }
    apply wp_bind. eapply wp_mono; [eapply (parse_block_wp _ _ _ Hst) | | | done].
    + apply advanced_remaining in Hs5. lia.
    + intros body s6 [H6 Hbody]. pstep. split.
      * by eapply advanced_then_moved.
      * rewrite blocks_ok_node by differ. cbn [forallb].
        unfold node0. rewrite blocks_ok_node by differ.
        by rewrite Hps, Hbody.
    + intros e s6. apply hard_failure_trans. apply Hs5.
  - intros e s'. apply hard_failure_trans.
    destruct H2 as [<- _]. apply H3.
  - done.
Qed.

Lemma parse_if_statement_wp f pst s :
  0 < remaining s → remaining s ≤ f → statement_spec (remaining s) pst →
  wp (Parser.parse_if_statement f pst) s (parsed s) (hard_failure s) False.
Proof.
  intros Hreal Hf Hst. unfold Parser.parse_if_statement.
  pstep. apply wp_bind.
  eapply wp_mono; [apply (parse_expression_wp f (next s)) | | | done].
  { rewrite remaining_next. lia. }
  2:{ intros e s'. by apply hard_failure_trans. }
  intros cond s2 [H2 Hcond]. cbv beta.
  assert (advanced s s2) as Hs2.
  { eapply advanced_trans; [apply advanced_next | done]. }
  apply wp_bind. eapply wp_mono; [eapply (parse_block_wp _ _ _ Hst) | | | done].
  { apply advanced_remaining in Hs2. lia. }
  2:{ intros e s'. apply hard_failure_trans. apply Hs2. }
  intros thn s3 [H3 Hthn]. cbv beta. pstep.
  assert (advanced s s3) as Hs3 by (by eapply advanced_then_moved).
  destruct (is_keyword "else" (current s3)) eqn:He.
  - pstep. apply wp_bind.
    eapply wp_mono; [eapply (parse_block_wp _ _ _ Hst) | | | done].
    { rewrite remaining_next. apply advanced_remaining in Hs3. lia. }
    2:{ intros e s'. apply hard_failure_trans. cbn. apply Hs3. }
    intros els s4 [H4 Hels]. pstep. split.
    + eapply advanced_then_moved; [exact Hs3|].
      eapply moved_trans; [|exact H4]. apply advanced_moved, advanced_next.
    + unfold node0. rewrite !blocks_ok_node by differ. cbn [forallb].
      rewrite !blocks_ok_node by differ. cbn [forallb].
      by rewrite Hcond, Hthn, Hels.
  - pstep. split; [done|].
    unfold node0. rewrite !blocks_ok_node by differ. cbn [forallb].
    rewrite !blocks_ok_node by differ. cbn [forallb].
    by rewrite Hcond, Hthn.
Qed.

Lemma parse_loop_wp f pst s :
  0 < remaining s → remaining s ≤ f → statement_spec (remaining s) pst →
  wp (Parser.parse_loop f pst) s (parsed s) (hard_failure s) False.
Proof.
  intros Hreal Hf Hst. unfold Parser.parse_loop. pstep.
  destruct (decide (value (current s) = u "for")) as [Hfor|Hwhile].
  - apply wp_expect.
    { intros Hne. split; [done|]. left. by exists "IDENTIFIER"%string. }
    intros Hid. pstep.
    set (s2 := next (next s)).
    assert (advanced s s2) as Hs2 by (split; cbn; [done|lia]).
    apply wp_bind.
    destruct (is_keyword "in" (current s2)) eqn:Hin.
    2:{ apply wp_raise. split; [done|]. right. split; [done|]. split; [done|].
        exists (current_token_index s). split; [cbn; lia|]. split; [done|].
        replace (S (current_token_index s)) with (current_token_index s + 1) by lia.
        done. }
    do 2 pstep. apply wp_bind.
    eapply wp_mono; [apply (parse_expression_wp f (next s2)) | | | done].
    { rewrite remaining_next. apply advanced_remaining in Hs2. lia. }
    2:{ intros e s'. by apply hard_failure_trans. }
    intros it s3 [H3 Hit]. cbv beta.
    assert (advanced s s3) as Hs3.
    { eapply advanced_trans; [exact Hs2|].
      eapply advanced_trans; [apply advanced_next | done]. }
    apply wp_bind. eapply wp_mono; [eapply (parse_block_wp _ _ _ Hst) | | | done].
    { apply advanced_remaining in Hs3. lia. }
    2:{ intros e s'. apply hard_failure_trans. apply Hs3. }
    intros body s4 [H4 Hbody]. pstep. split; [by eapply advanced_then_moved|].
    unfold node0. rewrite !blocks_ok_node by differ. cbn [forallb].
    rewrite !blocks_ok_node by differ. cbn [forallb].
    by rewrite blocks_ok_leaf, Hit, Hbody.
  - apply wp_bind.
    eapply wp_mono; [apply (parse_expression_wp f (next s)) | | | done].
    { rewrite remaining_next. lia. }
    2:{ intros e s'. by apply hard_failure_trans. }
    intros cond s2 [H2 Hcond]. cbv beta.
    assert (advanced s s2) as Hs2.
    { eapply advanced_trans; [apply advanced_next | done]. }
    apply wp_bind. eapply wp_mono; [eapply (parse_block_wp _ _ _ Hst) | | | done].
    { apply advanced_remaining in Hs2. lia. }
    2:{ intros e s'. apply hard_failure_trans. apply Hs2. }
    intros body s3 [H3 Hbody]. pstep. split; [by eapply advanced_then_moved|].
    unfold node0. rewrite !blocks_ok_node by differ. cbn [forallb].
    rewrite !blocks_ok_node by differ. cbn [forallb].
    by rewrite Hcond, Hbody.
Qed.

Lemma parse_expression_statement_wp f s :
  remaining s < f →
  wp (Parser.parse_expression_statement f) s (parsed s) (hard_failure s) False.
Proof.
  intros Hf. unfold Parser.parse_expression_statement. do 2 pstep.
  destruct (Parser.assignment_ahead _ _).
  - do 2 pstep. apply wp_bind.
    eapply wp_mono; [apply (parse_expression_wp f (next (next s))) | | | done].
    { rewrite !remaining_next. lia. }
    2:{ intros e s'. by apply hard_failure_trans. }
    intros expr s3 [[Ht Hi] Hexpr]. pstep. cbn in Ht, Hi. split.
    + split; [done|lia].
    + unfold node0. rewrite blocks_ok_node by differ. cbn [forallb].
      by rewrite blocks_ok_leaf, Hexpr.
  - by apply parse_expression_wp.
Qed.

Lemma parse_statement_wp f :
  ∀ s, remaining s + 1 < f →
    wp (Parser.parse_statement f) s (parsed s) (hard_failure s) False.
Proof.
  induction f as [|f IH]; intros s Hf; [lia|].
  assert (statement_spec (remaining s) (Parser.parse_statement f)) as Hst.
  { intros s1 Hs1. apply IH. lia. }
  cbn [Parser.parse_statement]. pstep.
  destruct (is_keyword "def" (current s)) eqn:Hdef.
  { apply parse_function_definition_wp; [by eapply is_keyword_real | lia | done]. }
  destruct (is_keyword "if" (current s)) eqn:Hif.
  { apply parse_if_statement_wp; [by eapply is_keyword_real | lia | done]. }
  destruct (bool_decide (type (current s) = u "KEYWORD")
            && bool_decide (value (current s) ∈ [u "for"; u "while"])) eqn:Hloop.
  { apply parse_loop_wp; [|lia|done].
    apply andb_true_iff in Hloop as [Hk%bool_decide_eq_true _].
    apply real_current. rewrite Hk. differ. }
  apply parse_expression_statement_wp. lia.
Qed.

Lemma program_loop_wp pst r k :
  statement_spec r pst →
  ∀ s stmts, remaining s < r → remaining s < k →
    forallb blocks_ok stmts = true →
    wp (Parser.program_loop pst k stmts) s
       (fun stmts' s' => moved s s' ∧ forallb blocks_ok stmts' = true)
       (hard_failure s) False.
Proof.
  intros Hst. induction k as [|k IH]; intros s stmts Hr Hk Hok; [lia|].
  cbn [Parser.program_loop]. pstep.
  destruct (decide (type (current s) ≠ u "EOF")) as [Hne|He].
  - apply real_current in Hne. apply wp_bind.
    eapply wp_mono; [by apply Hst | | done | done].
    intros st s1 [H1 Hst1]. cbv beta.
    pose proof (advanced_remaining _ _ H1) as Hrem.
    eapply wp_mono; [apply (IH s1 (stmts ++ [st])) | | | done].
    + lia.
    + lia.
    + by apply forallb_snoc.
    + intros stmts' s' [H' Hok']. split; [|done].
      eapply moved_trans; [by apply advanced_moved | done].
    + intros e s'. apply hard_failure_trans. apply H1.
  - pstep. split; [apply moved_refl | done].
Qed.

Lemma parse_program_wp toks f :
  length toks + 2 ≤ f →
  wp (Parser.parse_program f) (mkParser toks 0)
     (fun ast s' => blocks_ok ast = true)
     (fun e s' => tokens s' = toks ∧ (expect_failure s' e ∨ for_in_failure s' e))
     False.
Proof.
  intros Hf. unfold Parser.parse_program. apply wp_bind.
  eapply wp_mono;
    [apply (program_loop_wp (Parser.parse_statement f) (length toks + 1) f)
    | | | done].
  - intros s Hs. apply parse_statement_wp. lia.
  - unfold remaining; cbn. lia.
  - unfold remaining; cbn. lia.
  - done.
  - intros stmts s' [_ Hok]. pstep.
    unfold node0. by rewrite blocks_ok_node by differ.
  - intros e s' H. exact H.
Qed.

(* ================================================================== *)
(** * More fuel does not change what the parser does *)
(* ================================================================== *)

Section FuelOrder.
Context {S A B : Type}.

Lemma fuel_le_refl (m : M S A) : fuel_le m m.
Proof. intros s. by right. Qed.

Lemma fuel_le_out (m : M S A) : fuel_le out_of_fuel m.
Proof. intros s. by left. Qed.

Lemma fuel_le_bind (m m' : M S A) (f f' : A → M S B) :
  fuel_le m m' → (∀ a, fuel_le (f a) (f' a)) → fuel_le (bind m f) (bind m' f').
Proof.
  intros Hm Hf s. unfold bind.
  destruct (Hm s) as [->| ->]; [by left|].
  destruct (m' s); [apply Hf | by right | by left].
Qed.

End FuelOrder.

(** Compare two runs of the same code that differ in fuel only. *)
Ltac fuel_mono tac :=
  repeat first
    [ apply fuel_le_refl
    | apply fuel_le_out
    | tac
    | apply fuel_le_bind
    | lazymatch goal with |- forall _, _ => intro end
    | progress cbv beta zeta
    | match goal with
      | |- fuel_le (if ?c then _ else _) (if ?c then _ else _) => destruct c
      end ].

Lemma arguments_loop_mono pe pe' :
  fuel_le pe pe' →
  ∀ k k' args, k ≤ k' →
    fuel_le (Parser.arguments_loop pe k args) (Parser.arguments_loop pe' k' args).
Proof.
  intros Hpe. induction k as [|k IH]; intros k' args Hk; [apply fuel_le_out|].
  destruct k' as [|k']; [lia|]. cbn [Parser.arguments_loop].
  fuel_mono ltac:(first [exact Hpe | apply IH; lia]).
Qed.

Lemma parse_expression_mono f :
  ∀ f', f ≤ f' → fuel_le (Parser.parse_expression f) (Parser.parse_expression f').
Proof.
  induction f as [|f IH]; intros f' Hf; [apply fuel_le_out|].
  destruct f' as [|f']; [lia|]. cbn [Parser.parse_expression].
  fuel_mono ltac:(first [apply IH; lia
                        | apply arguments_loop_mono; [apply IH; lia | lia]]).
Qed.

Lemma parameters_loop_mono k :
  ∀ k' params, k ≤ k' →
    fuel_le (Parser.parameters_loop k params) (Parser.parameters_loop k' params).
Proof.
  induction k as [|k IH]; intros k' params Hk; [apply fuel_le_out|].
  destruct k' as [|k']; [lia|]. cbn [Parser.parameters_loop].
  fuel_mono ltac:(apply IH; lia).
Qed.

Lemma parse_block_mono pst pst' :
  fuel_le pst pst' → fuel_le (Parser.parse_block pst) (Parser.parse_block pst').
Proof.
  intros Hpst. unfold Parser.parse_block. fuel_mono ltac:(exact Hpst).
Qed.

Lemma parse_statement_mono f :
  ∀ f', f ≤ f' → fuel_le (Parser.parse_statement f) (Parser.parse_statement f').
Proof.
  induction f as [|f IH]; intros f' Hf; [apply fuel_le_out|].
  destruct f' as [|f']; [lia|]. cbn [Parser.parse_statement].
  unfold Parser.parse_function_definition, Parser.parse_if_statement,
    Parser.parse_loop, Parser.parse_expression_statement.
  fuel_mono ltac:(first [ apply parse_expression_mono; lia
                        | apply parameters_loop_mono; lia
                        | apply parse_block_mono; apply IH; lia ]).
Qed.

Lemma program_loop_mono pst pst' :
  fuel_le pst pst' →
  ∀ k k' stmts, k ≤ k' →
    fuel_le (Parser.program_loop pst k stmts) (Parser.program_loop pst' k' stmts).
Proof.
  intros Hpst. induction k as [|k IH]; intros k' stmts Hk; [apply fuel_le_out|].
  destruct k' as [|k']; [lia|]. cbn [Parser.program_loop].
  fuel_mono ltac:(first [exact Hpst | apply IH; lia]).
Qed.

Lemma parse_program_mono f f' :
  f ≤ f' → fuel_le (Parser.parse_program f) (Parser.parse_program f').
Proof.
  intros Hf. unfold Parser.parse_program.
  fuel_mono ltac:(apply program_loop_mono; [by apply parse_statement_mono | lia]).
Qed.

(** With any fuel from [length toks + 2] on, [parse_program] does the
    same, so [parse] does not depend on the bound chosen for it. *)
Lemma parse_with_stable toks f :
  length toks + 2 ≤ f → Parser.parse_with f toks = Parser.parse toks.
Proof.
  intros Hf. unfold Parser.parse, Parser.parse_with.
  pose proof (parse_program_wp toks (length toks + 2) (le_n _)) as Hwp.
  destruct (parse_program_mono _ _ Hf (mkParser toks 0)) as [E|E].
  - unfold wp in Hwp. by rewrite E in Hwp.
  - by rewrite E.
Qed.

(** ** C2 *)

(** Each of the two raising sites can be reached. *)
Example for_without_in :
  Parser.parse [mkToken (u "KEYWORD") (u "for") 0;
                mkToken (u "IDENTIFIER") (u "x") 4;
                mkToken (u "DELIMITER") (u ":") 5;
                mkToken (u "EOF") [] 6] = Parser.Returns None.
Proof. by vm_compute. Qed.

Example call_without_closing :
  Parser.parse [mkToken (u "IDENTIFIER") (u "f") 0;
                mkToken (u "DELIMITER") (u "(") 1;
                mkToken (u "EOF") [] 2] = Parser.Returns None.
Proof. by vm_compute. Qed.

(** ** C4 *)

Lemma parse_block_shape pst s :
  wp (Parser.parse_block pst) s
     (fun node s' =>
        let s1 := if is_delimiter ":" (current s) then next s else s in
        node_type node = u "BLOCK"
        ∧ ((type (current s1) = u "EOF" ∧ children node = [] ∧ s' = s1)
           ∨ (type (current s1) ≠ u "EOF"
              ∧ ∃ statement,
                  pst s1 = Ok statement s' ∧ children node = [statement])))
     (fun _ _ => True) True.
Proof.
  unfold Parser.parse_block. do 3 pstep.
  set (s1 := if is_delimiter ":" (current s) then next s else s).
  destruct (decide (type (current s1) ≠ u "EOF")) as [Hne|He].
  - apply wp_bind. unfold wp at 1. destruct (pst s1) as [st s2| |] eqn:E; [|done|done].
    pstep. split; [done|]. right. split; [done|]. by exists st.
  - apply dec_stable in He. pstep. split; [done|]. by left.
Qed.

(** C4. A node built by [parse_block] is a BLOCK with at most one child:
    after the [:] (consumed when present), no child when the current token
    is EOF, otherwise exactly the one statement that [parse_statement]
    returns; so in every AST that [parse] returns each BLOCK node has at
    most one child, and a second statement after the [:] becomes a sibling
    of the enclosing statement, not a child of the block. *)
Theorem C4_block_single_statement :
  (∀ pst s node s',
     Parser.parse_block pst s = Ok node s' →
     node_type node = u "BLOCK"
     ∧ length (children node) ≤ 1
     ∧ ((type (current (if is_delimiter ":" (current s) then next s else s))
           = u "EOF"
         ∧ children node = [])
        ∨ (type (current (if is_delimiter ":" (current s) then next s else s))
             ≠ u "EOF"
           ∧ ∃ statement,
               pst (if is_delimiter ":" (current s) then next s else s)
                 = Ok statement s'
               ∧ children node = [statement])))
  ∧ (∀ toks ast,
       Parser.parse toks = Parser.Returns (Some ast) → blocks_ok ast = true)
  ∧ Parser.parse [mkToken (u "KEYWORD") (u "if") 0;
                  mkToken (u "IDENTIFIER") (u "x") 3;
                  mkToken (u "DELIMITER") (u ":") 4;
                  mkToken (u "IDENTIFIER") (u "a") 6;
                  mkToken (u "IDENTIFIER") (u "b") 8;
                  mkToken (u "EOF") [] 9]
    = Parser.Returns (Some (node0 "PROGRAM"
        [node0 "IF_STATEMENT"
           [node0 "CONDITION" [leaf "VARIABLE" (u "x")];
            node0 "THEN" [node0 "BLOCK" [leaf "VARIABLE" (u "a")]]];
         leaf "VARIABLE" (u "b")])).
Proof.
  split; [|split].
  - intros pst s node s' Hrun.
    pose proof (wp_ok _ _ _ _ _ _ _ (parse_block_shape pst s) Hrun) as [Hty Hkids].
    cbv zeta in Hkids. split; [done|]. split.
    + destruct Hkids as [(_ & -> & _)|(_ & st & _ & ->)]; cbn; lia.
    + destruct Hkids as [(? & ? & _)|?]; [left|right]; done.
  - intros toks ast Hparse.
    pose proof (parse_program_wp toks (length toks + 2) (le_n _)) as H.
    unfold Parser.parse, Parser.parse_with in Hparse. unfold wp in H.
    destruct (Parser.parse_program (length toks + 2) (mkParser toks 0));
      [|done|done].
    by injection Hparse as <-.
  - by vm_compute.
Qed.

(* ================================================================== *)
(** * The symbol table *)
(* ================================================================== *)

Lemma table_ok_init : table_ok SymbolTable.init.
Proof.
  unfold table_ok, SymbolTable.init; cbn [symbols current_scope].
  rewrite lookup_singleton_eq. split; by eexists.
Qed.

Lemma lookup_run t name :
  table_ok t → ∃ r, SymbolTable.lookup name t = Ok r t.
Proof.
  intros [[g Hg] [d Hd]].
  unfold SymbolTable.lookup, SymbolTable.scope_dict, bind, get.
  rewrite Hd. destruct (d !! name); [by eexists|].
  rewrite Hg. destruct (g !! name); by eexists.
Qed.

Lemma add_symbol_run t name T :
  table_ok t →
  ∃ d, symbols t !! current_scope t = Some d
    ∧ SymbolTable.add_symbol name T t
      = Ok (mkSymbol name (u T) (current_scope t) None)
           (mkTable (<[current_scope t :=
                         <[name := mkSymbol name (u T) (current_scope t) None]> d]>
                       (symbols t))
                    (current_scope t)).
Proof.
  intros [_ [d Hd]]. exists d. split; [done|].
  unfold SymbolTable.add_symbol, SymbolTable.scope_dict, bind, get, modify, ret.
  by rewrite Hd.
Qed.

Lemma table_ok_insert t d :
  table_ok t →
  table_ok (mkTable (<[current_scope t := d]> (symbols t)) (current_scope t)).
Proof.
  intros [Hg Hc]. unfold table_ok; cbn [symbols current_scope]. split.
  - rewrite lookup_insert. case_decide; [by eexists | done].
  - rewrite lookup_insert_eq. by eexists.
Qed.

Lemma add_symbol_ok t name T :
  table_ok t →
  ∃ sym t', SymbolTable.add_symbol name T t = Ok sym t'
    ∧ table_ok t' ∧ current_scope t' = current_scope t.
Proof.
  intros Hok. destruct (add_symbol_run t name T Hok) as (d & Hd & ->).
  eexists _, _. split; [done|]. split; [by apply table_ok_insert | done].
Qed.

Lemma enter_scope_ok t scope_name :
  table_ok t →
  ∃ t', SymbolTable.enter_scope scope_name t = Ok tt t'
    ∧ table_ok t' ∧ current_scope t' = scope_name.
Proof.
  intros [Hg Hc]. unfold SymbolTable.enter_scope, modify.
  eexists. split; [done|]. split; [|done].
  unfold table_ok; cbn [symbols current_scope].
  destruct (symbols t !! scope_name) as [d|] eqn:E.
  - split; [done|]. by eexists.
  - split.
    + rewrite lookup_insert. case_decide; [by eexists | done].
    + rewrite lookup_insert_eq. by eexists.
Qed.

Lemma exit_scope_ok t :
  table_ok t →
  ∃ t', SymbolTable.exit_scope t = Ok tt t'
    ∧ table_ok t' ∧ symbols t' = symbols t ∧ current_scope t' = global.
Proof.
  intros [Hg Hc]. unfold SymbolTable.exit_scope, modify.
  eexists. split; [done|]. by split.
Qed.

Lemma do_call_ok t c :
  table_ok t → ∃ t', SymbolTable.do_call c t = Ok tt t' ∧ table_ok t'.
Proof.
  intros Hok. destruct c as [scope_name| |name T|name]; cbn [SymbolTable.do_call].
  - destruct (enter_scope_ok t scope_name Hok) as (t' & ? & ? & _). by exists t'.
  - destruct (exit_scope_ok t Hok) as (t' & ? & ? & _). by exists t'.
  - destruct (add_symbol_ok t name T Hok) as (sym & t' & E & ? & _).
    exists t'. unfold bind. by rewrite E.
  - destruct (lookup_run t name Hok) as (r & E).
    exists t. unfold bind. by rewrite E.
Qed.

Lemma do_calls_ok cs :
  ∀ t, table_ok t → ∃ t', SymbolTable.do_calls cs t = Ok tt t' ∧ table_ok t'.
Proof.
  induction cs as [|c cs IH]; intros t Hok; cbn [SymbolTable.do_calls].
  - by exists t.
  - destruct (do_call_ok t c Hok) as (t1 & E & Hok1).
    destruct (IH t1 Hok1) as (t2 & E2 & Hok2).
    exists t2. unfold bind. by rewrite E.
Qed.

(** ** C10 *)

(** C10. The symbol table has the key ["global"] and the key
    [current_scope] in its scope map when it is created, and every call of
    [enter_scope], [exit_scope], [add_symbol] or [lookup] on a table that
    has them returns (no [KeyError]) and leaves a table that has them; so
    this holds after any sequence of calls on a new table, and
    [add_symbol] and [lookup] never index a missing scope. *)
Theorem C10_symbol_table_invariant :
  table_ok SymbolTable.init
  ∧ (∀ t c, table_ok t →
       ∃ t', SymbolTable.do_call c t = Ok tt t' ∧ table_ok t')
  ∧ (∀ cs, ∃ t,
       SymbolTable.do_calls cs SymbolTable.init = Ok tt t ∧ table_ok t)
  ∧ (∀ cs t name T,
       SymbolTable.do_calls cs SymbolTable.init = Ok tt t →
       (∃ sym t', SymbolTable.add_symbol name T t = Ok sym t')
       ∧ (∃ r, SymbolTable.lookup name t = Ok r t)
       ∧ is_Some (symbols t !! current_scope t)
       ∧ is_Some (symbols t !! global)).
Proof.
  split; [apply table_ok_init|]. split; [apply do_call_ok|].
  split; [intros cs; apply do_calls_ok, table_ok_init|].
  intros cs t name T Hrun.
  destruct (do_calls_ok cs _ table_ok_init) as (t' & E & Hok).
  rewrite Hrun in E. injection E as <-.
  split; [|split; [by apply lookup_run | split; apply Hok]].
  destruct (add_symbol_ok t name T Hok) as (sym & t' & ? & _). by exists sym, t'.
Qed.

(* ================================================================== *)
(** * The semantic analyzer *)
(* ================================================================== *)

Lemma ASTNode_ind (P : ASTNode → Prop) :
  (∀ ty v kids, Forall P kids → P (mkNode ty v kids)) → ∀ node, P node.
Proof.
  intros H. fix IH 1. intros [ty v kids]. apply H.
  induction kids as [|kid kids IHkids]; constructor; [apply IH | exact IHkids].
Qed.

(** Evaluate the tests between two string literals. *)
Ltac eval_tests :=
  repeat match goal with
  | |- context [bool_decide (u ?a = u ?b)] =>
      let r := eval vm_compute in (bool_decide (u a = u b)) in
      change (bool_decide (u a = u b)) with r
  | H : context [bool_decide (u ?a = u ?b)] |- _ =>
      let r := eval vm_compute in (bool_decide (u a = u b)) in
      change (bool_decide (u a = u b)) with r in H
  end;
  cbv iota in *.

Section AnalyzerSteps.
Implicit Types (self : SemanticAnalyzer) (name : pyname).

Lemma on_table_lookup self name :
  table_ok (symbol_table self) →
  Semantic.on_table (SymbolTable.lookup name) self = Ok (found name self) self.
Proof.
  intros Hok. destruct (lookup_run _ name Hok) as (r & E).
  unfold Semantic.on_table, found. rewrite E. by destruct self.
Qed.

Lemma on_table_add self name T :
  table_ok (symbol_table self) →
  ∃ d, symbols (symbol_table self) !! current_scope (symbol_table self) = Some d
    ∧ Semantic.on_table (SymbolTable.add_symbol name T) self
      = Ok (mkSymbol name (u T) (current_scope (symbol_table self)) None)
           (mkAnalyzer
              (mkTable
                 (<[current_scope (symbol_table self) :=
                      <[name := mkSymbol name (u T)
                                  (current_scope (symbol_table self)) None]> d]>
                    (symbols (symbol_table self)))
                 (current_scope (symbol_table self)))
              (errors self)).
Proof.
  intros Hok. destruct (add_symbol_run _ name T Hok) as (d & Hd & E).
  exists d. split; [done|]. unfold Semantic.on_table. by rewrite E.
Qed.

Lemma add_quiet self name T :
  table_ok (symbol_table self) →
  quiet (Semantic.on_table (SymbolTable.add_symbol name T) ;; ret tt) self.
Proof.
  intros Hok. destruct (on_table_add self name T Hok) as (d & Hd & E).
  eexists. unfold bind. rewrite E. split; [done|]. split; [done|].
  by apply table_ok_insert.
Qed.

Lemma add_parameters_quiet params :
  ∀ self, table_ok (symbol_table self) →
    quiet (Semantic.add_parameters params) self.
Proof.
  induction params as [|p params IH]; intros self Hok; cbn [Semantic.add_parameters].
  - by exists self.
  - destruct (on_table_add self (node_value p) "PARAMETER" Hok) as (d & Hd & E).
    unfold quiet, bind. rewrite E.
    match goal with |- ∃ _, Semantic.add_parameters _ ?s = _ ∧ _ =>
      destruct (IH s) as (s' & E' & He & Hok') end.
    { by apply table_ok_insert. }
    exists s'. by rewrite E'.
Qed.

Lemma declare_function_quiet self name :
  table_ok (symbol_table self) → found name self = None →
  quiet (Semantic.declare_function name) self.
Proof.
  intros Hok Hnone. unfold quiet, Semantic.declare_function, bind at 1.
  rewrite (on_table_lookup _ _ Hok), Hnone.
  rewrite bool_decide_eq_false_2 by (by intros [? ?]).
  unfold when, bind at 1, ret at 1. unfold bind at 1.
  destruct (on_table_add self name "FUNCTION" Hok) as (d & Hd & ->).
  unfold Semantic.on_table.
  match goal with |- context [SymbolTable.enter_scope name ?t] =>
    destruct (enter_scope_ok t name) as (t' & -> & Hok' & _) end.
  { by apply table_ok_insert. }
  eexists. split; [done|]. by split.
Qed.

Lemma define_target_run self name :
  table_ok (symbol_table self) →
  Semantic.define_target name self =
    match found name self with
    | Some _ => Ok tt self
    | None =>
        (Semantic.on_table (SymbolTable.add_symbol name "VARIABLE") ;; ret tt) self
    end.
Proof.
  intros Hok. unfold Semantic.define_target, bind at 1.
  rewrite (on_table_lookup _ _ Hok).
  destruct (found name self) as [sym|].
  - by rewrite bool_decide_eq_true_2 by (by eexists).
  - by rewrite bool_decide_eq_false_2 by (by intros [? ?]).
Qed.

Lemma define_target_quiet self name :
  table_ok (symbol_table self) → quiet (Semantic.define_target name) self.
Proof.
  intros Hok. unfold quiet. rewrite (define_target_run _ _ Hok).
  destruct (found name self); [by exists self | by apply add_quiet].
Qed.


Lemma analyze_variable_quiet self node :
  table_ok (symbol_table self) → is_Some (found (node_value node) self) →
  Semantic._analyze_variable node self = Ok tt self.
Proof.
  intros Hok Hsome. unfold Semantic._analyze_variable, bind.
  rewrite (on_table_lookup _ _ Hok).
  by rewrite bool_decide_eq_true_2.
Qed.

End AnalyzerSteps.




(** ** Every error comes from a point of analysis *)

Section Appends.
Context {X Y : Type}.
Implicit Types (self : SemanticAnalyzer).

Lemma quiet_appends (m : Semantic.A unit) self : quiet m self → appends 0 m self.
Proof.
  intros (s1 & E & He & Hok). unfold appends, wp. rewrite E.
  split; [done|]. exists []. rewrite app_nil_r. split; [done|]. cbn. lia.
Qed.

Lemma appends_weaken n (m : Semantic.A X) self :
  appends n m self → appends 0 m self.
Proof.
  intros H. eapply wp_mono; [exact H| | |]; try done.
  intros x s1 (Hok & extra & He & _). split; [done|]. exists extra.
  split; [done|lia].
Qed.

Lemma ret_appends (x : X) self :
  table_ok (symbol_table self) → appends 0 (ret x) self.
Proof.
  intros Hok. unfold appends, wp, ret. split; [done|].
  exists []. rewrite app_nil_r. by split.
Qed.

(** Errors appended by the first of two steps, or by the second. *)
Lemma appends_bind_l n (m : Semantic.A X) (k : X → Semantic.A Y) self :
  appends n m self →
  (∀ x s1, m self = Ok x s1 → table_ok (symbol_table s1) → appends 0 (k x) s1) →
  appends n (bind m k) self.
Proof.
  intros Hm Hk. unfold appends, wp, bind in *.
  destruct (m self) as [x s1| |] eqn:E; [|done|done].
  destruct Hm as (Hok1 & extra1 & He1 & Hn1).
  specialize (Hk x s1 eq_refl Hok1).
  destruct (k x s1) as [y s2| |]; [|done|done].
  destruct Hk as (Hok2 & extra2 & He2 & _).
  split; [done|]. exists (extra1 ++ extra2).
  rewrite He2, He1, <- app_assoc. split; [done|]. rewrite length_app. lia.
Qed.

Lemma appends_bind_r n (m : Semantic.A X) (k : X → Semantic.A Y) self :
  appends 0 m self →
  (∀ x s1, m self = Ok x s1 → table_ok (symbol_table s1) → appends n (k x) s1) →
  appends n (bind m k) self.
Proof.
  intros Hm Hk. unfold appends, wp, bind in *.
  destruct (m self) as [x s1| |] eqn:E; [|done|done].
  destruct Hm as (Hok1 & extra1 & He1 & _).
  specialize (Hk x s1 eq_refl Hok1).
  destruct (k x s1) as [y s2| |]; [|done|done].
  destruct Hk as (Hok2 & extra2 & He2 & Hn2).
  split; [done|]. exists (extra1 ++ extra2).
  rewrite He2, He1, <- app_assoc. split; [done|]. rewrite length_app. lia.
Qed.

End Appends.

Lemma append_error_appends msg self :
  table_ok (symbol_table self) → appends 1 (Semantic.append_error msg) self.
Proof.
  intros Hok. unfold appends, wp, Semantic.append_error, modify.
  cbn [symbol_table errors]. split; [done|]. exists [msg]. split; [done|]. cbn. lia.
Qed.

Lemma add_symbol_appends self name T :
  table_ok (symbol_table self) →
  appends 0 (Semantic.on_table (SymbolTable.add_symbol name T)) self.
Proof.
  intros Hok. destruct (on_table_add self name T Hok) as (d & Hd & E).
  unfold appends, wp. rewrite E. cbn [symbol_table errors].
  split; [by apply table_ok_insert|]. exists []. rewrite app_nil_r. by split.
Qed.

Lemma declare_function_appends self name :
  table_ok (symbol_table self) →
  appends (match found name self with Some _ => 1 | None => 0 end)
    (Semantic.declare_function name) self.
Proof.
  intros Hok. destruct (found name self) as [sym|] eqn:Hf.
  - unfold Semantic.declare_function.
    unfold appends, wp, bind at 1.
    rewrite (on_table_lookup _ _ Hok), Hf.
    rewrite bool_decide_eq_true_2 by (by eexists).
    unfold when, bind at 1, Semantic.append_error, modify. unfold bind at 1.
    match goal with |- context [Semantic.on_table (SymbolTable.add_symbol name ?T) ?s] =>
      destruct (on_table_add s name T) as (d & Hd & ->) end; [done|].
    unfold Semantic.on_table. cbn [symbol_table errors].
    match goal with |- context [SymbolTable.enter_scope name ?t] =>
      destruct (enter_scope_ok t name) as (t' & -> & Hok' & _) end.
    { by apply (table_ok_insert (symbol_table self)). }
    cbn [symbol_table errors]. split; [done|].
    eexists. split; [done|]. cbn. lia.
  - by apply quiet_appends, declare_function_quiet.
Qed.

Lemma check_callee_appends self name :
  table_ok (symbol_table self) →
  appends (match found name self with
           | Some sym => if bool_decide (sym_type sym = u "FUNCTION") then 0 else 1
           | None => 1
           end)
    (Semantic.check_callee name) self.
Proof.
  intros Hok. unfold appends, wp, Semantic.check_callee, bind.
  rewrite (on_table_lookup _ _ Hok).
  destruct (found name self) as [sym|].
  - destruct (bool_decide (sym_type sym = u "FUNCTION")); cbn [negb when].
    + unfold ret. split; [done|]. exists []. rewrite app_nil_r. by split.
    + by apply append_error_appends.
  - by apply append_error_appends.
Qed.

Lemma analyze_variable_appends self node :
  table_ok (symbol_table self) →
  appends (match found (node_value node) self with Some _ => 0 | None => 1 end)
    (Semantic._analyze_variable node) self.
Proof.
  intros Hok. unfold appends, wp, Semantic._analyze_variable, bind.
  rewrite (on_table_lookup _ _ Hok).
  destruct (found (node_value node) self) as [sym|].
  - rewrite bool_decide_eq_true_2 by (by eexists). cbn [negb when]. unfold ret.
    split; [done|]. exists []. rewrite app_nil_r. by split.
  - rewrite bool_decide_eq_false_2 by (by intros [? ?]). cbn [negb when].
    by apply append_error_appends.
Qed.

Lemma exit_scope_quiet self :
  table_ok (symbol_table self) →
  quiet (Semantic.on_table SymbolTable.exit_scope) self.
Proof.
  intros Hok. unfold quiet, Semantic.on_table.
  destruct (exit_scope_ok _ Hok) as (t' & -> & Hok' & _).
  eexists. by split.
Qed.

(** Steps that append nothing or something; [rec] covers the recursive
    calls. *)
Ltac grow rec :=
  repeat first
    [ exact I
    | rec
    | apply ret_appends; assumption
    | apply add_symbol_appends; assumption
    | apply quiet_appends;
      first [ apply add_parameters_quiet | apply define_target_quiet
            | apply exit_scope_quiet ]; assumption
    | eapply (appends_weaken _);
      first [ apply declare_function_appends | apply check_callee_appends
            | apply analyze_variable_appends ]; assumption
    | apply appends_bind_l; [ | intros ? ? _ ? ]
    | match goal with
      | |- appends _ (match ?l with [] => _ | _ :: _ => _ end) _ => destruct l
      end ].

Lemma for_each_grows kids :
  Forall (fun kid => ∀ self, table_ok (symbol_table self) →
            appends 0 (Semantic._analyze_node kid) self) kids →
  ∀ self, table_ok (symbol_table self) →
    appends 0 (Semantic.analyze_each kids) self.
Proof.
  induction 1 as [|kid kids Hkid _ IH]; intros self Hok;
    unfold Semantic.analyze_each in *; cbn [Semantic.for_each].
  - by apply ret_appends.
  - apply appends_bind_l; [by apply Hkid|]. intros [] s1 _ Hok1. by apply IH.
Qed.

Lemma analyze_node_grows node :
  (∀ self, table_ok (symbol_table self) →
     appends 0 (Semantic._analyze_node node) self)
  ∧ (∀ self, table_ok (symbol_table self) →
       appends 0 (Semantic.analyze_each (children node)) self).
Proof.
  induction node as [ty v kids IH] using ASTNode_ind.
  assert (∀ self, table_ok (symbol_table self) →
            appends 0 (Semantic.analyze_each kids) self) as Heach.
  { apply for_each_grows. eapply Forall_impl; [exact IH|]. by intros ? [? _]. }
  split; [|exact Heach].
  assert (∀ k, k ∈ kids → ∀ self, table_ok (symbol_table self) →
            appends 0 (Semantic._analyze_node k) self) as IH1.
  { intros k Hk. by apply (proj1 (Forall_forall _ _) IH k Hk). }
  assert (∀ k, k ∈ kids → ∀ self, table_ok (symbol_table self) →
            appends 0 (Semantic.analyze_each (children k)) self) as IH2.
  { intros k Hk. by apply (proj1 (Forall_forall _ _) IH k Hk). }
  clear IH. intros self Hok.
  cbn [Semantic._analyze_node node_type].
  unfold Semantic._analyze_program, Semantic._analyze_function_def,
    Semantic._analyze_block, Semantic._analyze_if_statement,
    Semantic._analyze_for_loop, Semantic._analyze_while_loop,
    Semantic._analyze_assignment, Semantic._analyze_function_call.
  cbn [children node_value]. fold Semantic.analyze_each.
  repeat match goal with
         | |- appends _ (if ?c then _ else _) _ => destruct c
         end;
    grow ltac:(idtac; match goal with
               | |- appends 0 (Semantic.analyze_each kids) _ => by apply Heach
               | |- appends 0 (Semantic._analyze_node _) _ =>
                   apply IH1; [set_solver | assumption]
               | |- appends 0 (Semantic.analyze_each (children _)) _ =>
                   apply IH2; [set_solver | assumption]
               end).
Qed.

Lemma analyze_grows node self :
  table_ok (symbol_table self) → appends 0 (Semantic._analyze_node node) self.
Proof. apply analyze_node_grows. Qed.

Lemma each_grows kids self :
  table_ok (symbol_table self) → appends 0 (Semantic.analyze_each kids) self.
Proof.
  apply for_each_grows. apply Forall_forall. intros kid _ s. apply analyze_grows.
Qed.

Lemma for_each_noisy kids :
  Forall (fun kid => ∀ self, table_ok (symbol_table self) →
            forallb no_error_at (visits kid self) = false →
            appends 1 (Semantic._analyze_node kid) self) kids →
  ∀ self, table_ok (symbol_table self) →
    forallb no_error_at (visits_each kids self) = false →
    appends 1 (Semantic.analyze_each kids) self.
Proof.
  induction 1 as [|kid kids Hkid _ IH]; intros self Hok Hvis;
    unfold Semantic.analyze_each in *; cbn [visits_each Semantic.for_each] in *.
  - discriminate Hvis.
  - rewrite forallb_app in Hvis. apply andb_false_iff in Hvis as [Hv|Hv].
    + apply appends_bind_l; [by apply Hkid|].
      intros [] s1 _ Hok1. by apply each_grows.
    + apply appends_bind_r; [by apply analyze_grows|].
      intros [] s1 E Hok1.
      unfold continue_after in Hv. rewrite E in Hv. by apply IH.
Qed.

(** What is left of a method appends nothing or raises. *)
Ltac rest_grows :=
  grow ltac:(idtac; first [ apply analyze_grows; assumption
                          | apply each_grows; assumption ]).

(** A visit at which [no_error_at] fails makes the analysis append an
    error or raise. *)
Lemma analyze_node_noisy node :
  (∀ self, table_ok (symbol_table self) →
     forallb no_error_at (visits node self) = false →
     appends 1 (Semantic._analyze_node node) self)
  ∧ (∀ self, table_ok (symbol_table self) →
       forallb no_error_at (visits_each (children node) self) = false →
       appends 1 (Semantic.analyze_each (children node)) self).
Proof.
  induction node as [ty v kids IH] using ASTNode_ind.
  assert (∀ self, table_ok (symbol_table self) →
            forallb no_error_at (visits_each kids self) = false →
            appends 1 (Semantic.analyze_each kids) self) as Heach.
  { apply for_each_noisy. eapply Forall_impl; [exact IH|]. by intros ? [? _]. }
  split; [|exact Heach].
  assert (∀ k, k ∈ kids → ∀ self, table_ok (symbol_table self) →
            forallb no_error_at (visits k self) = false →
            appends 1 (Semantic._analyze_node k) self) as IH1.
  { intros k Hk. by apply (proj1 (Forall_forall _ _) IH k Hk). }
  assert (∀ k, k ∈ kids → ∀ self, table_ok (symbol_table self) →
            forallb no_error_at (visits_each (children k) self) = false →
            appends 1 (Semantic.analyze_each (children k)) self) as IH2.
  { intros k Hk. by apply (proj1 (Forall_forall _ _) IH k Hk). }
  clear IH. intros self Hok Hvis.
  cbn [visits node_type children node_value] in Hvis. fold visits_each in Hvis.
  cbn [forallb] in Hvis. unfold no_error_at, arity in Hvis.
  cbn [fst snd node_type node_value children] in Hvis.
  cbn [Semantic._analyze_node node_type].
  unfold Semantic._analyze_program, Semantic._analyze_function_def,
    Semantic._analyze_block, Semantic._analyze_if_statement,
    Semantic._analyze_for_loop, Semantic._analyze_while_loop,
    Semantic._analyze_assignment, Semantic._analyze_function_call.
  cbn [children node_value]. fold Semantic.analyze_each.
  unfold Semantic.is_type in *.
  destruct (decide (ty = u "PROGRAM")) as [->|Hn1].
  { eval_tests. cbn [Nat.leb andb] in Hvis. by apply Heach. }
  rewrite (bool_decide_eq_false_2 _ Hn1) in *.
  destruct (decide (ty = u "FUNCTION_DEF")) as [->|Hn2].
  { eval_tests. destruct kids as [|p [|b rest]].
    - apply appends_bind_r; [rest_grows | intros; exact I].
    - apply appends_bind_r; [rest_grows|]. intros [] s1 _ Hok1.
      apply appends_bind_r; [rest_grows | intros; exact I].
    - cbn [length Nat.leb andb] in Hvis.
      pose proof (declare_function_appends self v Hok) as Hd.
      destruct (found v self) as [sym|] eqn:Hf.
      + apply appends_bind_l; [exact Hd|]. intros [] s1 _ Hok1. rest_grows.
      + rewrite bool_decide_eq_true_2 in Hvis by done. cbn [andb] in Hvis.
        apply appends_bind_r; [exact Hd|]. intros [] s1 E1 Hok1.
        apply appends_bind_r; [rest_grows|]. intros [] s2 E2 Hok2.
        unfold continue_after, bind at 1 in Hvis. rewrite E1, E2 in Hvis.
        apply appends_bind_l; [apply IH1; [set_solver|done|done]|].
        intros [] s3 _ Hok3. rest_grows. }
  rewrite (bool_decide_eq_false_2 _ Hn2) in *.
  destruct (decide (ty = u "BLOCK")) as [->|Hn3].
  { eval_tests. cbn [Nat.leb andb] in Hvis. by apply Heach. }
  rewrite (bool_decide_eq_false_2 _ Hn3) in *.
  destruct (decide (ty = u "IF_STATEMENT")) as [->|Hn4].
  { eval_tests. destruct kids as [|c [|t rest]].
    - exact I.
    - apply appends_bind_r; [rest_grows | intros; exact I].
    - cbn [length Nat.leb andb] in Hvis.
      rewrite forallb_app in Hvis. apply andb_false_iff in Hvis as [Hv|Hv].
      + apply appends_bind_l; [apply IH1; [set_solver|done|done]|].
        intros [] s1 _ Hok1. rest_grows.
      + apply appends_bind_r; [rest_grows|]. intros [] s1 E1 Hok1.
        unfold continue_after at 1 in Hv. rewrite E1 in Hv.
        rewrite forallb_app in Hv. apply andb_false_iff in Hv as [Hv|Hv].
        * apply appends_bind_l; [apply IH1; [set_solver|done|done]|].
          intros [] s2 _ Hok2. rest_grows.
        * apply appends_bind_r; [rest_grows|]. intros [] s2 E2 Hok2.
          unfold continue_after in Hv. rewrite E2 in Hv.
          destruct rest as [|e rest]; [discriminate Hv|].
          apply IH1; [set_solver|done|done]. }
  rewrite (bool_decide_eq_false_2 _ Hn4) in *.
  destruct (decide (ty = u "FOR_LOOP")) as [->|Hn5].
  { eval_tests. destruct kids as [|x [|it [|b rest]]].
    - exact I.
    - apply appends_bind_r; [rest_grows | intros; exact I].
    - apply appends_bind_r; [rest_grows|]. intros ? s1 _ Hok1.
      apply appends_bind_r; [rest_grows | intros; exact I].
    - cbn [length Nat.leb andb] in Hvis.
      apply appends_bind_r; [rest_grows|]. intros sym s1 E1 Hok1.
      unfold continue_after at 1, bind at 1 in Hvis. rewrite E1 in Hvis.
      unfold ret at 1 in Hvis.
      rewrite forallb_app in Hvis. apply andb_false_iff in Hvis as [Hv|Hv].
      + apply appends_bind_l; [apply IH1; [set_solver|done|done]|].
        intros [] s2 _ Hok2. rest_grows.
      + apply appends_bind_r; [rest_grows|]. intros [] s2 E2 Hok2.
        unfold continue_after in Hv. rewrite E2 in Hv.
        apply IH1; [set_solver|done|done]. }
  rewrite (bool_decide_eq_false_2 _ Hn5) in *.
  destruct (decide (ty = u "WHILE_LOOP")) as [->|Hn6].
  { eval_tests. destruct kids as [|c [|b rest]].
    - exact I.
    - apply appends_bind_r; [rest_grows | intros; exact I].
    - cbn [length Nat.leb andb] in Hvis.
      rewrite forallb_app in Hvis. apply andb_false_iff in Hvis as [Hv|Hv].
      + apply appends_bind_l; [apply IH1; [set_solver|done|done]|].
        intros [] s1 _ Hok1. rest_grows.
      + apply appends_bind_r; [rest_grows|]. intros [] s1 E1 Hok1.
        unfold continue_after in Hv. rewrite E1 in Hv.
        apply IH1; [set_solver|done|done]. }
  rewrite (bool_decide_eq_false_2 _ Hn6) in *.
  destruct (decide (ty = u "ASSIGNMENT")) as [->|Hn7].
  { eval_tests. destruct kids as [|x [|e rest]].
    - exact I.
    - apply appends_bind_r; [rest_grows | intros; exact I].
    - cbn [length Nat.leb andb] in Hvis.
      apply appends_bind_r; [rest_grows|]. intros [] s1 E1 Hok1.
      unfold continue_after in Hvis. rewrite E1 in Hvis.
      apply IH1; [set_solver|done|done]. }
  rewrite (bool_decide_eq_false_2 _ Hn7) in *.
  destruct (decide (ty = u "FUNCTION_CALL")) as [->|Hn8].
  { eval_tests. destruct kids as [|a rest].
    - apply appends_bind_r; [rest_grows | intros; exact I].
    - cbn [length Nat.leb andb] in Hvis.
      pose proof (check_callee_appends self v Hok) as Hc.
      destruct (found v self) as [sym|] eqn:Hf.
      + destruct (bool_decide (sym_type sym = u "FUNCTION")) eqn:Hb.
        * cbn [andb] in Hvis.
          apply appends_bind_r; [exact Hc|]. intros [] s1 E1 Hok1.
          unfold continue_after in Hvis. rewrite E1 in Hvis.
          apply IH2; [set_solver|done|done].
        * apply appends_bind_l; [exact Hc|]. intros [] s1 _ Hok1. rest_grows.
      + apply appends_bind_l; [exact Hc|]. intros [] s1 _ Hok1. rest_grows. }
  rewrite (bool_decide_eq_false_2 _ Hn8) in *.
  destruct (decide (ty = u "VARIABLE")) as [->|Hn9].
  { eval_tests. cbn [Nat.leb andb forallb] in Hvis.
    pose proof (analyze_variable_appends self (mkNode (u "VARIABLE") v kids) Hok)
      as Hc.
    cbn [node_value] in Hc. destruct (found v self) as [sym|]; [|exact Hc].
    rewrite bool_decide_eq_true_2 in Hvis by (by eexists). discriminate Hvis. }
  rewrite (bool_decide_eq_false_2 _ Hn9) in *.
  cbn [Nat.leb andb] in Hvis. by apply Heach.
Qed.

(** ** C6 *)


(** ** C5 *)

Lemma found_after_add self name T d :
  found name
    (mkAnalyzer
       (mkTable
          (<[current_scope (symbol_table self) :=
               <[name := mkSymbol name (u T) (current_scope (symbol_table self)) None]> d]>
             (symbols (symbol_table self)))
          (current_scope (symbol_table self)))
       (errors self))
  = Some (mkSymbol name (u T) (current_scope (symbol_table self)) None).
Proof.
  unfold found, SymbolTable.lookup, SymbolTable.scope_dict, bind, get.
  cbn [symbol_table symbols current_scope].
  rewrite lookup_insert_eq. by rewrite lookup_insert_eq.
Qed.

(** C5. When [lookup] does not find the target of an ASSIGNMENT node, the
    analysis of the node is: register the target as a VARIABLE symbol of
    the current scope, then analyze the right-hand side.  So when the
    right-hand side is a reference to the target itself ([x = x] with [x]
    undefined), the analysis returns with no error added, and the target
    is then a VARIABLE of the current scope. *)
Theorem C5_assignment_registers_target (self : SemanticAnalyzer) (v : pyname)
    (var_node expr_node : ASTNode) (rest : list ASTNode) :
  table_ok (symbol_table self) →
  found (node_value var_node) self = None →
  Semantic._analyze_node
    (mkNode (u "ASSIGNMENT") v (var_node :: expr_node :: rest)) self
  = (Semantic.on_table
       (SymbolTable.add_symbol (node_value var_node) "VARIABLE") ;;
     Semantic._analyze_node expr_node) self
  ∧ (∀ kids,
       expr_node = mkNode (u "VARIABLE") (node_value var_node) kids →
       ∃ self',
         Semantic._analyze_node
           (mkNode (u "ASSIGNMENT") v (var_node :: expr_node :: rest)) self
         = Ok tt self'
         ∧ errors self' = errors self
         ∧ (Semantic.variable_undefined (node_value var_node)
              ∉ drop (length (errors self)) (errors self'))
         ∧ found (node_value var_node) self'
           = Some (mkSymbol (node_value var_node) (u "VARIABLE")
                     (current_scope (symbol_table self)) None)).
Proof.
  intros Hok Hnone.
  assert (Semantic._analyze_node
            (mkNode (u "ASSIGNMENT") v (var_node :: expr_node :: rest)) self
          = (Semantic.on_table
               (SymbolTable.add_symbol (node_value var_node) "VARIABLE") ;;
             Semantic._analyze_node expr_node) self) as Hrun.
  { cbn [Semantic._analyze_node node_type].
    unfold Semantic.is_type. eval_tests.
    unfold Semantic._analyze_assignment. cbn [children].
    unfold bind at 1. rewrite (define_target_run _ _ Hok), Hnone.
    unfold bind. by destruct (Semantic.on_table _ self). }
  split; [exact Hrun|].
  intros kids ->. rewrite Hrun.
  destruct (on_table_add self (node_value var_node) "VARIABLE" Hok) as (d & Hd & E).
  unfold bind. rewrite E.
  cbn [Semantic._analyze_node node_type].
  unfold Semantic.is_type. eval_tests.
  rewrite analyze_variable_quiet.
  - eexists. split; [done|]. cbn [errors]. split; [done|].
    split; [|apply found_after_add].
    rewrite drop_all. apply not_elem_of_nil.
  - by apply table_ok_insert.
  - rewrite found_after_add. by eexists.
Qed.

Lemma C5_witness :
  table_ok (symbol_table Semantic.init)
  ∧ found (Some (u "x")) Semantic.init = None
  ∧ ∃ self',
      Semantic._analyze_node x_is_x Semantic.init = Ok tt self'
      ∧ errors self' = []
      ∧ found (Some (u "x")) self'
        = Some (mkSymbol (Some (u "x")) (u "VARIABLE") global None).
Proof.
  split; [exact table_ok_init|]. split; [by vm_compute|].
  destruct (C5_assignment_registers_target Semantic.init None
              (leaf "VARIABLE" (u "x")) (leaf "VARIABLE" (u "x")) []
              table_ok_init) as [_ H].
  { by vm_compute. }
  destruct (H [] eq_refl) as (self' & E & He & _ & Hf).
  exists self'. split; [exact E|]. split; [exact He|exact Hf].
Defined.

(* ================================================================== *)
(** * The code generator *)
(* ================================================================== *)

Section GeneratorSafe.
Context (U : Unicode).


















End GeneratorSafe.

(** ** C3 *)





(** The empty function of the specification, [def f(): pass]. *)
Example generate_empty_function :
  fst <$> generate ascii_unicode (empty_function "f") new_generator
  = Some (u "def f():" ++ nl ++ u "    pass").
Proof. by vm_compute. Qed.

(** A parameter without a name makes the traversal raise. *)
Example generate_malformed :
  fst <$> generate ascii_unicode
            (mkNode (u "PARAMETERS") None [node0 "PARAMETER" []]) new_generator
  = Some (u "# Error en la generaci" ++ [243%N] ++ u "n de c" ++ [243%N]
          ++ u "digo: sequence item 0: expected str instance, NoneType found").
Proof. by vm_compute. Qed.

(* ================================================================== *)
(** * Further properties of utils.py *)
(* ================================================================== *)

Section Spacing.
Context (U : Unicode).

Lemma single_spaced_cons x s :
  isspace U x = false → single_spaced U s = true →
  single_spaced U (x :: s) = true.
Proof. intros Hx Hs. cbn [single_spaced]. rewrite Hx, Hs. by destruct s. Qed.

Lemma single_spaced_app l1 l2 :
  single_spaced U (l1 ++ l2) = true →
  single_spaced U l1 = true ∧ single_spaced U l2 = true.
Proof.
  induction l1 as [|x l1 IH]; [done|].
  cbn [app single_spaced]. intros [Hx Hrest]%andb_true_iff.
  destruct (IH Hrest) as [H1 H2]. split; [|done].
  rewrite H1, andb_true_r. destruct l1 as [|y l1]; [done|]. exact Hx.
Qed.

Lemma collapse_from_spacing in_run s :
  single_spaced U (collapse_from U in_run s) = true
  ∧ (in_run = true →
     ∀ c, head (collapse_from U in_run s) = Some c → isspace U c = false).
Proof.
  revert in_run. induction s as [|x s IH]; intros in_run; [done|].
  cbn [collapse_from]. destruct (isspace U x) eqn:Hx.
  - destruct in_run; [apply IH|]. split; [|done].
    destruct (IH true) as [Hs Hh]. cbn [single_spaced]. rewrite Hs, andb_true_r.
    destruct (collapse_from U true s) as [|y out] eqn:E; [done|].
    rewrite (Hh eq_refl y eq_refl). by rewrite andb_false_r.
  - split.
    + apply single_spaced_cons; [done | apply IH].
    + by intros _ c [= <-].
Qed.

Lemma collapse_from_space in_run s c :
  c ∈ collapse_from U in_run s → isspace U c = true → c = 32%N.
Proof.
  revert in_run. induction s as [|x s IH]; intros in_run; cbn [collapse_from].
  - by intros ?%elem_of_nil.
  - destruct (isspace U x) eqn:Hx.
    + destruct in_run; [apply IH|].
      intros [->|H]%elem_of_cons; [done | by eapply IH].
    + intros [->|H]%elem_of_cons; [congruence | by eapply IH].
Qed.

Lemma lstrip_suffix s : ∃ l, s = l ++ lstrip U s.
Proof.
  induction s as [|x s [l IH]]; [by exists []|]. cbn [lstrip].
  destruct (isspace U x); [|by exists []].
  exists (x :: l). by rewrite IH at 1.
Qed.

Lemma lstrip_head s c : head (lstrip U s) = Some c → isspace U c = false.
Proof.
  induction s as [|x s IH]; [done|]. cbn [lstrip].
  destruct (isspace U x) eqn:Hx; [done|]. by intros [= <-].
Qed.

Lemma rstrip_prefix s : ∃ l, s = rstrip U s ++ l.
Proof.
  unfold rstrip. destruct (lstrip_suffix (reverse s)) as [l Hl].
  exists (reverse l). rewrite <- reverse_app, <- Hl. by rewrite reverse_involutive.
Qed.

Lemma rstrip_last s c : last (rstrip U s) = Some c → isspace U c = false.
Proof. unfold rstrip. rewrite last_reverse. apply lstrip_head. Qed.

Lemma rstrip_head s c :
  head (rstrip U s) = Some c → head s = Some c.
Proof.
  destruct (rstrip_prefix s) as [l Hl]. intros H. rewrite Hl.
  by destruct (rstrip U s).
Qed.

End Spacing.

(** X1. The text that [normalize_text] returns is in normal form as far as
    white space goes: the only white space in it is the space character,
    no two white-space characters are neighbours, and it neither starts
    nor ends with white space. *)
Theorem normalize_text_spacing (U : Unicode) (text : pystr) :
  (∀ c, c ∈ normalize_text U text → isspace U c = true → c = 32%N)
  ∧ single_spaced U (normalize_text U text) = true
  ∧ (∀ c, head (normalize_text U text) = Some c → isspace U c = false)
  ∧ (∀ c, last (normalize_text U text) = Some c → isspace U c = false).
Proof.
  unfold normalize_text, strip, collapse_spaces.
  set (t := collapse_from U false (List.filter (kept U) (lower U text))).
  destruct (rstrip_prefix U (lstrip U t)) as [l2 H2].
  destruct (lstrip_suffix U t) as [l1 H1].
  assert (single_spaced U t = true) as Ht by apply collapse_from_spacing.
  repeat split.
  - intros c Hc.
    apply (collapse_from_space U false
             (List.filter (kept U) (lower U text)) c).
    fold t. rewrite H1, H2. set_solver.
  - rewrite H1, H2 in Ht. apply single_spaced_app in Ht as [_ Ht].
    by apply single_spaced_app in Ht as [Ht _].
  - intros c Hc%rstrip_head. by apply lstrip_head in Hc.
  - apply rstrip_last.
Qed.

Section FindAll.
Context (U : Unicode).

(** A run of a class, with nothing after it in the pattern. *)
Lemma star_run (c : char → bool) s n :
  ∃ w rest, star c (fun _ n => Some n) s n = Some (n + length w)
    ∧ s = w ++ rest ∧ forallb c w = true.
Proof.
  revert n. induction s as [|x s IH]; intros n.
  - exists [], []. cbn. by rewrite Nat.add_0_r.
  - cbn [star]. destruct (c x) eqn:Hx.
    + destruct (IH (S n)) as (w & rest & -> & -> & Hw).
      exists (x :: w), rest. cbn [length forallb app]. rewrite Hx, Hw.
      split; [f_equal; lia | done].
    + exists [], (x :: s). cbn. by rewrite Nat.add_0_r.
Qed.

Lemma alternation_some text position e :
  utils.alternation U text position = Some e →
  ∃ w rest, drop position text = w ++ rest ∧ w ≠ [] ∧ e = position + length w
    ∧ (forallb (isword U) w = true
       ∨ ∃ c, w = [c] ∧ utils.ispunct c = true).
Proof.
  unfold utils.alternation, re_match, utils.re_words, utils.re_punct.
  cbn [rmatch]. destruct (drop position text) as [|x s]; [done|].
  destruct (isword U x) eqn:Hx.
  - destruct (star_run (isword U) s (S position)) as (w & rest & -> & -> & Hw).
    intros [= <-]. exists (x :: w), rest. cbn [length forallb]. rewrite Hx, Hw.
    repeat split; [done | lia | by left].
  - destruct (utils.ispunct x) eqn:Hp; [|done].
    intros [= <-]. exists [x], s. repeat split; [done | cbn; lia |].
    right. by exists x.
Qed.

Lemma alternation_none text position x s :
  utils.alternation U text position = None →
  drop position text = x :: s →
  isword U x || utils.ispunct x = false.
Proof.
  unfold utils.alternation, re_match, utils.re_words, utils.re_punct.
  cbn [rmatch]. intros H E. rewrite E in H.
  destruct (isword U x) eqn:Hx.
  - destruct (star_run (isword U) s (S position)) as (w & rest & Hs & _).
    by rewrite Hs in H.
  - by destruct (utils.ispunct x).
Qed.

Lemma filter_all {X} (f : X → bool) l :
  forallb f l = true → List.filter f l = l.
Proof.
  induction l as [|x l IH]; [done|]. cbn [forallb List.filter].
  intros [-> Hl]%andb_true_iff. by rewrite IH.
Qed.

Lemma forallb_weaken {X} (f g : X → bool) l :
  (∀ x, f x = true → g x = true) → forallb f l = true → forallb g l = true.
Proof.
  intros Hfg. induction l as [|x l IH]; [done|]. cbn [forallb].
  intros [Hx Hl]%andb_true_iff. by rewrite (Hfg x Hx), IH.
Qed.

(** With fuel beyond the characters left, the scan of [findall] ends; the
    matches it adds are the kept characters of the rest of the text. *)
Lemma findall_matches fuel text position matches :
  length text - position < fuel →
  ∃ toks,
    utils.findall U fuel text position matches = Some (matches ++ toks)
    ∧ concat toks
      = List.filter (fun c => isword U c || utils.ispunct c) (drop position text)
    ∧ Forall (fun t => t ≠ [] ∧ (forallb (isword U) t = true
                                 ∨ ∃ c, t = [c] ∧ utils.ispunct c = true)) toks.
Proof.
  revert position matches.
  induction fuel as [|fuel IH]; intros position matches Hfuel; [lia|].
  cbn [utils.findall]. case_decide as Hpos.
  - destruct (utils.alternation U text position) as [e|] eqn:E.
    + destruct (alternation_some _ _ _ E) as (w & rest & Hd & Hne & -> & Hw).
      assert (w ≠ [] → 0 < length w) as Hlen by (destruct w; [done | cbn; lia]).
      specialize (Hlen Hne).
      destruct (IH (position + length w) (matches ++ [group text position (position + length w)]))
        as (toks & -> & Hcat & Hall); [lia|].
      assert (group text position (position + length w) = w) as Hg.
      { unfold group. rewrite Hd.
        replace (position + length w - position) with (length w) by lia.
        by rewrite take_app_length. }
      rewrite Hg in *. exists (w :: toks). split; [by rewrite <- app_assoc|].
      split; [|by constructor].
      cbn [concat]. rewrite Hcat, <- drop_drop, Hd, drop_app_length.
      rewrite List.filter_app. f_equal. symmetry. apply filter_all.
      destruct Hw as [Hw|(c & -> & Hc)].
      * eapply forallb_weaken; [|exact Hw]. by intros x ->.
      * cbn. by rewrite Hc, orb_true_r.
    + destruct (drop position text) as [|x s] eqn:Hd.
      { apply (f_equal length) in Hd. rewrite length_drop in Hd. cbn in Hd. lia. }
      destruct (IH (position + 1) matches) as (toks & -> & Hcat & Hall); [lia|].
      exists toks. split; [done|]. split; [|done].
      rewrite Hcat, <- drop_drop, Hd. cbn [drop List.filter].
      by rewrite (alternation_none _ _ _ _ E Hd).
  - exists []. split; [by rewrite app_nil_r|]. split; [|done].
    rewrite drop_ge by lia. done.
Qed.

End FindAll.

(** X2. [utils.tokenize] returns for every text.  Its tokens, put one after
    the other, are the word and punctuation characters of the text in
    their order: only the other characters are lost.  No token
    is empty; each is a run of word characters or one punctuation mark. *)
Theorem utils_tokenize_keeps_words_and_punctuation (U : Unicode) (text : pystr) :
  ∃ toks,
    utils.tokenize U text = Some toks
    ∧ concat toks
      = List.filter (fun c => isword U c || utils.ispunct c) text
    ∧ Forall (fun t => t ≠ [] ∧ (forallb (isword U) t = true
                                 ∨ ∃ c, t = [c] ∧ utils.ispunct c = true)) toks.
Proof.
  destruct (findall_matches U (S (length text)) text 0 []) as (toks & H); [lia|].
  by exists toks.
Qed.

(* ================================================================== *)
(** * format_python_code *)
(* ================================================================== *)

Section Formatter.
Context (U : Unicode).

Lemma endswith_nil c : endswith [] c = false.
Proof. done. Qed.

Lemma format_lines_closed lines : ∀ indent_level formatted_lines,
  format_lines U lines indent_level formatted_lines
  = formatted_lines
    ++ indent_by_colons
         (List.filter (fun s => negb (bool_decide (s = [])))
            (map (strip U) lines))
         indent_level.
Proof.
  induction lines as [|line lines IH]; intros k acc;
    cbn [format_lines map List.filter].
  { by rewrite app_nil_r. }
  destruct (endswith (strip U line) 58%N) eqn:Hcolon.
  { assert (strip U line ≠ []) as Hne by (intros E; by rewrite E in Hcolon).
    rewrite bool_decide_eq_false_2 by done. cbn [negb indent_by_colons].
    rewrite Hcolon, IH. by rewrite <- app_assoc. }
  case_bool_decide as Helse.
  { rewrite !elem_of_cons, elem_of_nil in Helse.
    destruct Helse as [E|[E|[E|[E|[]]]]]; rewrite E in Hcolon;
      by vm_compute in Hcolon. }
  case_bool_decide as Hword.
  { assert (strip U line ≠ []) as Hne.
    { intros E. rewrite E in Hword. rewrite !elem_of_cons, elem_of_nil in Hword.
      by destruct Hword as [?|[?|[?|[?|[]]]]]. }
    rewrite bool_decide_eq_false_2 by done. cbn [negb indent_by_colons].
    rewrite Hcolon, IH. by rewrite <- app_assoc. }
  destruct (decide (strip U line = [])) as [Hempty|Hne].
  - rewrite !(bool_decide_eq_true_2 _ Hempty). cbn [negb]. by rewrite IH.
  - rewrite !(bool_decide_eq_false_2 _ Hne). cbn [negb indent_by_colons].
    rewrite Hcolon, IH. by rewrite <- app_assoc.
Qed.

End Formatter.

(** X3. [format_python_code] drops the blank lines and puts every other line,
    stripped, after four spaces for each earlier non-blank line that ends in
    a colon.  So the indentation never decreases from one line to the
    next: the step back for [else:], [elif:], [except:] and [finally:] is
    never taken, since these lines end in a colon. *)
Theorem format_python_code_never_dedents (U : Unicode) (code : pystr)
    (self : CodeGenerator) :
  format_python_code U (Some code) self
  = Ok (join nl (indent_by_colons (stripped_lines U code) 0)) self.
Proof.
  unfold format_python_code, ret, stripped_lines.
  by rewrite format_lines_closed.
Qed.

Section FormatTwice.
Context (U : Unicode).
Hypothesis Hspace : isspace U 32%N = true.

Lemma lstrip_id s :
  (∀ c, head s = Some c → isspace U c = false) → lstrip U s = s.
Proof. destruct s as [|x s]; [done|]. intros H. cbn. by rewrite (H x). Qed.

Lemma rstrip_id s :
  (∀ c, last s = Some c → isspace U c = false) → rstrip U s = s.
Proof.
  intros H. unfold rstrip. rewrite lstrip_id; [apply reverse_involutive|].
  intros c. rewrite head_reverse. apply H.
Qed.

Lemma strip_strip s : strip U (strip U s) = strip U s.
Proof.
  unfold strip at 1. rewrite lstrip_id.
  - apply rstrip_id. unfold strip. apply rstrip_last.
  - unfold strip. intros c Hc%rstrip_head. by apply lstrip_head in Hc.
Qed.

Lemma lstrip_indent k s : lstrip U (times (u "    ") k ++ s) = lstrip U s.
Proof.
  unfold times. induction (Z.to_nat k) as [|n IH]; [done|].
  cbn [replicate concat]. rewrite <- app_assoc.
  change (u "    ") with [32%N; 32%N; 32%N; 32%N] at 1.
  cbn [app lstrip]. by rewrite Hspace.
Qed.

Lemma strip_indent k s : strip U (times (u "    ") k ++ s) = strip U s.
Proof. unfold strip. by rewrite lstrip_indent. Qed.

Lemma indent_no_newline k : 10%N ∉ times (u "    ") k.
Proof.
  unfold times. induction (Z.to_nat k) as [|n IH]; cbn [replicate concat].
  - apply not_elem_of_nil.
  - rewrite elem_of_app. intros [H|H]; [|done].
    revert H. decided (10%N ∉ u "    ").
Qed.

Lemma indent_by_colons_strip S : ∀ k,
  Forall (fun s => strip U s = s) S →
  map (strip U) (indent_by_colons S k) = S.
Proof.
  induction S as [|s S IH]; intros k HS; [done|].
  apply Forall_cons in HS as [Hs HS]. cbn [indent_by_colons map].
  by rewrite strip_indent, Hs, IH.
Qed.

Lemma indent_by_colons_no_newline S : ∀ k,
  Forall (fun s => 10%N ∉ s) S →
  Forall (fun s => 10%N ∉ s) (indent_by_colons S k).
Proof.
  induction S as [|s S IH]; intros k HS; [done|].
  apply Forall_cons in HS as [Hs HS]. cbn [indent_by_colons].
  constructor; [|by apply IH].
  rewrite elem_of_app. intros [H|H]; [by apply indent_no_newline in H | done].
Qed.

Lemma split_lines_no_newline s : ∀ cur,
  10%N ∉ cur → Forall (fun l => 10%N ∉ l) (split_lines s cur).
Proof.
  induction s as [|c s IH]; intros cur Hcur; cbn [split_lines].
  - by constructor.
  - destruct (c =? 10)%N eqn:Hc.
    + constructor; [done|]. apply IH, not_elem_of_nil.
    + apply IH. rewrite elem_of_app, list_elem_of_singleton.
      intros [H|H]; [done|]. subst c. by rewrite N.eqb_refl in Hc.
Qed.

Lemma split_lines_line l : ∀ rest cur,
  10%N ∉ l → split_lines (l ++ rest) cur = split_lines rest (cur ++ l).
Proof.
  induction l as [|c l IH]; intros rest cur Hl.
  - by rewrite app_nil_r.
  - apply not_elem_of_cons in Hl as [Hc Hl]. cbn [app split_lines].
    destruct (c =? 10)%N eqn:E; [apply N.eqb_eq in E; congruence|].
    rewrite IH by done. by rewrite <- app_assoc.
Qed.

Lemma split_lines_join ls : ∀ x cur,
  10%N ∉ x → Forall (fun l => 10%N ∉ l) ls →
  split_lines (join nl (x :: ls)) cur = (cur ++ x) :: ls.
Proof.
  induction ls as [|y ls IH]; intros x cur Hx Hls.
  - cbn [join]. rewrite <- (app_nil_r x) at 1. by rewrite split_lines_line.
  - apply Forall_cons in Hls as [Hy Hls].
    change (join nl (x :: y :: ls)) with (x ++ nl ++ join nl (y :: ls)).
    rewrite split_lines_line by done. cbn [nl app split_lines].
    rewrite N.eqb_refl. by rewrite IH.
Qed.

Lemma stripped_lines_stripped code :
  Forall (fun s => s ≠ [] ∧ strip U s = s ∧ 10%N ∉ s) (stripped_lines U code).
Proof.
  unfold stripped_lines. apply Forall_forall. intros s Hs.
  apply list_elem_of_In, List.filter_In in Hs as [Hs Hne].
  apply list_elem_of_In, list_elem_of_fmap in Hs as (line & -> & Hline).
  split; [|split].
  - intros E. by rewrite E in Hne.
  - apply strip_strip.
  - intros H%strip_subseteq. revert H.
    pose proof (split_lines_no_newline code [] (not_elem_of_nil _)) as Hall.
    rewrite Forall_forall in Hall. by apply Hall.
Qed.

Lemma filter_nonempty S :
  Forall (fun s : pystr => s ≠ []) S →
  List.filter (fun s => negb (bool_decide (s = []))) S = S.
Proof.
  intros HS. apply filter_all. apply forallb_forall. intros s Hs%list_elem_of_In.
  rewrite Forall_forall in HS. by rewrite bool_decide_eq_false_2 by by apply HS.
Qed.

Lemma stripped_lines_formatted code :
  stripped_lines U (join nl (indent_by_colons (stripped_lines U code) 0))
  = stripped_lines U code.
Proof.
  pose proof (stripped_lines_stripped code) as HS.
  set (S := stripped_lines U code) in *.
  assert (Forall (fun s => strip U s = s) S) as Hstrip
    by (eapply Forall_impl; [exact HS|]; by intros ? (?&?&?)).
  assert (Forall (fun s => 10%N ∉ s) S) as Hnl
    by (eapply Forall_impl; [exact HS|]; by intros ? (?&?&?)).
  assert (Forall (fun s : pystr => s ≠ []) S) as Hne
    by (eapply Forall_impl; [exact HS|]; by intros ? (?&?&?)).
  pose proof (indent_by_colons_strip S 0 Hstrip) as Hmap.
  pose proof (indent_by_colons_no_newline S 0 Hnl) as Hlines.
  unfold stripped_lines at 1.
  destruct (indent_by_colons S 0) as [|x ls] eqn:E.
  - destruct S; [by vm_compute | done].
  - apply Forall_cons in Hlines as [Hx Hls].
    rewrite split_lines_join by done. cbn [app].
    etrans; [exact (f_equal (List.filter _) Hmap) | by apply filter_nonempty].
Qed.

End FormatTwice.

(** X4. Formatting is idempotent: formatting the text that
    [format_python_code] returns gives that text again (the space
    character being white space). *)
Theorem format_python_code_idempotent (U : Unicode) (code : pystr)
    (self : CodeGenerator) :
  isspace U 32%N = true →
  ∃ out,
    format_python_code U (Some code) self = Ok out self
    ∧ format_python_code U (Some out) self = Ok out self.
Proof.
  intros Hspace.
  exists (join nl (indent_by_colons (stripped_lines U code) 0)).
  unfold format_python_code, ret. rewrite !format_lines_closed. cbn [app].
  fold (stripped_lines U code).
  fold (stripped_lines U (join nl (indent_by_colons (stripped_lines U code) 0))).
  by rewrite stripped_lines_formatted.
Qed.

Lemma format_python_code_idempotent_witness :
  isspace ascii_unicode 32%N = true
  ∧ ∃ out,
      format_python_code ascii_unicode (Some (u "if x:" ++ nl ++ u "  y"))
        new_generator = Ok out new_generator
      ∧ format_python_code ascii_unicode (Some out) new_generator
        = Ok out new_generator.
Proof.
  split; [reflexivity|].
  apply (format_python_code_idempotent ascii_unicode). reflexivity.
Defined.

(* ================================================================== *)
(** * Further properties of the lexer *)
(* ================================================================== *)

Section TokenPositions.
Context (U : Unicode) (L : LexicalAnalyzer).

Lemma token_func_position re f m p :
  (re, Some f) ∈ patterns U L → position (f m p) = Z.of_nat p.
Proof.
  unfold patterns. rewrite !elem_of_cons, elem_of_nil.
  intros [H|[H|[H|[H|[H|[H|[H|[H|[]]]]]]]]];
    try discriminate H; injection H as -> ->; try done.
  unfold _identify_word. case_decide; [done|].
  destruct (keyword_mapping L !! lower U m); [done|].
  by destruct (special_category (special_tokens L) (lower U m)).
Qed.

Lemma re_match_end r text position e :
  position ≤ length text → re_match r text position = Some e →
  e ≤ length text.
Proof.
  unfold re_match. intros Hpos H%rmatch_bounded.
  rewrite length_drop in H. lia.
Qed.

Lemma positions_increase_weaken from from' bound toks :
  (from ≤ from')%Z → positions_increase from' bound toks →
  positions_increase from bound toks.
Proof. destruct toks; [done|]. cbn. intros ? [? ?]. split; [lia|done]. Qed.

Lemma scan_positions text position toks final :
  scan U L text position toks final → position ≤ length text →
  final = length text
  ∧ positions_increase (Z.of_nat position) (Z.of_nat (length text)) toks.
Proof.
  induction 1 as [position Hend
                 | position i re f e toks final Hpos (Hi & Hm & _) _ IH
                 | position i re e toks final Hpos (Hi & Hm & _) _ IH
                 | position toks final Hpos _ _ IH]; intros Hle.
  - split; [lia|done].
  - apply list_elem_of_lookup_2 in Hi.
    pose proof (re_match_progress _ _ _ _ (patterns_consuming U L _ Hi) Hm).
    destruct IH as [-> IH]; [by eapply re_match_end|]. split; [done|].
    cbn [positions_increase]. rewrite (token_func_position re) by done.
    split; [lia|]. eapply positions_increase_weaken; [|exact IH]. lia.
  - apply list_elem_of_lookup_2 in Hi.
    pose proof (re_match_progress _ _ _ _ (patterns_consuming U L _ Hi) Hm).
    destruct IH as [-> IH]; [by eapply re_match_end|]. split; [done|].
    eapply positions_increase_weaken; [|exact IH]. lia.
  - destruct IH as [-> IH]; [lia|]. split; [done|].
    eapply positions_increase_weaken; [|exact IH]. lia.
Qed.

End TokenPositions.

(** X5. The positions of the tokens that [tokenize] returns increase
    strictly and lie inside the normalized text; the position of the final
    EOF token is the length of the normalized text. *)
Theorem tokenize_positions (U : Unicode) (L : LexicalAnalyzer) (text : pystr) :
  ∃ toks,
    tokenize U L text
    = Some (toks ++ [mkToken (u "EOF") []
                       (Z.of_nat (length (normalize_text U text)))])
    ∧ positions_increase 0 (Z.of_nat (length (normalize_text U text))) toks.
Proof.
  destruct (tokenize_scan U L text) as (toks & final & Htok & Hscan).
  apply scan_positions in Hscan as [-> Hpos]; [|lia].
  by exists toks.
Qed.

Section DefaultWords.
Context (U : Unicode).

Lemma python_keywords_unmapped word :
  word ∈ python_keywords → KEYWORD_MAPPING !! word = None.
Proof.
  unfold python_keywords. rewrite !elem_of_cons, elem_of_nil.
  intros H. repeat (destruct H as [->|H]; [by vm_compute|]). destruct H.
Qed.

Lemma default_special_category word ty :
  special_category (special_tokens default_lexer) word = Some ty →
  ty ≠ u "KEYWORD"
  ∧ (ty = u "LOOP" → word ∈ [u "para"; u "mientras"; u "for"; u "while"])
  ∧ (ty = u "CONDITION" → word ∈ [u "si"; u "if"; u "sino"; u "else"]).
Proof.
  intros (ws & Hin & Hw)%special_category_some.
  change (special_tokens default_lexer) with SPECIAL_TOKENS in Hin.
  unfold SPECIAL_TOKENS in Hin. rewrite !elem_of_cons, elem_of_nil in Hin.
  destruct Hin as [Hin|[Hin|[Hin|[Hin|[Hin|[Hin|[]]]]]]];
    injection Hin as -> ->;
    (split; [differ|]); split; first [differ | by intros _].
Qed.

(** What [_identify_word] makes of a word under the default
    configuration. *)
Lemma identify_word_default m p :
  let t := _identify_word U default_lexer m p in
  (type t = u "KEYWORD" → KEYWORD_MAPPING !! value t = None)
  ∧ type t ≠ u "LOOP" ∧ type t ≠ u "CONDITION".
Proof.
  unfold _identify_word.
  change (keyword_mapping default_lexer) with KEYWORD_MAPPING.
  case_decide as Hpy.
  { cbn [type value]. split; [intros _; by apply python_keywords_unmapped|].
    split; differ. }
  destruct (KEYWORD_MAPPING !! lower U m) as [mapped|] eqn:Hmap.
  { cbn [type value].
    split; [intros _; by eapply KEYWORD_MAPPING_values_unmapped|].
    split; differ. }
  destruct (special_category (special_tokens default_lexer) (lower U m))
    as [ty|] eqn:Hs; cbn [type value].
  - destruct (default_special_category _ _ Hs) as (Hk & Hloop & Hcond).
    split; [done|]. split.
    + intros Hty. specialize (Hloop Hty).
      rewrite !elem_of_cons, elem_of_nil in Hloop.
      destruct Hloop as [E|[E|[E|[E|[]]]]]; rewrite E in Hpy, Hmap;
        first [by vm_compute in Hmap | apply Hpy; decided (u "for" ∈ python_keywords)
              | apply Hpy; decided (u "while" ∈ python_keywords)].
    + intros Hty. specialize (Hcond Hty).
      rewrite !elem_of_cons, elem_of_nil in Hcond.
      destruct Hcond as [E|[E|[E|[E|[]]]]]; rewrite E in Hpy, Hmap;
        first [by vm_compute in Hmap | apply Hpy; decided (u "if" ∈ python_keywords)
              | apply Hpy; decided (u "else" ∈ python_keywords)].
  - split; [differ|]. split; differ.
Qed.

Lemma emitted_default text t :
  emitted U default_lexer text t →
  (type t = u "KEYWORD" → KEYWORD_MAPPING !! value t = None)
  ∧ type t ≠ u "LOOP" ∧ type t ≠ u "CONDITION".
Proof.
  intros (re & f & position & e & Hin & Hm & ->).
  unfold patterns in Hin. rewrite !elem_of_cons, elem_of_nil in Hin.
  destruct Hin as [Hin|[Hin|[Hin|[Hin|[Hin|[Hin|[Hin|[Hin|[]]]]]]]]];
    try discriminate Hin; injection Hin as -> ->;
    first [ apply identify_word_default
          | unfold plain; cbn [type value]; split; [differ|]; split; differ ].
Qed.

Lemma tokenize_default text :
  ∃ toks,
    tokenize U default_lexer text = Some toks
    ∧ Forall (fun t => (type t = u "KEYWORD" → KEYWORD_MAPPING !! value t = None)
                       ∧ type t ≠ u "LOOP" ∧ type t ≠ u "CONDITION") toks.
Proof.
  destruct (tokenize_scan U default_lexer text) as (toks & final & Htok & Hscan).
  eexists. split; [exact Htok|]. apply Forall_app. split.
  - apply scan_emitted in Hscan. eapply Forall_impl; [exact Hscan|].
    intros t. apply emitted_default.
  - constructor; [|done]. cbn [type value]. split; [differ|]. split; differ.
Qed.

End DefaultWords.

(** X6. With the default configuration, [map_to_python_tokens] changes nothing
    in the tokens that [tokenize] returns: [tokenize] has already replaced
    every mapped word, and no Python keyword is itself a key of the
    mapping. *)
Theorem map_to_python_tokens_after_tokenize (U : Unicode) (text : pystr) :
  ∃ toks,
    tokenize U default_lexer text = Some toks
    ∧ map_to_python_tokens default_lexer toks = toks.
Proof.
  destruct (tokenize_default U text) as (toks & Htok & Hall).
  exists toks. split; [done|].
  unfold map_to_python_tokens.
  change (keyword_mapping default_lexer) with KEYWORD_MAPPING.
  clear Htok. induction Hall as [|t toks [Ht _] _ IH]; [done|].
  cbn [map]. rewrite IH. f_equal.
  case_decide as Hty; [|done]. by rewrite (Ht Hty).
Qed.

(** X7. With the default configuration, [tokenize] never returns a token of
    type LOOP or CONDITION: every word of these two categories of
    [SPECIAL_TOKENS] is a Python keyword or a key of the keyword mapping,
    and those tests come first in [_identify_word]. *)
Theorem tokenize_never_loop_or_condition (U : Unicode) (text : pystr) :
  ∃ toks,
    tokenize U default_lexer text = Some toks
    ∧ Forall (fun t => type t ≠ u "LOOP" ∧ type t ≠ u "CONDITION") toks.
Proof.
  destruct (tokenize_default U text) as (toks & Htok & Hall).
  exists toks. split; [done|].
  eapply Forall_impl; [exact Hall|]. by intros t (_ & ? & ?).
Qed.

(* ================================================================== *)
(** * The trees of the parser *)
(* ================================================================== *)

Section Returns.
Context {S A B : Type}.

Lemma returns_ret (Q : A → Prop) (a : A) : Q a → returns (S:=S) Q (ret a).
Proof. by intros H s. Qed.

Lemma returns_raise (Q : A → Prop) e : returns (S:=S) Q (raise e).
Proof. by intros s. Qed.

Lemma returns_out_of_fuel (Q : A → Prop) : returns (S:=S) Q out_of_fuel.
Proof. by intros s. Qed.

Lemma returns_bind (Q : A → Prop) (Q' : B → Prop) (m : M S A) (f : A → M S B) :
  returns Q m → (∀ a, Q a → returns Q' (f a)) → returns Q' (bind m f).
Proof.
  intros Hm Hf s. apply wp_bind. eapply wp_mono; [apply Hm| | |]; try done.
  intros a s' Ha. by apply Hf.
Qed.

Lemma returns_bind_any (Q' : B → Prop) (m : M S A) (f : A → M S B) :
  (∀ a, returns Q' (f a)) → returns Q' (bind m f).
Proof.
  intros Hf. apply (returns_bind (fun _ => True)); [|by intros a _].
  intros s. unfold wp. by destruct (m s).
Qed.

End Returns.

Lemma well_formed_node ty v kids :
  well_formed (mkNode ty v kids)
  = (arity ty <=? length kids)
    && (if Semantic.is_type "VARIABLE" ty then bool_decide (is_Some v) else true)
    && (if Semantic.is_type "PARAMETERS" ty then forallb has_value kids else true)
    && forallb well_formed kids.
Proof. done. Qed.

(** The tree just built is well formed, its parts being so. *)
Ltac built :=
  cbv beta in *; unfold node0, leaf;
  repeat (rewrite well_formed_node; cbn [forallb]);
  unfold arity, Semantic.is_type; eval_tests;
  cbn [length Nat.leb forallb andb has_value node_value];
  repeat match goal with H : _ = true |- _ => rewrite H end;
  try rewrite bool_decide_eq_true_2 by (by eexists);
  done.

(** A step of the parser whose result does not matter for the shape. *)
Ltac skip := apply returns_bind_any; intro.

Lemma arguments_loop_shaped pe :
  shaped pe →
  ∀ fuel args, forallb well_formed args = true →
    returns (fun l => forallb well_formed l = true)
      (Parser.arguments_loop pe fuel args).
Proof.
  unfold shaped. intros Hpe. induction fuel as [|fuel IH]; intros args Hargs;
    cbn [Parser.arguments_loop]; [apply returns_out_of_fuel|].
  eapply returns_bind; [exact Hpe|]. intros a Ha. skip.
  destruct (is_delimiter "," _).
  - skip. apply IH. by apply forallb_snoc.
  - apply returns_ret. by apply forallb_snoc.
Qed.

Lemma parse_expression_shaped fuel : shaped (Parser.parse_expression fuel).
Proof.
  unfold shaped in *.
  induction fuel as [|fuel IH]; cbn [Parser.parse_expression];
    [apply returns_out_of_fuel|].
  skip. case_decide; [skip; apply returns_ret; built|].
  case_decide; [skip; apply returns_ret; built|].
  case_decide.
  { skip. skip. destruct (is_delimiter "(" _); [|apply returns_ret; built].
    skip. skip.
    apply (returns_bind (fun l => forallb well_formed l = true)).
    - destruct (negb _); [by apply arguments_loop_shaped | by apply returns_ret].
    - intros args Hargs. skip. apply returns_ret. built. }
  destruct (is_delimiter "(" _).
  - skip. eapply returns_bind; [exact IH|]. intros expr Hexpr. skip.
    by apply returns_ret.
  - skip. apply returns_ret. built.
Qed.

Lemma parse_expression_statement_shaped fuel :
  shaped (Parser.parse_expression_statement fuel).
Proof.
  unfold shaped in *.
  unfold Parser.parse_expression_statement. skip. skip.
  destruct (Parser.assignment_ahead _ _); [|apply parse_expression_shaped].
  skip. skip. eapply returns_bind; [apply parse_expression_shaped|].
  intros expr Hexpr. apply returns_ret. built.
Qed.

Lemma parse_block_shaped pst : shaped pst → shaped (Parser.parse_block pst).
Proof.
  unfold shaped in *.
  intros Hst. unfold Parser.parse_block. skip. skip. skip. case_decide.
  - eapply returns_bind; [exact Hst|]. intros st Hst'.
    apply returns_ret. built.
  - apply returns_ret. built.
Qed.

Lemma parameters_loop_shaped fuel : ∀ params,
  forallb well_formed params = true → forallb has_value params = true →
  returns (fun l => forallb well_formed l = true ∧ forallb has_value l = true)
    (Parser.parameters_loop fuel params).
Proof.
  induction fuel as [|fuel IH]; intros params Hwf Hval;
    cbn [Parser.parameters_loop]; [apply returns_out_of_fuel|].
  skip. case_decide; [by apply returns_ret|]. skip. skip.
  assert (forallb well_formed (params ++ [leaf "PARAMETER" (value a)]) = true)
    as Hwf' by (apply forallb_snoc; [done | built]).
  assert (forallb has_value (params ++ [leaf "PARAMETER" (value a)]) = true)
    as Hval' by (apply forallb_snoc; [done | built]).
  destruct (is_delimiter "," _).
  - skip. by apply IH.
  - by apply returns_ret.
Qed.

Lemma parse_function_definition_shaped fuel pst :
  shaped pst → shaped (Parser.parse_function_definition fuel pst).
Proof.
  unfold shaped in *.
  intros Hst. unfold Parser.parse_function_definition. do 6 skip.
  apply (returns_bind (fun l => forallb well_formed l = true
                              ∧ forallb has_value l = true)).
  { destruct (negb _); [by apply parameters_loop_shaped | by apply returns_ret]. }
  intros params [Hwf Hval]. skip. skip.
  eapply returns_bind; [by apply parse_block_shaped|]. intros body Hbody.
  apply returns_ret. built.
Qed.

Lemma parse_if_statement_shaped fuel pst :
  shaped pst → shaped (Parser.parse_if_statement fuel pst).
Proof.
  unfold shaped in *.
  intros Hst. unfold Parser.parse_if_statement. skip.
  eapply returns_bind; [apply parse_expression_shaped|]. intros cond Hcond.
  eapply returns_bind; [by apply parse_block_shaped|]. intros thn Hthn.
  skip. destruct (is_keyword "else" _); [|apply returns_ret; built].
  skip. eapply returns_bind; [by apply parse_block_shaped|]. intros els Hels.
  apply returns_ret. built.
Qed.

Lemma parse_loop_shaped fuel pst :
  shaped pst → shaped (Parser.parse_loop fuel pst).
Proof.
  unfold shaped in *.
  intros Hst. unfold Parser.parse_loop. skip. case_decide.
  - skip. skip. skip.
    eapply returns_bind; [apply parse_expression_shaped|]. intros it Hit.
    eapply returns_bind; [by apply parse_block_shaped|]. intros body Hbody.
    apply returns_ret. built.
  - eapply returns_bind; [apply parse_expression_shaped|]. intros cond Hcond.
    eapply returns_bind; [by apply parse_block_shaped|]. intros body Hbody.
    apply returns_ret. built.
Qed.

Lemma parse_statement_shaped fuel : shaped (Parser.parse_statement fuel).
Proof.
  unfold shaped in *.
  induction fuel as [|fuel IH]; cbn [Parser.parse_statement];
    [apply returns_out_of_fuel|].
  skip. destruct (is_keyword "def" _);
    [by apply parse_function_definition_shaped|].
  destruct (is_keyword "if" _); [by apply parse_if_statement_shaped|].
  destruct (_ && _); [by apply parse_loop_shaped|].
  apply parse_expression_statement_shaped.
Qed.

Lemma program_loop_shaped pst :
  shaped pst →
  ∀ fuel stmts, forallb well_formed stmts = true →
    returns (fun l => forallb well_formed l = true)
      (Parser.program_loop pst fuel stmts).
Proof.
  unfold shaped in *.
  intros Hst. induction fuel as [|fuel IH]; intros stmts Hstmts;
    cbn [Parser.program_loop]; [apply returns_out_of_fuel|].
  skip. case_decide; [|by apply returns_ret].
  eapply returns_bind; [exact Hst|]. intros st Hst'.
  apply IH. by apply forallb_snoc.
Qed.

Lemma parse_program_shaped fuel : shaped (Parser.parse_program fuel).
Proof.
  unfold shaped in *.
  unfold Parser.parse_program.
  eapply returns_bind;
    [by apply program_loop_shaped; [apply parse_statement_shaped|]|].
  intros stmts Hstmts. apply returns_ret. built.
Qed.

(** X8. Every tree that [parse] returns has the shape that the semantic
    analyzer and the code generator rely on: each node has the children
    that they index, and every VARIABLE and PARAMETER node has a name. *)
Theorem parse_well_formed (toks : list Token) :
  match Parser.parse toks with
  | Parser.Returns (Some ast) => well_formed ast = true
  | Parser.Returns None => True
  | Parser.Unfinished => False
  end.
Proof.
  pose proof (parse_program_wp toks (length toks + 2) (le_n _)) as Hret.
  pose proof (parse_program_shaped (length toks + 2) (mkParser toks 0)) as Hwf.
  unfold Parser.parse, Parser.parse_with, wp in *.
  by destruct (Parser.parse_program (length toks + 2) (mkParser toks 0)).
Qed.

(* ================================================================== *)
(** * The analysis of a well-formed tree *)
(* ================================================================== *)

Section Completes.
Context {X Y : Type}.
Implicit Types (self : SemanticAnalyzer).

Lemma completes_ret (x : X) self :
  table_ok (symbol_table self) → completes (ret x) self.
Proof. done. Qed.

Lemma completes_bind (m : Semantic.A X) (k : X → Semantic.A Y) self :
  completes m self →
  (∀ x s1, table_ok (symbol_table s1) → completes (k x) s1) →
  completes (bind m k) self.
Proof.
  intros Hm Hk. unfold completes in *. apply wp_bind.
  eapply wp_mono; [exact Hm| | |]; [|done|done].
  intros x s1 Hok. by apply Hk.
Qed.

Lemma on_table_completes (m : SymbolTable.T X) self :
  (∀ t, table_ok t → ∃ x t', m t = Ok x t' ∧ table_ok t') →
  table_ok (symbol_table self) → completes (Semantic.on_table m) self.
Proof.
  intros Hm Hok. destruct (Hm _ Hok) as (x & t' & E & Hok').
  unfold completes, wp, Semantic.on_table. by rewrite E.
Qed.

End Completes.

Lemma quiet_completes m self : quiet m self → completes m self.
Proof. intros (s1 & E & _ & Hok). unfold completes, wp. by rewrite E. Qed.

Lemma lookup_completes name self :
  table_ok (symbol_table self) →
  completes (Semantic.on_table (SymbolTable.lookup name)) self.
Proof.
  apply on_table_completes. intros t Hok.
  destruct (lookup_run t name Hok) as (r & E). by exists r, t.
Qed.

Lemma add_symbol_completes name T self :
  table_ok (symbol_table self) →
  completes (Semantic.on_table (SymbolTable.add_symbol name T)) self.
Proof.
  apply on_table_completes. intros t Hok.
  destruct (add_symbol_ok t name T Hok) as (sym & t' & E & Hok' & _).
  by exists sym, t'.
Qed.

Lemma enter_scope_completes name self :
  table_ok (symbol_table self) →
  completes (Semantic.on_table (SymbolTable.enter_scope name)) self.
Proof.
  apply on_table_completes. intros t Hok.
  destruct (enter_scope_ok t name Hok) as (t' & E & Hok' & _). by exists tt, t'.
Qed.

Lemma append_error_completes msg self :
  table_ok (symbol_table self) → completes (Semantic.append_error msg) self.
Proof. done. Qed.

(** Steps of the analyzer that return; [rec] covers the recursive
    calls. *)
Ltac complete rec :=
  repeat first
    [ rec
    | apply completes_ret; assumption
    | apply lookup_completes; assumption
    | apply add_symbol_completes; assumption
    | apply enter_scope_completes; assumption
    | apply append_error_completes; assumption
    | apply quiet_completes;
      first [ apply add_parameters_quiet | apply define_target_quiet
            | apply exit_scope_quiet ]; assumption
    | apply completes_bind; [ | intros ? ? ? ]
    | match goal with
      | |- completes (when ?c _) _ => destruct c; cbn [when]
      | |- completes (match ?o with Some _ => _ | None => _ end) _ => destruct o
      end ].

Lemma declare_function_completes name self :
  table_ok (symbol_table self) →
  completes (Semantic.declare_function name) self.
Proof. intros Hok. unfold Semantic.declare_function. complete fail. Qed.






(* ================================================================== *)
(** * The generation of code for a well-formed tree *)
(* ================================================================== *)

Section Gives.
Context (U : Unicode).



Lemma gives_weaken {X} (Q Q' : X → Prop) (m : G X) :
  gives Q m → (∀ x, Q x → Q' x) → gives Q' m.
Proof.
  intros Hm HQ self. destruct (Hm self) as (x & E & Hx). exists x. auto.
Qed.












End Gives.

(* ================================================================== *)
(** * The indentation level of the generator *)
(* ================================================================== *)

Section Restores.
Context (U : Unicode).

Lemma restores_ret {X} (x : X) : restores (ret x).
Proof. by intros self. Qed.

Lemma restores_raise {X} e : restores (raise (A:=X) e).
Proof. intros self. unfold wp, raise. split; [done|lia]. Qed.

Lemma restores_bind {X Y} (m : G X) (f : X → G Y) :
  restores m → (∀ x, restores (f x)) → restores (bind m f).
Proof.
  intros Hm Hf self. apply wp_bind. eapply wp_mono; [apply Hm| |done|done].
  intros x s' ->. apply Hf.
Qed.

Lemma restores_indent : restores _indent.
Proof. by intros self. Qed.

Lemma restores_add_str x s : restores (add_str x s).
Proof. destruct x; [apply restores_ret | apply restores_raise]. Qed.

Lemma restores_strip_of x : restores (strip_of U x).
Proof. destruct x; [apply restores_ret | apply restores_raise]. Qed.

Lemma restores_or_pass code filler : restores (or_pass U code filler).
Proof.
  unfold or_pass. apply restores_bind; [apply restores_strip_of|]. intros stripped.
  destruct (bool_decide _); [|apply restores_ret].
  apply restores_bind; [apply restores_indent|]. intros ?. apply restores_ret.
Qed.

Lemma restores_checked_items items : ∀ i, restores (checked_items i items).
Proof.
  induction items as [|[x|] items IH]; intros i; cbn [checked_items].
  - apply restores_ret.
  - apply restores_bind; [apply IH|]. intros ?. apply restores_ret.
  - apply restores_raise.
Qed.

Lemma restores_comma_join items : restores (comma_join items).
Proof.
  unfold comma_join. apply restores_bind; [apply restores_checked_items|].
  intros ?. apply restores_ret.
Qed.

Lemma restores_format_python_code code : restores (format_python_code U code).
Proof. destruct code; [apply restores_ret | apply restores_raise]. Qed.

(** One level deeper and back: an exception in between leaves the level
    raised. *)
Lemma restores_deeper rec child filler :
  restores (rec child) → restores (deeper U rec child filler).
Proof.
  intros Hrec self. unfold deeper, wp, bind at 1 2, shift at 1, modify.
  specialize (Hrec (mkGenerator (indent_level self + 1) (indent_size self))).
  unfold wp in Hrec.
  destruct (rec child _) as [code s'|e s'|]; [| |done].
  - subst s'. unfold bind at 1, shift, modify. cbn [indent_level indent_size].
    replace (indent_level self + 1 + -1)%Z with (indent_level self) by lia.
    destruct self as [l z]. apply restores_or_pass.
  - cbn [indent_level indent_size] in Hrec. split; [apply Hrec | lia].
Qed.

Lemma restores_program_loop rec l :
  (∀ kid, kid ∈ l → restores (rec kid)) →
  ∀ code, restores (generate_program_loop rec l code).
Proof.
  induction l as [|kid l IHl]; intros IH code; cbn [generate_program_loop].
  - apply restores_ret.
  - apply restores_bind; [apply IH; by left|]. intros x.
    apply restores_bind; [apply restores_add_str|]. intros piece.
    apply IHl. intros k Hk. apply IH. by right.
Qed.

Lemma restores_block_loop rec l :
  (∀ kid, kid ∈ l → restores (rec kid)) →
  ∀ code, restores (generate_block_loop rec l code).
Proof.
  induction l as [|kid l IHl]; intros IH code; cbn [generate_block_loop].
  - apply restores_ret.
  - assert (∀ code, restores (generate_block_loop rec l code)) as Hrest.
    { apply IHl. intros k Hk. apply IH. by right. }
    apply restores_bind; [apply IH; by left|].
    intros [[|c cs]|]; [apply Hrest | | apply Hrest].
    apply restores_bind; [apply restores_indent|]. intros ?. apply Hrest.
Qed.

Lemma restores_arguments_loop rec l :
  (∀ kid, kid ∈ l → restores (rec kid)) →
  restores (generate_arguments_loop rec l).
Proof.
  induction l as [|kid l IHl]; intros IH; cbn [generate_arguments_loop].
  - apply restores_ret.
  - apply restores_bind; [apply IH; by left|]. intros x.
    apply restores_bind; [|intros ?; apply restores_ret].
    apply IHl. intros k Hk. apply IH. by right.
Qed.

(** Run through code built from the steps above; [IH] covers the
    recursive calls. *)
Ltac restore IH :=
  repeat first
    [ apply restores_ret | apply restores_raise
    | apply restores_indent | apply restores_or_pass | apply restores_add_str
    | apply restores_strip_of | apply restores_comma_join
    | apply restores_deeper
    | solve [apply IH; set_solver]
    | apply restores_bind
    | lazymatch goal with |- forall _, _ => intro end
    | progress cbv beta zeta iota
    | match goal with
      | |- restores (if ?c then _ else _) => destruct c
      | |- restores (match ?l with [] => _ | _ :: _ => _ end) => destruct l
      | |- restores (match ?o with Some _ => _ | None => _ end) => destruct o
      end ].

Lemma restores_generate_node node : restores (_generate_node U node).
Proof.
  induction node as [ty v kids IH] using ASTNode_ind.
  rewrite Forall_forall in IH.
  pose proof (restores_program_loop (_generate_node U) kids IH) as Hprogram.
  pose proof (restores_block_loop (_generate_node U) kids IH) as Hblock.
  pose proof (restores_arguments_loop (_generate_node U) kids IH) as Harguments.
  cbn [_generate_node node_type].
  unfold _generate_program, _generate_function_def, _generate_block,
    _generate_if_statement, _generate_for_loop, _generate_while_loop,
    _generate_assignment, _generate_function_call, _generate_variable,
    _generate_literal, _generate_expression, _generate_condition,
    _generate_then, _generate_else, _generate_parameters,
    _generate_arguments, _generate_iterable, _generate_body,
    first_child, index_error.
  cbn [children node_value].
  restore IH.
  - apply Hprogram.
  - apply Hblock.
  - apply Harguments.
Qed.

End Restores.

(** X12. [generate] never lowers [indent_level] and never changes
    [indent_size]; when the traversal and the formatting end normally, the
    generator is left as it was.  (After an exception inside a nested
    block the level stays raised, see [generate_leaves_level_raised].) *)
Theorem generate_restores_indentation (U : Unicode) (ast : ASTNode)
    (self : CodeGenerator) :
  ∃ text self',
    generate U ast self = Some (text, self')
    ∧ indent_size self' = indent_size self
    ∧ (indent_level self ≤ indent_level self')%Z
    ∧ ∀ out s1,
        (code <- _generate_node U ast ;; format_python_code U code) self
        = Ok out s1 →
        self' = self.
Proof.
  assert (restores (code <- _generate_node U ast ;; format_python_code U code))
    as H.
  { apply restores_bind; [apply restores_generate_node|].
    intros code. apply restores_format_python_code. }
  specialize (H self). unfold wp in H. unfold generate.
  destruct ((code <- _generate_node U ast ;; format_python_code U code) self)
    as [text self'|e self'|]; [| |done].
  - exists text, self'. subst self'.
    split; [done|]. split; [done|]. split; [lia|done].
  - exists (error_comment e), self'. destruct H as [Hs Hl].
    split; [done|]. split; [done|]. split; [done|]. by intros out s1 [=].
Qed.

(** A function whose body cannot be generated: the level is left at 1. *)
Example generate_leaves_level_raised :
  snd <$> generate ascii_unicode
            (mkNode (u "FUNCTION_DEF") (Some (u "f"))
               [node0 "PARAMETERS" []; node0 "IF_STATEMENT" []])
            new_generator
  = Some (mkGenerator 1 4).
Proof. by vm_compute. Qed.

(* ================================================================== *)
(** * The analyzer only adds symbols and errors *)
(* ================================================================== *)

Lemma extends_refl t : extends t t.
Proof. intros scope d Hd. by exists d. Qed.

Lemma extends_trans t1 t2 t3 : extends t1 t2 → extends t2 t3 → extends t1 t3.
Proof.
  intros H12 H23 scope d Hd.
  destruct (H12 scope d Hd) as (d2 & Hd2 & Hn2).
  destruct (H23 scope d2 Hd2) as (d3 & Hd3 & Hn3).
  exists d3. split; [done|]. intros name Hname. by apply Hn3, Hn2.
Qed.

Lemma grown_refl self : table_ok (symbol_table self) → grown self self.
Proof. intros Hok. split; [done|]. split; [apply extends_refl|done]. Qed.

Lemma grown_trans s1 s2 s3 : grown s1 s2 → grown s2 s3 → grown s1 s3.
Proof.
  intros (_ & He12 & Hp12) (Hok & He23 & Hp23). split; [done|]. split.
  - by eapply extends_trans.
  - by etrans.
Qed.

Lemma extends_add t name sym d :
  symbols t !! current_scope t = Some d →
  extends t (mkTable (<[current_scope t := <[name := sym]> d]> (symbols t))
                     (current_scope t)).
Proof.
  intros Hd scope d0 Hd0. cbn [symbols]. rewrite lookup_insert.
  case_decide as Hs.
  - subst scope. rewrite Hd in Hd0. injection Hd0 as <-.
    eexists. split; [done|]. intros n Hn. rewrite lookup_insert.
    case_decide; [by eexists | done].
  - exists d0. by split.
Qed.

Lemma extends_enter t scope_name :
  ∃ t', SymbolTable.enter_scope scope_name t = Ok tt t' ∧ extends t t'.
Proof.
  unfold SymbolTable.enter_scope, modify. eexists. split; [done|].
  intros scope d Hd. cbn [symbols].
  destruct (symbols t !! scope_name) as [d0|] eqn:E.
  - exists d. by split.
  - rewrite lookup_insert. case_decide as Hs; [congruence|]. exists d. by split.
Qed.

Section Keeps.
Context {X Y : Type}.

Lemma keeps_ret (x : X) : keeps (ret x).
Proof. intros self Hok. by apply grown_refl. Qed.

Lemma keeps_raise e : keeps (raise (A:=X) e).
Proof. intros self Hok. by apply grown_refl. Qed.

Lemma keeps_bind (m : Semantic.A X) (k : X → Semantic.A Y) :
  keeps m → (∀ x, keeps (k x)) → keeps (bind m k).
Proof.
  intros Hm Hk self Hok. apply wp_bind.
  eapply wp_mono; [by apply Hm| |done|done].
  intros x s1 H1. pose proof H1 as (Hok1 & _).
  eapply wp_mono; [by apply Hk| | |done].
  - intros y s2 H2. exact (grown_trans _ _ _ H1 H2).
  - intros e s2 H2. exact (grown_trans _ _ _ H1 H2).
Qed.

Lemma keeps_on_table (m : SymbolTable.T X) :
  (∀ t, table_ok t →
     wp m t (fun _ t' => table_ok t' ∧ extends t t')
       (fun _ t' => table_ok t' ∧ extends t t') False) →
  keeps (Semantic.on_table m).
Proof.
  intros Hm self Hok. specialize (Hm _ Hok).
  unfold wp, Semantic.on_table in *.
  destruct (m (symbol_table self)) as [x t'|e t'|]; [| |done];
    destruct Hm as [Hok' He]; (split; [done|]); (split; [done|]);
    cbn [errors]; done.
Qed.

End Keeps.

Lemma keeps_lookup name : keeps (Semantic.on_table (SymbolTable.lookup name)).
Proof.
  apply keeps_on_table. intros t Hok.
  destruct (lookup_run t name Hok) as (r & E). unfold wp. rewrite E.
  split; [done | apply extends_refl].
Qed.

Lemma keeps_add_symbol name T :
  keeps (Semantic.on_table (SymbolTable.add_symbol name T)).
Proof.
  apply keeps_on_table. intros t Hok.
  destruct (add_symbol_run t name T Hok) as (d & Hd & E). unfold wp. rewrite E.
  split; [by apply table_ok_insert | by apply extends_add].
Qed.

Lemma keeps_enter_scope name :
  keeps (Semantic.on_table (SymbolTable.enter_scope name)).
Proof.
  apply keeps_on_table. intros t Hok.
  destruct (enter_scope_ok t name Hok) as (t' & E & Hok' & _).
  destruct (extends_enter t name) as (t'' & E' & He).
  unfold wp. rewrite E. rewrite E in E'. injection E' as <-. by split.
Qed.

Lemma keeps_exit_scope : keeps (Semantic.on_table SymbolTable.exit_scope).
Proof.
  apply keeps_on_table. intros t Hok.
  destruct (exit_scope_ok t Hok) as (t' & E & Hok' & Hs & _).
  unfold wp. rewrite E. split; [done|].
  intros scope d Hd. exists d. by rewrite Hs.
Qed.

Lemma keeps_append_error msg : keeps (Semantic.append_error msg).
Proof.
  intros self Hok. unfold wp, Semantic.append_error, modify.
  split; [done|]. split; [apply extends_refl|]. by apply prefix_app_r.
Qed.

(** Steps of the analyzer, all of which keep what is recorded; [rec]
    covers the recursive calls. *)
Ltac keep rec :=
  repeat first
    [ rec
    | apply keeps_ret | apply keeps_raise
    | apply keeps_lookup | apply keeps_add_symbol | apply keeps_enter_scope
    | apply keeps_exit_scope | apply keeps_append_error
    | apply keeps_bind
    | lazymatch goal with |- forall _, _ => intro end
    | progress cbv beta
    | match goal with
      | |- keeps (when ?c _) => destruct c; cbn [when]
      | |- keeps (if ?c then _ else _) => destruct c
      | |- keeps (match ?o with Some _ => _ | None => _ end) => destruct o
      | |- keeps (match ?l with [] => _ | _ :: _ => _ end) => destruct l
      end ].

Lemma keeps_add_parameters params : keeps (Semantic.add_parameters params).
Proof.
  induction params as [|p params IH]; cbn [Semantic.add_parameters];
    keep ltac:(exact IH).
Qed.

Lemma keeps_for_each rec l :
  (∀ kid, kid ∈ l → keeps (rec kid)) → keeps (Semantic.for_each rec l).
Proof.
  induction l as [|kid l IHl]; intros IH; cbn [Semantic.for_each].
  - apply keeps_ret.
  - apply keeps_bind; [apply IH; by left|]. intros _.
    apply IHl. intros k Hk. apply IH. by right.
Qed.

Lemma keeps_analyze_node_each node :
  keeps (Semantic._analyze_node node)
  ∧ keeps (Semantic.for_each Semantic._analyze_node (children node)).
Proof.
  induction node as [ty v kids IH] using ASTNode_ind.
  rewrite Forall_forall in IH.
  assert (keeps (Semantic.for_each Semantic._analyze_node kids)) as Heach.
  { apply keeps_for_each. intros kid Hkid. by apply IH. }
  split; [|exact Heach].
  assert (∀ k, k ∈ kids → keeps (Semantic._analyze_node k)) as IH1
    by (intros k Hk; by apply IH).
  assert (∀ k, k ∈ kids →
            keeps (Semantic.for_each Semantic._analyze_node (children k)))
    as IH2 by (intros k Hk; by apply IH).
  clear IH.
  cbn [Semantic._analyze_node node_type].
  unfold Semantic._analyze_program, Semantic._analyze_function_def,
    Semantic._analyze_block, Semantic._analyze_if_statement,
    Semantic._analyze_for_loop, Semantic._analyze_while_loop,
    Semantic._analyze_assignment, Semantic._analyze_function_call,
    Semantic._analyze_variable, Semantic.declare_function,
    Semantic.define_target, Semantic.check_callee, Semantic.index_error.
  cbn [children node_value].
  keep ltac:(idtac; match goal with
             | |- keeps (Semantic.for_each _ kids) => exact Heach
             | |- keeps (Semantic.for_each _ (_ :: _)) => exact Heach
             | |- keeps (Semantic.add_parameters _) =>
                 apply keeps_add_parameters
             | |- keeps (Semantic._analyze_node _) => apply IH1; set_solver
             | |- keeps (Semantic.for_each _ (children _)) =>
                 apply IH2; set_solver
             end).
Qed.

Lemma keeps_analyze_node node : keeps (Semantic._analyze_node node).
Proof. apply keeps_analyze_node_each. Qed.

(** X13. The analysis of a node, whether it returns or raises, removes no
    scope and no name: every scope of the table is still there afterwards,
    and every name listed in a scope is still listed in it.  The symbol
    bound to a name may have been replaced, since [add_symbol] overwrites.
    The errors recorded before are the front of the error list, and the
    table still has its global and current scope. *)
Theorem analysis_only_adds (node : ASTNode) (self : SemanticAnalyzer) :
  table_ok (symbol_table self) →
  match Semantic._analyze_node node self with
  | Ok _ self' => grown self self'
  | Raised _ self' => grown self self'
  | OutOfFuel => False
  end.
Proof. intros Hok. exact (keeps_analyze_node node self Hok). Qed.

Lemma analysis_only_adds_witness :
  table_ok (symbol_table Semantic.init)
  ∧ match Semantic._analyze_node childless_if Semantic.init with
    | Ok _ self' => grown Semantic.init self'
    | Raised _ self' => grown Semantic.init self'
    | OutOfFuel => False
    end.
Proof.
  split; [exact table_ok_init|].
  apply (analysis_only_adds childless_if Semantic.init). exact table_ok_init.
Defined.

(** The name stays and the symbol changes: after [def f ( ) :] the loop
    [for f in 1 :] binds [f], a function until then, to a variable, and no
    error is recorded. *)
Example for_loop_replaces_function :
  (fun r => (sym_type <$> found (Some (u "f")) r.2, errors r.2))
    <$> Semantic.analyze
          (node0 "PROGRAM"
             [mkNode (u "FUNCTION_DEF") (Some (u "f"))
                [node0 "PARAMETERS" []; node0 "BLOCK" []];
              node0 "FOR_LOOP"
                [leaf "VARIABLE" (u "f");
                 node0 "ITERABLE" [leaf "LITERAL" (u "1")];
                 node0 "BODY" [node0 "BLOCK" []]]])
          Semantic.init
  = Some (Some (u "VARIABLE"), []).
Proof. by vm_compute. Qed.

(* ================================================================== *)
(** * Analyzing a function definition twice *)
(* ================================================================== *)

Lemma declare_function_declares self name :
  table_ok (symbol_table self) →
  current_scope (symbol_table self) = global →
  ∃ s1, Semantic.declare_function name self = Ok tt s1
    ∧ table_ok (symbol_table s1) ∧ in_global name (symbol_table s1).
Proof.
  intros Hok Hglobal. unfold Semantic.declare_function, bind at 1.
  rewrite (on_table_lookup _ _ Hok).
  assert (∀ s, symbol_table s = symbol_table self →
            ∃ s1, (Semantic.on_table (SymbolTable.add_symbol name "FUNCTION") ;;
                   Semantic.on_table (SymbolTable.enter_scope name)) s = Ok tt s1
              ∧ table_ok (symbol_table s1) ∧ in_global name (symbol_table s1))
    as Hrest.
  { intros s Hs. assert (table_ok (symbol_table s)) as Hoks by by rewrite Hs.
    destruct (on_table_add s name "FUNCTION" Hoks) as (d & Hd & E).
    unfold bind. rewrite E. unfold Semantic.on_table. cbn [symbol_table errors].
    match goal with |- context [SymbolTable.enter_scope name ?t] =>
      destruct (enter_scope_ok t name) as (t' & Ee & Hok' & _);
        [by apply (table_ok_insert (symbol_table s))|];
      destruct (extends_enter t name) as (t'' & Ee' & Hext)
    end.
    rewrite Ee in Ee'. injection Ee' as <-. rewrite Ee.
    eexists. split; [done|]. cbn [symbol_table]. split; [done|].
    rewrite Hs, Hglobal in *.
    destruct (Hext global (<[name := mkSymbol name (u "FUNCTION") global None]> d))
      as (g & Hg & Hn).
    { cbn [symbols]. by rewrite lookup_insert_eq. }
    exists g. split; [done|]. apply Hn. rewrite lookup_insert_eq. by eexists. }
  destruct (bool_decide (is_Some (found name self))); cbn [when].
  - unfold bind at 1, Semantic.append_error, modify. by apply Hrest.
  - unfold bind at 1, ret. by apply Hrest.
Qed.

Lemma in_global_grown name s1 s2 :
  in_global name (symbol_table s1) → grown s1 s2 →
  in_global name (symbol_table s2).
Proof.
  intros (g & Hg & Hn) (_ & Hext & _).
  destruct (Hext global g Hg) as (g' & Hg' & Hn').
  exists g'. split; [done|]. by apply Hn'.
Qed.

Lemma function_def_in_global v kids self :
  table_ok (symbol_table self) →
  current_scope (symbol_table self) = global →
  wp (Semantic._analyze_node (mkNode (u "FUNCTION_DEF") v kids)) self
    (fun _ s' => table_ok (symbol_table s') ∧ in_global v (symbol_table s'))
    (fun _ s' => table_ok (symbol_table s') ∧ in_global v (symbol_table s'))
    False.
Proof.
  intros Hok Hglobal. cbn [Semantic._analyze_node node_type].
  unfold Semantic.is_type. eval_tests.
  unfold Semantic._analyze_function_def. cbn [children node_value].
  destruct (declare_function_declares self v Hok Hglobal)
    as (s1 & E & Hok1 & Hin).
  apply wp_bind. unfold wp at 1. rewrite E.
  assert (keeps (match kids with
                 | [] => Semantic.index_error
                 | params_node :: rest =>
                     Semantic.add_parameters (children params_node) ;;
                     match rest with
                     | [] => Semantic.index_error
                     | body_node :: _ =>
                         Semantic._analyze_node body_node ;;
                         Semantic.on_table SymbolTable.exit_scope
                     end
                 end)) as Hkeeps.
  { unfold Semantic.index_error.
    keep ltac:(first [apply keeps_add_parameters | apply keeps_analyze_node]). }
  eapply wp_mono; [by apply Hkeeps | | | done].
  - intros x s' H. split; [apply H | by eapply in_global_grown].
  - intros x s' H. split; [apply H | by eapply in_global_grown].
Qed.

Lemma in_global_found name t errs :
  table_ok t → in_global name t → is_Some (found name (mkAnalyzer t errs)).
Proof.
  intros [_ [d Hd]] (g & Hg & Hn).
  unfold found, SymbolTable.lookup, SymbolTable.scope_dict, bind, get.
  cbn [symbol_table]. rewrite Hd.
  destruct (d !! name); [by eexists|]. rewrite Hg.
  destruct Hn as [sym ->]. by eexists.
Qed.

Lemma noisy_analyze_false ast self :
  table_ok (symbol_table self) →
  forallb no_error_at (visits ast (mkAnalyzer (symbol_table self) [])) = false →
  ∃ self', Semantic.analyze ast self = Some (false, self').
Proof.
  intros Hok Hvis.
  pose proof (proj1 (analyze_node_noisy ast)
                (mkAnalyzer (symbol_table self) []) Hok Hvis) as H.
  unfold appends, wp in H. unfold Semantic.analyze.
  destruct (Semantic._analyze_node ast (mkAnalyzer (symbol_table self) []))
    as [[] self'|e self'|]; [| |destruct H].
  - destruct H as (_ & extra & He & Hlen). exists self'.
    rewrite bool_decide_eq_false_2; [done|].
    rewrite He. destruct extra; [cbn in Hlen; lia|done].
  - by exists self'.
Qed.

(** X14. [analyze] is not repeatable: the symbol table is kept from one call
    to the next.  Analyzing a function definition a second time with the
    same analyzer (started in the global scope) returns false, whatever
    the first call returned. *)
Theorem analyze_function_def_twice (v : pyname) (kids : list ASTNode)
    (self : SemanticAnalyzer) :
  table_ok (symbol_table self) →
  current_scope (symbol_table self) = global →
  ∃ b self1,
    Semantic.analyze (mkNode (u "FUNCTION_DEF") v kids) self = Some (b, self1)
    ∧ ∃ self2,
        Semantic.analyze (mkNode (u "FUNCTION_DEF") v kids) self1
        = Some (false, self2).
Proof.
  intros Hok Hglobal.
  pose proof (function_def_in_global v kids
                (mkAnalyzer (symbol_table self) []) Hok Hglobal) as H.
  unfold wp in H. unfold Semantic.analyze at 1.
  assert (∀ self1,
            table_ok (symbol_table self1) → in_global v (symbol_table self1) →
            ∃ self2,
              Semantic.analyze (mkNode (u "FUNCTION_DEF") v kids) self1
              = Some (false, self2)) as Hsecond.
  { intros self1 Hok1 Hin. apply noisy_analyze_false; [done|].
    cbn [visits forallb]. unfold no_error_at at 1.
    cbn [fst snd node_type node_value children].
    unfold Semantic.is_type. eval_tests.
    destruct (in_global_found v (symbol_table self1) [] Hok1 Hin) as [sym ->].
    rewrite bool_decide_eq_false_2 by done.
    by rewrite andb_false_r. }
  destruct (Semantic._analyze_node (mkNode (u "FUNCTION_DEF") v kids)
              (mkAnalyzer (symbol_table self) []))
    as [[] self1|e self1|]; [| |done]; destruct H as [Hok1 Hin].
  - eexists _, self1. split; [done|]. by apply Hsecond.
  - eexists _, self1. split; [done|]. by apply Hsecond.
Qed.

Lemma analyze_function_def_twice_witness :
  table_ok (symbol_table Semantic.init)
  ∧ current_scope (symbol_table Semantic.init) = global
  ∧ ∃ b self1,
      Semantic.analyze (mkNode (u "FUNCTION_DEF") (Some (u "f"))
                          [node0 "PARAMETERS" []; node0 "BLOCK" []])
        Semantic.init = Some (b, self1)
      ∧ ∃ self2,
          Semantic.analyze (mkNode (u "FUNCTION_DEF") (Some (u "f"))
                              [node0 "PARAMETERS" []; node0 "BLOCK" []])
            self1 = Some (false, self2).
Proof.
  split; [exact table_ok_init|]. split; [reflexivity|].
  apply (analyze_function_def_twice (Some (u "f"))
           [node0 "PARAMETERS" []; node0 "BLOCK" []] Semantic.init);
    [exact table_ok_init | reflexivity].
Defined.

(* ================================================================== *)
(** * The symbol table: what is added is found *)
(* ================================================================== *)

Lemma lookup_value t name d g :
  symbols t !! current_scope t = Some d → symbols t !! global = Some g →
  SymbolTable.lookup name t
  = Ok (match d !! name with Some sym => Some sym | None => g !! name end) t.
Proof.
  intros Hd Hg.
  unfold SymbolTable.lookup, SymbolTable.scope_dict, bind, get, ret.
  rewrite Hd. destruct (d !! name); [done|]. rewrite Hg.
  by destruct (g !! name).
Qed.

(** X15. A symbol that [add_symbol] adds is what [lookup] returns for its name
    from then on (it replaces a symbol of that name in the current scope and
    hides one in the global scope); for every other name [lookup] returns
    what it returned before. *)
Theorem add_symbol_then_lookup (t : SymbolTable) (name : pyname) (T : string) :
  table_ok t →
  ∃ t',
    SymbolTable.add_symbol name T t
    = Ok (mkSymbol name (u T) (current_scope t) None) t'
    ∧ SymbolTable.lookup name t'
      = Ok (Some (mkSymbol name (u T) (current_scope t) None)) t'
    ∧ ∀ other, other ≠ name →
        ∃ r, SymbolTable.lookup other t = Ok r t
          ∧ SymbolTable.lookup other t' = Ok r t'.
Proof.
  intros Hok. destruct (add_symbol_run t name T Hok) as (d & Hd & E).
  destruct Hok as [[g Hg] _].
  eexists. split; [exact E|].
  set (sym := mkSymbol name (u T) (current_scope t) None).
  set (t' := mkTable (<[current_scope t := <[name := sym]> d]> (symbols t))
                     (current_scope t)).
  assert (symbols t' !! current_scope t' = Some (<[name := sym]> d)) as Hd'
    by (cbn; by rewrite lookup_insert_eq).
  assert (∃ g', symbols t' !! global = Some g'
            ∧ ∀ other, other ≠ name → g' !! other = g !! other) as (g' & Hg' & Hsame).
  { cbn [t' symbols]. rewrite lookup_insert. case_decide as Hc.
    - eexists. split; [done|]. intros other Hne.
      rewrite lookup_insert_ne by done. rewrite Hc in Hd. congruence.
    - by exists g. }
  split.
  - rewrite (lookup_value t' name _ _ Hd' Hg'). by rewrite lookup_insert_eq.
  - intros other Hne. eexists. split; [by apply lookup_value|].
    rewrite (lookup_value t' other _ _ Hd' Hg').
    rewrite lookup_insert_ne by done. by rewrite Hsame.
Qed.

Lemma add_symbol_then_lookup_witness :
  table_ok SymbolTable.init
  ∧ ∃ t',
      SymbolTable.add_symbol (Some (u "x")) "VARIABLE" SymbolTable.init
      = Ok (mkSymbol (Some (u "x")) (u "VARIABLE") global None) t'
      ∧ SymbolTable.lookup (Some (u "x")) t'
        = Ok (Some (mkSymbol (Some (u "x")) (u "VARIABLE") global None)) t'
      ∧ ∀ other, other ≠ Some (u "x") →
          ∃ r, SymbolTable.lookup other SymbolTable.init = Ok r SymbolTable.init
            ∧ SymbolTable.lookup other t' = Ok r t'.
Proof.
  split; [exact table_ok_init|].
  apply (add_symbol_then_lookup SymbolTable.init (Some (u "x")) "VARIABLE").
  exact table_ok_init.
Defined.

(** X16. A symbol added inside a scope other than the global one is not seen
    from the global scope after [exit_scope]: [lookup] returns there what it
    returned before.  The scope keeps it: entering the scope again,
    [lookup] finds the symbol. *)
Theorem scope_keeps_its_symbols (t : SymbolTable) (f name : pyname) (T : string) :
  table_ok t → current_scope t = global → f ≠ global →
  ∃ t',
    (SymbolTable.enter_scope f ;; SymbolTable.add_symbol name T ;;
     SymbolTable.exit_scope) t = Ok tt t'
    ∧ current_scope t' = global
    ∧ (∃ r, SymbolTable.lookup name t = Ok r t
          ∧ SymbolTable.lookup name t' = Ok r t')
    ∧ (SymbolTable.enter_scope f ;; SymbolTable.lookup name) t'
      = Ok (Some (mkSymbol name (u T) f None)) (mkTable (symbols t') f).
Proof.
  intros Hok Hglobal Hf.
  destruct (enter_scope_ok t f Hok) as (t1 & E1 & Hok1 & Hc1).
  destruct (add_symbol_run t1 name T Hok1) as (d & Hd & E2).
  destruct Hok as [[g Hg] _].
  assert (symbols t1 !! global = Some g) as Hg1.
  { revert E1. unfold SymbolTable.enter_scope, modify. intros [= <-].
    cbn [symbols]. destruct (symbols t !! f); [done|].
    by rewrite lookup_insert_ne. }
  rewrite Hc1 in *.
  eexists. split.
  { unfold bind. rewrite E1, E2. unfold SymbolTable.exit_scope, modify.
    cbn [symbols]. reflexivity. }
  cbn [current_scope symbols]. split; [done|].
  set (sym := mkSymbol name (u T) f None).
  set (t' := mkTable (<[f := <[name := sym]> d]> (symbols t1)) global).
  assert (symbols t' !! global = Some g) as Hg'
    by (cbn; by rewrite lookup_insert_ne).
  split.
  - eexists. split.
    + apply lookup_value; [by rewrite Hglobal | done].
    + by apply lookup_value.
  - unfold bind at 1, SymbolTable.enter_scope, modify. cbn [symbols t'].
    rewrite lookup_insert_eq.
    rewrite (lookup_value _ name (<[name := sym]> d) g);
      [ by rewrite lookup_insert_eq
      | cbn; by rewrite lookup_insert_eq
      | cbn; by rewrite lookup_insert_ne ].
Qed.

Lemma scope_keeps_its_symbols_witness :
  table_ok SymbolTable.init
  ∧ current_scope SymbolTable.init = global
  ∧ Some (u "f") ≠ global
  ∧ ∃ t',
      (SymbolTable.enter_scope (Some (u "f")) ;;
       SymbolTable.add_symbol (Some (u "p")) "PARAMETER" ;;
       SymbolTable.exit_scope) SymbolTable.init = Ok tt t'
      ∧ current_scope t' = global
      ∧ (∃ r, SymbolTable.lookup (Some (u "p")) SymbolTable.init
              = Ok r SymbolTable.init
            ∧ SymbolTable.lookup (Some (u "p")) t' = Ok r t')
      ∧ (SymbolTable.enter_scope (Some (u "f")) ;;
         SymbolTable.lookup (Some (u "p"))) t'
        = Ok (Some (mkSymbol (Some (u "p")) (u "PARAMETER") (Some (u "f")) None))
             (mkTable (symbols t') (Some (u "f"))).
Proof.
  split; [exact table_ok_init|]. split; [reflexivity|].
  assert (Some (u "f") ≠ global) as Hf by differ.
  split; [exact Hf|].
  apply (scope_keeps_its_symbols SymbolTable.init (Some (u "f")) (Some (u "p"))
           "PARAMETER"); [exact table_ok_init | reflexivity | exact Hf].
Defined.

(* ================================================================== *)
(** * Where a parse ends *)
(* ================================================================== *)

Lemma program_loop_ends pst fuel : ∀ stmts s,
  wp (Parser.program_loop pst fuel stmts) s
    (fun _ s' => type (current s') = u "EOF") (fun _ _ => True) True.
Proof.
  induction fuel as [|fuel IH]; intros stmts s; [done|].
  cbn [Parser.program_loop]. pstep.
  destruct (decide (type (current s) ≠ u "EOF")) as [Hne|He].
  - apply wp_bind. unfold wp at 1. destruct (pst s) as [st s1| |]; [|done|done].
    apply IH.
  - pstep. by apply dec_stable in He.
Qed.

(** X19. When [parse_program] returns, the token under the cursor has type
    EOF (past the end of the list it is the EOF token that [current_token]
    makes up): a tree is returned only when every token up to there has
    been read. *)
Theorem parse_ends_at_EOF (toks : list Token) :
  match Parser.parse_program (length toks + 2) (mkParser toks 0) with
  | Ok ast s' =>
      Parser.parse toks = Parser.Returns (Some ast)
      ∧ tokens s' = toks
      ∧ type (Parser.token_at s' (current_token_index s')) = u "EOF"
  | Raised _ _ => Parser.parse toks = Parser.Returns None
  | OutOfFuel => False
  end.
Proof.
  pose proof (parse_program_wp toks (length toks + 2) (le_n _)) as Hret.
  assert (wp (Parser.parse_program (length toks + 2)) (mkParser toks 0)
            (fun _ s' => tokens s' = toks ∧ type (current s') = u "EOF")
            (fun _ _ => True) True) as Hend.
  { unfold Parser.parse_program. apply wp_bind.
    pose proof (program_loop_ends (Parser.parse_statement (length toks + 2))
                  (length toks + 2) [] (mkParser toks 0)) as H1.
    pose proof (program_loop_wp (Parser.parse_statement (length toks + 2))
                  (length toks + 1) (length toks + 2)) as H2.
    specialize (H2 ltac:(intros s Hs; apply parse_statement_wp; lia)
                  (mkParser toks 0) []
                  ltac:(unfold remaining; cbn; lia)
                  ltac:(unfold remaining; cbn; lia) eq_refl).
    unfold wp in *.
    destruct (Parser.program_loop _ _ _ _) as [stmts s'| |]; [|done|done].
    destruct H2 as [[Ht _] _]. by split. }
  unfold Parser.parse, Parser.parse_with, wp in *.
  destruct (Parser.parse_program (length toks + 2) (mkParser toks 0))
    as [ast s'| |]; [|done|done].
  destruct Hend as [Ht He]. by repeat split.
Qed.

(* ================================================================== *)
(** * ASTNode.__str__ *)
(* ================================================================== *)

Lemma line_breaks_app s1 s2 :
  line_breaks (s1 ++ s2) = line_breaks s1 + line_breaks s2.
Proof. unfold line_breaks. by rewrite List.filter_app, length_app. Qed.

Lemma line_breaks_none s : 10%N ∉ s → line_breaks s = 0.
Proof.
  unfold line_breaks. induction s as [|c s IH]; [done|].
  intros [Hc Hs]%not_elem_of_cons. cbn [List.filter].
  destruct (c =? 10)%N eqn:E; [apply N.eqb_eq in E; congruence | by apply IH].
Qed.

Lemma line_breaks_spaces level : line_breaks (times (u "  ") level) = 0.
Proof.
  apply line_breaks_none. unfold times.
  induction (Z.to_nat level) as [|n IH]; cbn [replicate concat].
  - apply not_elem_of_nil.
  - rewrite elem_of_app. intros [H|H]; [|done].
    revert H. decided (10%N ∉ u "  ").
Qed.

(** X21. The text that [__str__] makes of a tree has one line for each node,
    when no type and no value in the tree has a line break in it. *)
Theorem str_one_line_per_node (node : ASTNode) :
  one_line_each node = true →
  ∀ level, line_breaks (__str__ node level) = node_count node.
Proof.
  induction node as [ty v kids IH] using ASTNode_ind.
  cbn [one_line_each node_type node_value children].
  rewrite !andb_true_iff, bool_decide_eq_true.
  intros [[Hty Hv] Hkids] level.
  cbn [__str__ node_count node_type node_value children].
  assert (line_breaks (concat (map (fun child => __str__ child (level + 1)) kids))
          = list_sum (map node_count kids)) as Hrest.
  { clear Hty Hv. induction kids as [|kid kids IHkids]; [done|].
    apply Forall_cons in IH as [Hkid IH].
    cbn [forallb] in Hkids. apply andb_true_iff in Hkids as [Hk Hkids].
    cbn [map concat list_sum]. rewrite line_breaks_app, (Hkid Hk).
    by rewrite IHkids. }
  destruct v as [v|]; [apply bool_decide_eq_true in Hv|];
    rewrite !line_breaks_app, line_breaks_spaces, (line_breaks_none ty Hty),
      ?(line_breaks_none v Hv), Hrest; done.
Qed.

Lemma str_one_line_per_node_witness :
  one_line_each twice_defined = true
  ∧ ∀ level, line_breaks (__str__ twice_defined level) = node_count twice_defined.
Proof.
  split; [reflexivity|].
  apply (str_one_line_per_node twice_defined). reflexivity.
Defined.

(* ================================================================== *)
(** * The simplified pipeline of main.py *)
(* ================================================================== *)

Lemma add_tokens_body body : ∀ kids,
  Forall (fun t => type t ≠ u "EOF") body →
  SimpleSyntaxAnalyzer.add_tokens body kids
  = kids ++ map (fun t => mkNode (type t) (Some (value t)) []) body.
Proof.
  induction body as [|t body IH]; intros kids Hall;
    cbn [SimpleSyntaxAnalyzer.add_tokens map].
  - by rewrite app_nil_r.
  - apply Forall_cons in Hall as [Ht Hall]. rewrite decide_True by done.
    rewrite IH by done. by rewrite <- app_assoc.
Qed.

Lemma add_tokens_app l1 : ∀ l2 kids,
  SimpleSyntaxAnalyzer.add_tokens (l1 ++ l2) kids
  = SimpleSyntaxAnalyzer.add_tokens l2 (SimpleSyntaxAnalyzer.add_tokens l1 kids).
Proof.
  induction l1 as [|t l1 IH]; intros l2 kids;
    cbn [app SimpleSyntaxAnalyzer.add_tokens]; [done|].
  by case_decide.
Qed.

(** X22. The analyzers and the generator that main.py runs on the code
    (steps 3 to 6 of [process_voice_to_code]) return the code as it was,
    whatever it is: [tokenize] and [map_to_python_tokens] return,
    [SimpleSyntaxAnalyzer.parse] keeps the code on the root,
    [SimpleSemanticAnalyzer.analyze] returns true and
    [SimpleCodeGenerator.generate] returns the code kept. *)
Theorem simple_pipeline_returns_code (U : Unicode) (input_text : pystr)
    (analyzer : SimpleSemanticAnalyzer) :
  ∃ toks ast,
    tokenize U default_lexer input_text = Some toks
    ∧ SimpleSyntaxAnalyzer.parse U (map_to_python_tokens default_lexer toks)
        (Some input_text) = Some ast
    ∧ fst (SimpleSemanticAnalyzer.analyze ast analyzer) = true
    ∧ SimpleSemanticAnalyzer.get_errors
        (snd (SimpleSemanticAnalyzer.analyze ast analyzer)) = []
    ∧ SimpleCodeGenerator.generate ast = input_text.
Proof.
  destruct (tokenize_scan U default_lexer input_text)
    as (toks & final & Htok & _).
  eexists _, _. split; [exact Htok|]. by repeat split.
Qed.

(** X23. On the tokens of [tokenize], the tree of [SimpleSyntaxAnalyzer.parse]
    is a PROGRAM node with one CODE child, whose children are the tokens
    before the final EOF, in order, each with the type and the value of its
    token. *)
Theorem simple_parse_lists_tokens (U : Unicode) (text : pystr)
    (original_code : option pystr) :
  ∃ body final ast,
    tokenize U default_lexer text
    = Some (body ++ [mkToken (u "EOF") [] final])
    ∧ SimpleSyntaxAnalyzer.parse U (body ++ [mkToken (u "EOF") [] final])
        original_code = Some ast
    ∧ tree ast
      = node0 "PROGRAM"
          [node0 "CODE"
             (map (fun t => mkNode (type t) (Some (value t)) []) body)].
Proof.
  destruct (tokenize_single_final_EOF U default_lexer text
              default_special_no_EOF) as (body & final & Htok & Hall).
  eexists body, final, _. split; [exact Htok|]. split; [reflexivity|].
  cbn [tree]. rewrite add_tokens_app, (add_tokens_body body) by done.
  cbn [SimpleSyntaxAnalyzer.add_tokens type app].
  by rewrite decide_False by (intros H; by apply H).
Qed.

(* ================================================================== *)
(** * From the lexer to the parser *)
(* ================================================================== *)

Section OverLexed.
Context {A B : Type}.

Lemma returns_on_ret (Q : A → Prop) a : Q a → returns_on Q (ret a).
Proof. by intros H s Hs. Qed.

Lemma returns_on_raise (Q : A → Prop) e : returns_on Q (raise e).
Proof. by intros s Hs. Qed.

Lemma returns_on_out_of_fuel (Q : A → Prop) : returns_on Q out_of_fuel.
Proof. by intros s Hs. Qed.

Lemma returns_on_bind (Q : A → Prop) (Q' : B → Prop) (m : Parser.P A)
    (f : A → Parser.P B) :
  returns_on Q m → (∀ a, Q a → returns_on Q' (f a)) →
  returns_on Q' (bind m f).
Proof.
  intros Hm Hf s Hs. apply wp_bind.
  eapply wp_mono; [by apply Hm| |done|done].
  intros a s' [Hs' Ha]. by apply Hf.
Qed.

End OverLexed.

Lemma over_lexed_token s i : over_lexed s → lexed (Parser.token_at s i).
Proof. destruct s as [toks j]. apply token_at_lexed. Qed.

Lemma returns_on_current_token : returns_on lexed Parser.current_token.
Proof. intros s Hs. split; [done | by apply over_lexed_token]. Qed.

Lemma returns_on_peek_next_token : returns_on lexed Parser.peek_next_token.
Proof. intros s Hs. split; [done | by apply over_lexed_token]. Qed.

Lemma returns_on_consume : returns_on lexed Parser.consume.
Proof. intros s Hs. split; [done | by apply over_lexed_token]. Qed.

Lemma returns_on_expect T : returns_on lexed (Parser.expect T).
Proof.
  unfold Parser.expect. eapply returns_on_bind; [apply returns_on_current_token|].
  intros token _. case_decide; [apply returns_on_raise | apply returns_on_consume].
Qed.

Lemma returns_on_when_consume (c : bool) :
  returns_on (fun _ => True) (when c (Parser.consume ;; ret tt)).
Proof.
  destruct c; cbn [when]; [|by apply returns_on_ret].
  eapply returns_on_bind; [apply returns_on_consume|]. intros _ _.
  by apply returns_on_ret.
Qed.

Lemma lexed_not_opening t : lexed t → is_delimiter "(" t = false.
Proof.
  intros Hl. apply not_true_is_false. intros [Hty Hv]%is_delimiter_true.
  apply (lexed_delimiter _ Hl Hty). rewrite Hv. by left.
Qed.

Lemma lexed_not_assignment current next :
  lexed next → Parser.assignment_ahead current next = false.
Proof.
  intros Hl. apply not_true_is_false. unfold Parser.assignment_ahead.
  rewrite !andb_true_iff, !bool_decide_eq_true. intros [[_ Hty] Hv].
  by destruct (lexed_operator _ Hl Hty).
Qed.

Lemma no_assignment_or_call_node ty v kids :
  no_assignment_or_call (mkNode ty v kids)
  = negb (Semantic.is_type "ASSIGNMENT" ty)
    && negb (Semantic.is_type "FUNCTION_CALL" ty)
    && forallb no_assignment_or_call kids.
Proof. done. Qed.

(** The tree just built has no assignment and no call, its parts having
    none. *)
Ltac plain :=
  cbv beta in *; unfold node0, leaf;
  repeat (rewrite no_assignment_or_call_node; cbn [forallb]);
  unfold Semantic.is_type; eval_tests; cbn [negb andb];
  repeat match goal with H : _ = true |- _ => rewrite H end;
  done.

(** A step of the parser that reads or moves over a token. *)
Ltac token :=
  eapply returns_on_bind;
  [ first [ apply returns_on_current_token | apply returns_on_peek_next_token
          | apply returns_on_consume | apply returns_on_expect
          | apply returns_on_when_consume ]
  | intros ? ? ].

Lemma parse_expression_plain fuel : plainly (Parser.parse_expression fuel).
Proof.
  unfold plainly in *.
  induction fuel as [|fuel IH]; cbn [Parser.parse_expression];
    [apply returns_on_out_of_fuel|].
  token. case_decide; [token; apply returns_on_ret; plain|].
  case_decide; [token; apply returns_on_ret; plain|].
  case_decide.
  { token. token.
    match goal with H : lexed ?t |- context [is_delimiter "(" ?t] =>
      rewrite (lexed_not_opening t H) end.
    apply returns_on_ret. plain. }
  match goal with H : lexed ?t |- context [is_delimiter "(" ?t] =>
    rewrite (lexed_not_opening t H) end.
  token. apply returns_on_ret. plain.
Qed.

Lemma parse_expression_statement_plain fuel :
  plainly (Parser.parse_expression_statement fuel).
Proof.
  unfold plainly in *.
  unfold Parser.parse_expression_statement. token. token.
  match goal with H : lexed ?t |- context [Parser.assignment_ahead ?c ?t] =>
    rewrite (lexed_not_assignment c t H) end.
  apply parse_expression_plain.
Qed.

Lemma parse_block_plain pst : plainly pst → plainly (Parser.parse_block pst).
Proof.
  unfold plainly in *.
  intros Hst. unfold Parser.parse_block. token. token. token. case_decide.
  - eapply returns_on_bind; [exact Hst|]. intros st Hst'.
    apply returns_on_ret. plain.
  - apply returns_on_ret. plain.
Qed.

Lemma parameters_loop_plain fuel : ∀ params,
  forallb no_assignment_or_call params = true →
  returns_on (fun l => forallb no_assignment_or_call l = true)
    (Parser.parameters_loop fuel params).
Proof.
  induction fuel as [|fuel IH]; intros params Hps;
    cbn [Parser.parameters_loop]; [apply returns_on_out_of_fuel|].
  token. case_decide; [by apply returns_on_ret|]. token. token.
  assert (forallb no_assignment_or_call
            (params ++ [leaf "PARAMETER" (value a)]) = true)
    as Hps' by (apply forallb_snoc; [done | plain]).
  destruct (is_delimiter "," _).
  - token. by apply IH.
  - by apply returns_on_ret.
Qed.

Lemma parse_function_definition_plain fuel pst :
  plainly pst → plainly (Parser.parse_function_definition fuel pst).
Proof.
  unfold plainly in *.
  intros Hst. unfold Parser.parse_function_definition. do 6 token.
  apply (returns_on_bind (fun l => forallb no_assignment_or_call l = true)).
  { destruct (negb _); [by apply parameters_loop_plain | by apply returns_on_ret]. }
  intros params Hps. token. token.
  eapply returns_on_bind; [by apply parse_block_plain|]. intros body Hbody.
  apply returns_on_ret. plain.
Qed.

Lemma parse_if_statement_plain fuel pst :
  plainly pst → plainly (Parser.parse_if_statement fuel pst).
Proof.
  unfold plainly in *.
  intros Hst. unfold Parser.parse_if_statement. token.
  eapply returns_on_bind; [apply parse_expression_plain|]. intros cond Hcond.
  eapply returns_on_bind; [by apply parse_block_plain|]. intros thn Hthn.
  token. destruct (is_keyword "else" _); [|apply returns_on_ret; plain].
  token. eapply returns_on_bind; [by apply parse_block_plain|]. intros els Hels.
  apply returns_on_ret. plain.
Qed.

Lemma parse_loop_plain fuel pst :
  plainly pst → plainly (Parser.parse_loop fuel pst).
Proof.
  unfold plainly in *.
  intros Hst. unfold Parser.parse_loop. token. case_decide.
  - token. token.
    apply (returns_on_bind (fun _ => True)).
    { destruct (is_keyword "in" _); [|apply returns_on_raise].
      token. by apply returns_on_ret. }
    intros _ _.
    eapply returns_on_bind; [apply parse_expression_plain|]. intros it Hit.
    eapply returns_on_bind; [by apply parse_block_plain|]. intros body Hbody.
    apply returns_on_ret. plain.
  - eapply returns_on_bind; [apply parse_expression_plain|]. intros cond Hcond.
    eapply returns_on_bind; [by apply parse_block_plain|]. intros body Hbody.
    apply returns_on_ret. plain.
Qed.

Lemma parse_statement_plain fuel : plainly (Parser.parse_statement fuel).
Proof.
  unfold plainly in *.
  induction fuel as [|fuel IH]; cbn [Parser.parse_statement];
    [apply returns_on_out_of_fuel|].
  token. destruct (is_keyword "def" _);
    [by apply parse_function_definition_plain|].
  destruct (is_keyword "if" _); [by apply parse_if_statement_plain|].
  destruct (_ && _); [by apply parse_loop_plain|].
  apply parse_expression_statement_plain.
Qed.

Lemma program_loop_plain pst :
  plainly pst →
  ∀ fuel stmts, forallb no_assignment_or_call stmts = true →
    returns_on (fun l => forallb no_assignment_or_call l = true)
      (Parser.program_loop pst fuel stmts).
Proof.
  unfold plainly in *.
  intros Hst. induction fuel as [|fuel IH]; intros stmts Hstmts;
    cbn [Parser.program_loop]; [apply returns_on_out_of_fuel|].
  token. case_decide; [|by apply returns_on_ret].
  eapply returns_on_bind; [exact Hst|]. intros st Hst'.
  apply IH. by apply forallb_snoc.
Qed.

Lemma parse_program_plain fuel : plainly (Parser.parse_program fuel).
Proof.
  unfold plainly in *.
  unfold Parser.parse_program.
  eapply returns_on_bind;
    [by apply program_loop_plain; [apply parse_statement_plain|]|].
  intros stmts Hstmts. apply returns_on_ret. plain.
Qed.

(** X20. From the tokens that [tokenize] returns, the parser never builds an
    ASSIGNMENT or a FUNCTION_CALL node: [normalize_text] has deleted [=] and
    the parentheses, so the tests for an assignment and for a call never
    hold (the Unicode database classifying none of these characters as a
    word character or white space). *)
Theorem lexer_tokens_parse_without_assignment_or_call (U : Unicode)
    (text : pystr) :
  punctuation_unclassified U →
  ∃ toks,
    tokenize U default_lexer text = Some toks
    ∧ match Parser.parse toks with
      | Parser.Returns (Some ast) => no_assignment_or_call ast = true
      | Parser.Returns None => True
      | Parser.Unfinished => False
      end.
Proof.
  intros HU.
  destruct (tokenize_scan U default_lexer text) as (ts & final & Htok & _).
  eexists. split; [exact Htok|].
  pose proof (tokenize_lexed U text _ HU Htok) as Hlexed.
  set (toks := ts ++ [mkToken (u "EOF") [] (Z.of_nat final)]) in *.
  pose proof (parse_program_wp toks (length toks + 2) (le_n _)) as Hret.
  pose proof (parse_program_plain (length toks + 2) (mkParser toks 0) Hlexed)
    as Hplain.
  unfold Parser.parse, Parser.parse_with, wp in *.
  destruct (Parser.parse_program (length toks + 2) (mkParser toks 0));
    [apply Hplain | done | done].
Qed.

Lemma lexer_tokens_parse_without_assignment_or_call_witness :
  punctuation_unclassified ascii_unicode
  ∧ ∃ toks,
      tokenize ascii_unicode default_lexer (u "x = f(1)") = Some toks
      ∧ match Parser.parse toks with
        | Parser.Returns (Some ast) => no_assignment_or_call ast = true
        | Parser.Returns None => True
        | Parser.Unfinished => False
        end.
Proof.
  split; [exact ascii_punctuation_unclassified|].
  apply (lexer_tokens_parse_without_assignment_or_call ascii_unicode
           (u "x = f(1)")).
  exact ascii_punctuation_unclassified.
Defined.

(* ================================================================== *)
(** * Scopes do not nest *)
(* ================================================================== *)

(** X17. The scope called ["global"] is the global scope: a symbol added
    after [enter_scope("global")] is a global symbol, found after
    [exit_scope]. *)
Theorem scope_named_global_is_global (t : SymbolTable) (name : pyname)
    (T : string) :
  table_ok t →
  ∃ t',
    (SymbolTable.enter_scope global ;; SymbolTable.add_symbol name T ;;
     SymbolTable.exit_scope) t = Ok tt t'
    ∧ current_scope t' = global
    ∧ SymbolTable.lookup name t'
      = Ok (Some (mkSymbol name (u T) global None)) t'.
Proof.
  intros Hok.
  destruct (enter_scope_ok t global Hok) as (t1 & E1 & Hok1 & Hc1).
  destruct (add_symbol_run t1 name T Hok1) as (d & Hd & E2).
  rewrite Hc1 in *.
  eexists. split.
  { unfold bind. rewrite E1, E2. unfold SymbolTable.exit_scope, modify.
    cbn [symbols]. reflexivity. }
  cbn [current_scope]. split; [done|].
  rewrite (lookup_value _ name
             (<[name := mkSymbol name (u T) global None]> d)
             (<[name := mkSymbol name (u T) global None]> d));
    [ by rewrite lookup_insert_eq
    | cbn; by rewrite lookup_insert_eq
    | cbn; by rewrite lookup_insert_eq ].
Qed.

Lemma scope_named_global_is_global_witness :
  table_ok SymbolTable.init
  ∧ ∃ t',
      (SymbolTable.enter_scope global ;;
       SymbolTable.add_symbol (Some (u "p")) "PARAMETER" ;;
       SymbolTable.exit_scope) SymbolTable.init = Ok tt t'
      ∧ current_scope t' = global
      ∧ SymbolTable.lookup (Some (u "p")) t'
        = Ok (Some (mkSymbol (Some (u "p")) (u "PARAMETER") global None)) t'.
Proof.
  split; [exact table_ok_init|].
  apply (scope_named_global_is_global SymbolTable.init (Some (u "p")) "PARAMETER").
  exact table_ok_init.
Defined.

(** X18. When the analysis of a function definition returns, the current
    scope is the global one, whatever it was before: after a definition
    nested in another function, what follows is analyzed in the global
    scope, not in the scope of the enclosing function. *)
Theorem function_def_leaves_global_scope (v : pyname) (kids : list ASTNode)
    (self : SemanticAnalyzer) :
  table_ok (symbol_table self) →
  match Semantic._analyze_node (mkNode (u "FUNCTION_DEF") v kids) self with
  | Ok _ self' => current_scope (symbol_table self') = global
  | Raised _ _ => True
  | OutOfFuel => False
  end.
Proof.
  intros Hok. cbn [Semantic._analyze_node node_type].
  unfold Semantic.is_type. eval_tests.
  unfold Semantic._analyze_function_def. cbn [children node_value].
  pose proof (declare_function_completes v self Hok) as Hdeclare.
  unfold completes, wp in Hdeclare. unfold bind at 1.
  destruct (Semantic.declare_function v self) as [[] s1| |]; [|done|done].
  destruct kids as [|params_node [|body_node rest]].
  - done.
  - unfold bind at 1.
    by destruct (add_parameters_quiet (children params_node) s1 Hdeclare)
      as (s2 & -> & _ & _).
  - unfold bind at 1.
    destruct (add_parameters_quiet (children params_node) s1 Hdeclare)
      as (s2 & -> & _ & Hok2).
    pose proof (keeps_analyze_node body_node s2 Hok2) as Hbody.
    unfold wp in Hbody. unfold bind.
    destruct (Semantic._analyze_node body_node s2) as [[] s3|e s3|];
      [|done|done].
    unfold Semantic.on_table, SymbolTable.exit_scope, modify. done.
Qed.

Lemma function_def_leaves_global_scope_witness :
  table_ok (mkTable {[ global := ∅; Some (u "outer") := ∅ ]} (Some (u "outer")))
  ∧ match Semantic._analyze_node (empty_function "inner")
            (mkAnalyzer
               (mkTable {[ global := ∅; Some (u "outer") := ∅ ]}
                  (Some (u "outer"))) []) with
    | Ok _ self' => current_scope (symbol_table self') = global
    | Raised _ _ => True
    | OutOfFuel => False
    end.
Proof.
  assert (table_ok (mkTable {[ global := ∅; Some (u "outer") := ∅ ]}
                      (Some (u "outer")))) as Hok.
  { split; cbn [symbols current_scope].
    - rewrite lookup_insert_eq. by eexists.
    - rewrite lookup_insert_ne by differ. rewrite lookup_singleton_eq.
      by eexists. }
  split; [exact Hok|].
  exact (function_def_leaves_global_scope (Some (u "inner"))
           [node0 "PARAMETERS" []; node0 "BLOCK" []]
           (mkAnalyzer (mkTable {[ global := ∅; Some (u "outer") := ∅ ]}
                          (Some (u "outer"))) []) Hok).
Defined.

(* ================================================================== *)
(** * The limited reading follows the unbounded one *)
(* ================================================================== *)

Section Sim.
Context {St : Type} (I : exn → Prop).
Hypothesis I_recursion : I recursion_error.

Lemma sim_refl {A} (m : M St A) : sim I m m.
Proof. intros s. by left. Qed.

Lemma sim_bind {A B} (ml mi : M St A) (kl ki : A → M St B) :
  sim I ml mi → (∀ a, sim I (kl a) (ki a)) →
  sim I (bind ml kl) (bind mi ki).
Proof.
  intros Hm Hk s. unfold bind.
  destruct (Hm s) as [->|(e & s' & -> & He)].
  - destruct (mi s) as [a s'| |]; [apply Hk|by left|by left].
  - right. by exists e, s'.
Qed.

Lemma sim_call {A} frames (callee : nat → M St A) mi :
  (∀ n, sim I (callee n) mi) → sim I (Limited.call frames callee) mi.
Proof.
  intros H s. destruct frames as [|n]; cbn.
  - right. by exists recursion_error, s.
  - apply H.
Qed.

Lemma sim_if {A} (c : bool) (ml ml' mi mi' : M St A) :
  sim I ml mi → sim I ml' mi' →
  sim I (if c then ml else ml') (if c then mi else mi').
Proof. by destruct c. Qed.

Lemma sim_skip {A B} (ml : M St A) f (kl : A → M St B) mi :
  reads I ml f → (∀ s0, sim I (kl (f s0)) mi) → sim I (bind ml kl) mi.
Proof.
  intros Hm Hk s. unfold bind.
  destruct (Hm s) as [->|(e & s' & -> & He)]; [apply Hk|].
  right. by exists e, s'.
Qed.

Lemma sim_read {A A' B} (ml : M St A) f (mi : M St A') g
    (kl : A → M St B) (ki : A' → M St B) :
  reads I ml f → (∀ s, mi s = Ok (g s) s) →
  (∀ s0, sim I (kl (f s0)) (ki (g s0))) →
  sim I (bind ml kl) (bind mi ki).
Proof.
  intros Hm Hi Hk s. unfold bind. rewrite Hi.
  destruct (Hm s) as [->|(e & s' & -> & He)]; [apply Hk|].
  right. by exists e, s'.
Qed.

(** The limited method ends with a step that only reads. *)
Lemma sim_last {A} (ml : M St A) f mi :
  reads I ml f → (∀ s, mi s = Ok (f s) s) → sim I ml mi.
Proof.
  intros Hm Hi s. rewrite Hi.
  destruct (Hm s) as [->|?]; [by left|by right].
Qed.

Lemma sim_read2 {A1 A2 B} (ml : M St bool) (test : A1 → A2 → bool)
    (mi1 : M St A1) g1 (mi2 : M St A2) g2
    (kl : bool → M St B) (ki : A1 → A2 → M St B) :
  reads I ml (fun s => test (g1 s) (g2 s)) →
  (∀ s, mi1 s = Ok (g1 s) s) → (∀ s, mi2 s = Ok (g2 s) s) →
  (∀ a1 a2, sim I (kl (test a1 a2)) (ki a1 a2)) →
  sim I (bind ml kl) (bind mi1 (fun a1 => bind mi2 (fun a2 => ki a1 a2))).
Proof.
  intros Hm H1 H2 Hk s. unfold bind. rewrite H1, H2.
  destruct (Hm s) as [->|(e & s' & -> & He)]; [apply Hk|].
  right. by exists e, s'.
Qed.

Lemma sim_build {A} frames (v : A) :
  sim I (Limited.build frames v) (ret v : M St A).
Proof.
  intros s. destruct frames; cbn; [right; by exists recursion_error, s|by left].
Qed.

Lemma sim_assoc {A B C} (m : M St A) (f : A → M St B) (k : B → M St C) mi :
  sim I (bind m (fun x => bind (f x) k)) mi → sim I (bind (bind m f) k) mi.
Proof.
  intros H s. specialize (H s). unfold bind in *.
  by destruct (m s) as [a s1| |]; [destruct (f a s1)| |].
Qed.

Lemma sim_wp {A} (ml mi : M St A) s Q R F :
  sim I ml mi → wp mi s Q R F →
  wp ml s Q (fun e s' => R e s' ∨ I e) F.
Proof.
  intros Hm. unfold wp. destruct (Hm s) as [->|(e & s' & -> & He)].
  - destruct (mi s); [done|by left|done].
  - intros _. by right.
Qed.

Lemma reads_ret {A} (v : A) : reads I (ret v) (fun _ : St => v).
Proof. intros s. by left. Qed.

Lemma reads_call {A} frames (callee : nat → M St A) f :
  (∀ n, reads I (callee n) f) → reads I (Limited.call frames callee) f.
Proof.
  intros H s. destruct frames as [|n]; cbn.
  - right. by exists recursion_error, s.
  - apply H.
Qed.

Lemma reads_build {A} frames (v : A) :
  reads I (Limited.build frames v) (fun _ : St => v).
Proof. apply reads_call. intros _. apply reads_ret. Qed.

Lemma reads_bind {A B} (m : M St A) f (k : A → M St B) g :
  reads I m f → (∀ a, reads I (k a) (g a)) →
  reads I (bind m k) (fun s => g (f s) s).
Proof.
  intros Hm Hk s. unfold bind.
  destruct (Hm s) as [->|(e & s' & -> & He)]; [apply Hk|].
  right. by exists e, s'.
Qed.

Lemma reads_is {A} `{EqDecision A} (m : M St A) f (v : A) :
  reads I m f → reads I (Limited.is_ m v) (fun s => bool_decide (f s = v)).
Proof.
  intros Hm s. unfold Limited.is_, bind.
  destruct (Hm s) as [->|(e & s' & -> & He)]; [by left|].
  right. by exists e, s'.
Qed.

Lemma reads_is_not {A} `{EqDecision A} (m : M St A) f (v : A) :
  reads I m f → reads I (Limited.is_not m v) (fun s => bool_decide (f s ≠ v)).
Proof.
  intros Hm s. unfold Limited.is_not, bind.
  destruct (Hm s) as [->|(e & s' & -> & He)]; [by left|].
  right. by exists e, s'.
Qed.

Lemma reads_and (a b : M St bool) fa fb :
  reads I a fa → reads I b fb →
  reads I (Limited.and_ a b) (fun s => fa s && fb s).
Proof.
  intros Ha Hb s. unfold Limited.and_, bind.
  destruct (Ha s) as [->|(e & s' & -> & He)]; [|right; by exists e, s'].
  destruct (fa s); [apply Hb|by left].
Qed.

Lemma reads_or (a b : M St bool) fa fb :
  reads I a fa → reads I b fb →
  reads I (Limited.or_ a b) (fun s => fa s || fb s).
Proof.
  intros Ha Hb s. unfold Limited.or_, bind.
  destruct (Ha s) as [->|(e & s' & -> & He)]; [|right; by exists e, s'].
  destruct (fa s); [by left|apply Hb].
Qed.

End Sim.

Lemma recursion_error_is : is_RecursionError recursion_error.
Proof. by eexists. Qed.

(* ================================================================== *)
(** * The parser within the limits *)
(* ================================================================== *)

Section LimitedParser.
Variable stdout : pystr → option pystr.

Lemma stops_recursion : stopped stdout recursion_error.
Proof. left. apply recursion_error_is. Qed.

Lemma reads_print text : reads (stopped stdout) (Limited.print stdout text) (fun _ => tt).
Proof.
  intros s. unfold Limited.print.
  destruct (stdout text) as [msg|] eqn:E; [|by left].
  right. exists (OutputError msg), s. split; [done|]. right. by exists text, msg.
Qed.

Lemma reads_current_token frames :
  reads (stopped stdout) (Limited.current_token frames) current.
Proof.
  intros s. unfold Limited.current_token, bind, get, current, Parser.token_at.
  destruct (tokens s !! current_token_index s); [by left|].
  apply (reads_build (stopped stdout) stops_recursion).
Qed.

Lemma reads_peek_next_token frames :
  reads (stopped stdout) (Limited.peek_next_token frames)
    (fun s => Parser.token_at s (current_token_index s + 1)).
Proof.
  intros s. unfold Limited.peek_next_token, bind, get, Parser.token_at.
  destruct (tokens s !! (current_token_index s + 1)); [by left|].
  apply (reads_build (stopped stdout) stops_recursion).
Qed.

Lemma reads_attr {X} frames method f (field : Token → X) :
  (∀ n, reads (stopped stdout) (method n) f) →
  reads (stopped stdout) (Limited.attr frames method field) (fun s => field (f s)).
Proof.
  intros H. unfold Limited.attr.
  apply (reads_bind (stopped stdout) _ f _ (fun t _ => field t)).
  - by apply reads_call; [apply stops_recursion|].
  - intros a. apply reads_ret.
Qed.

Lemma reads_current_is frames (T v : string) :
  reads (stopped stdout) (Limited.current_is frames T v)
    (fun s => bool_decide (type (current s) = u T)
              && bool_decide (value (current s) = u v)).
Proof.
  unfold Limited.current_is.
  apply reads_and; apply reads_is;
    apply (reads_attr frames _ current); apply reads_current_token.
Qed.

Lemma reads_current_is_not frames (T v : string) :
  reads (stopped stdout) (Limited.current_is_not frames T v)
    (fun s => negb (bool_decide (type (current s) = u T)
                    && bool_decide (value (current s) = u v))).
Proof.
  unfold Limited.current_is_not. intros s.
  destruct (reads_or (stopped stdout) _ _ _ _
              (reads_is_not (stopped stdout) _ _ (u T)
                 (reads_attr frames _ current type (reads_current_token)))
              (reads_is_not (stopped stdout) _ _ (u v)
                 (reads_attr frames _ current value (reads_current_token))) s)
    as [->|?]; [left|by right].
  f_equal. by repeat case_bool_decide.
Qed.

Lemma current_token_run s : Parser.current_token s = Ok (current s) s.
Proof. done. Qed.

Lemma peek_next_token_run s :
  Parser.peek_next_token s
  = Ok (Parser.token_at s (current_token_index s + 1)) s.
Proof. done. Qed.

Lemma sim_current_token frames :
  sim (stopped stdout) (Limited.call frames Limited.current_token) Parser.current_token.
Proof.
  apply sim_call; [apply stops_recursion|]. intros n.
  apply (sim_last (stopped stdout) _ current); [apply reads_current_token|done].
Qed.

Lemma sim_consume frames :
  sim (stopped stdout) (Limited.call frames Limited.consume) Parser.consume.
Proof.
  apply sim_call; [apply stops_recursion|]. intros n.
  unfold Limited.consume, Parser.consume.
  apply sim_bind; [apply sim_current_token|]. intros token. apply sim_refl.
Qed.

Lemma sim_expect frames T :
  sim (stopped stdout) (Limited.call frames (Limited.expect T)) (Parser.expect T).
Proof.
  apply sim_call; [apply stops_recursion|]. intros n.
  unfold Limited.expect, Parser.expect.
  apply sim_bind; [apply sim_current_token|]. intros token.
  destruct (decide (type token ≠ u T)); [apply sim_refl|apply sim_consume].
Qed.

Lemma reads_is_delimiter frames d :
  reads (stopped stdout) (Limited.current_is frames "DELIMITER" d)
    (fun s => is_delimiter d (current s)).
Proof. apply reads_current_is. Qed.

Lemma reads_is_keyword frames k :
  reads (stopped stdout) (Limited.current_is frames "KEYWORD" k)
    (fun s => is_keyword k (current s)).
Proof. apply reads_current_is. Qed.

Lemma reads_not_delimiter frames d :
  reads (stopped stdout) (Limited.current_is_not frames "DELIMITER" d)
    (fun s => negb (is_delimiter d (current s))).
Proof. apply reads_current_is_not. Qed.

(** A test of the current token against the same test on the token that
    [current_token] returns. *)
Lemma sim_test {B} (ml : Parser.P bool) (test : Token → bool)
    (kl : bool → Parser.P B) (ki : Token → Parser.P B) :
  reads (stopped stdout) ml (fun s => test (current s)) →
  (∀ token, sim (stopped stdout) (kl (test token)) (ki token)) →
  sim (stopped stdout) (bind ml kl) (bind Parser.current_token ki).
Proof.
  intros Hm Hk.
  apply (sim_read (stopped stdout) ml (fun s => test (current s)) _ current);
    [done|done|].
  intros s0. apply Hk.
Qed.

Lemma reads_warn_delimiter frames d :
  reads (stopped stdout) (Limited.warn_delimiter stdout frames d) (fun _ => tt).
Proof.
  unfold Limited.warn_delimiter.
  apply (reads_bind (stopped stdout) _ (fun s => type (current s)) _ (fun _ _ => tt)).
  { apply (reads_attr frames _ current), reads_current_token. }
  intros found_type.
  apply (reads_bind (stopped stdout) _ (fun s => value (current s)) _ (fun _ _ => tt)).
  { apply (reads_attr frames _ current), reads_current_token. }
  intros found_value. apply reads_print.
Qed.

(** [if <delimiter here>: self.consume() else: print(...)] against the
    same without the [print]. *)
Lemma sim_consume_delimiter {B} frames d (kl ki : unit → Parser.P B) :
  (∀ x, sim (stopped stdout) (kl x) (ki x)) →
  sim (stopped stdout) (bind (Limited.consume_delimiter stdout frames d) kl)
    (token <- Parser.current_token ;;
     bind (when (is_delimiter d token) (Parser.consume ;; ret tt)) ki).
Proof.
  intros Hk. unfold Limited.consume_delimiter. apply sim_assoc.
  apply (sim_test _ (is_delimiter d)); [apply reads_is_delimiter|].
  intros token. destruct (is_delimiter d token); cbn [when].
  - apply sim_bind; [|exact Hk].
    apply sim_bind; [apply sim_consume|]. intros _. apply sim_refl.
  - apply (sim_skip (stopped stdout) _ (fun _ => tt)); [apply reads_warn_delimiter|].
    intros _ s. apply Hk.
Qed.

Lemma reads_when_print (c : bool) text :
  reads (stopped stdout) (when c (Limited.print stdout text)) (fun _ => tt).
Proof. destruct c; [apply reads_print|apply reads_ret]. Qed.

Lemma reads_the_current_token frames :
  reads (stopped stdout) (Limited.call frames Limited.current_token) current.
Proof.
  apply reads_call; [apply stops_recursion|]. apply reads_current_token.
Qed.

Lemma reads_not_EOF frames :
  reads (stopped stdout)
    (Limited.is_not (Limited.attr frames Limited.current_token type) (u "EOF"))
    (fun s => bool_decide (type (current s) ≠ u "EOF")).
Proof.
  apply reads_is_not, (reads_attr frames _ current), reads_current_token.
Qed.

(** One step of a method in both readings. *)
Ltac sim_step :=
  cbv zeta;
  lazymatch goal with
  | |- sim _ ?m ?m => apply sim_refl
  | |- sim _ (Limited.build _ ?v) (ret ?v) =>
      apply sim_build, stops_recursion
  | |- sim _ (Limited.call _ Limited.consume) Parser.consume =>
      apply sim_consume
  | |- sim _ (Limited.call _ (Limited.expect _)) (Parser.expect _) =>
      apply sim_expect
  | |- sim _ (bind (Limited.call _ Limited.current_token) _)
             (bind Parser.current_token _) =>
      apply sim_bind; [apply sim_current_token | intros ?]
  | |- sim _ (bind (Limited.call _ Limited.consume) _) (bind Parser.consume _) =>
      apply sim_bind; [apply sim_consume | intros ?]
  | |- sim _ (bind (Limited.call _ (Limited.expect _)) _)
             (bind (Parser.expect _) _) =>
      apply sim_bind; [apply sim_expect | intros ?]
  | |- sim _ (bind (Limited.build _ ?v) _) _ =>
      apply (sim_skip (stopped stdout) _ (fun _ => v));
        [apply reads_build, stops_recursion | intros _; cbn [children app]]
  | |- sim _ (bind (Limited.add_child _ ?l ?c) _) _ =>
      apply (sim_skip (stopped stdout) _ (fun _ => l ++ [c]));
        [apply reads_build, stops_recursion | intros _; cbn [children app]]
  | |- sim _ (bind (Limited.print _ _) _) _ =>
      apply (sim_skip (stopped stdout) _ (fun _ => tt)); [apply reads_print | intros _]
  | |- sim _ (bind (when _ (Limited.print _ _)) _) _ =>
      apply (sim_skip (stopped stdout) _ (fun _ => tt)); [apply reads_when_print | intros _]
  | |- sim _ (bind (Limited.current_is _ "DELIMITER" ?d) _)
             (bind Parser.current_token _) =>
      apply (sim_test _ (is_delimiter d)); [apply reads_is_delimiter | intros ?]
  | |- sim _ (bind (Limited.current_is _ "KEYWORD" ?k) _)
             (bind Parser.current_token _) =>
      apply (sim_test _ (is_keyword k)); [apply reads_is_keyword | intros ?]
  | |- sim _ (bind (Limited.current_is_not _ "DELIMITER" ?d) _)
             (bind Parser.current_token _) =>
      apply (sim_test _ (fun t => negb (is_delimiter d t)));
        [apply reads_not_delimiter | intros ?]
  | |- sim _ (bind (Limited.is_not _ (u "EOF")) _)
             (bind Parser.current_token _) =>
      apply (sim_test _ (fun t => bool_decide (type t ≠ u "EOF")));
        [apply reads_not_EOF | intros ?; cbv beta]
  | |- sim _ (bind (Limited.consume_delimiter _ _ _) _) _ =>
      apply sim_consume_delimiter; intros ?
  | |- sim _ (bind (Limited.call _ _) _) (bind _ _) =>
      apply sim_bind;
        [apply sim_call; [apply stops_recursion | intros ?] | intros ?]
  | |- sim _ (Limited.call _ _) _ =>
      apply sim_call; [apply stops_recursion | intros ?]
  | |- sim _ (if bool_decide ?P then _ else _) (if decide ?P then _ else _) =>
      destruct (decide P) as [?H|?H];
        [rewrite (bool_decide_eq_true_2 _ H)
        | rewrite (bool_decide_eq_false_2 _ H)]
  | |- sim _ (if ?c then _ else _) (if ?c then _ else _) => destruct c
  | |- sim _ (bind (if ?c then _ else _) _) (bind (if ?c then _ else _) _) =>
      apply sim_bind; [destruct c | intros ?]
  | |- sim _ _ _ => apply sim_refl
  end.

Lemma sim_arguments_loop pel pei :
  (∀ n, sim (stopped stdout) (pel n) pei) →
  ∀ fuel frames args,
    sim (stopped stdout) (Limited.arguments_loop pel frames fuel args)
      (Parser.arguments_loop pei fuel args).
Proof.
  intros Hpe. induction fuel as [|fuel IH]; intros frames args;
    [apply sim_refl|].
  cbn [Limited.arguments_loop Parser.arguments_loop].
  repeat sim_step; [apply Hpe|apply IH].
Qed.

Lemma sim_parse_expression fuel : ∀ frames,
  sim (stopped stdout) (Limited.parse_expression fuel frames) (Parser.parse_expression fuel).
Proof.
  induction fuel as [|fuel IH]; intros frames; [apply sim_refl|].
  cbn [Limited.parse_expression Parser.parse_expression].
  repeat sim_step; [|apply IH].
  apply sim_arguments_loop. intros k. apply IH.
Qed.

Lemma reads_assignment_ahead frames :
  reads (stopped stdout) (Limited.assignment_ahead frames)
    (fun s =>
       Parser.assignment_ahead (current s)
         (Parser.token_at s (current_token_index s + 1))).
Proof.
  unfold Limited.assignment_ahead, Parser.assignment_ahead.
  apply (reads_and (stopped stdout) _ _
           (fun s => bool_decide (type (current s) = u "IDENTIFIER")
                     && bool_decide
                          (type (Parser.token_at s (current_token_index s + 1))
                           = u "OPERATOR"))
           (fun s => bool_decide
                       (value (Parser.token_at s (current_token_index s + 1))
                        = u "="))).
  - apply (reads_and (stopped stdout) _ _
             (fun s => bool_decide (type (current s) = u "IDENTIFIER"))
             (fun s => bool_decide
                         (type (Parser.token_at s (current_token_index s + 1))
                          = u "OPERATOR"))).
    + apply reads_is, (reads_attr frames _ current), reads_current_token.
    + apply reads_is.
      apply (reads_attr frames _
               (fun s => Parser.token_at s (current_token_index s + 1))).
      apply reads_peek_next_token.
  - apply reads_is.
    apply (reads_attr frames _
             (fun s => Parser.token_at s (current_token_index s + 1))).
    apply reads_peek_next_token.
Qed.

Lemma sim_parse_expression_statement fuel frames :
  sim (stopped stdout) (Limited.parse_expression_statement fuel frames)
    (Parser.parse_expression_statement fuel).
Proof.
  unfold Limited.parse_expression_statement, Parser.parse_expression_statement.
  apply (sim_read2 (stopped stdout) _ Parser.assignment_ahead _ current _
           (fun s => Parser.token_at s (current_token_index s + 1)));
    [apply reads_assignment_ahead|done|done|].
  intros current next. repeat sim_step; apply sim_parse_expression.
Qed.

Lemma sim_parse_block pstl psti frames :
  (∀ n, sim (stopped stdout) (pstl n) psti) →
  sim (stopped stdout) (Limited.parse_block stdout pstl frames) (Parser.parse_block psti).
Proof.
  intros Hpst. unfold Limited.parse_block, Parser.parse_block.
  repeat sim_step. apply Hpst.
Qed.

Lemma sim_parameters_loop frames : ∀ fuel params,
  sim (stopped stdout) (Limited.parameters_loop stdout frames fuel params)
    (Parser.parameters_loop fuel params).
Proof.
  induction fuel as [|fuel IH]; intros params; [apply sim_refl|].
  cbn [Limited.parameters_loop Parser.parameters_loop].
  repeat sim_step. apply IH.
Qed.

Lemma sim_parse_function_definition fuel pstl psti frames :
  (∀ n, sim (stopped stdout) (pstl n) psti) →
  sim (stopped stdout) (Limited.parse_function_definition stdout fuel pstl frames)
    (Parser.parse_function_definition fuel psti).
Proof.
  intros Hpst.
  unfold Limited.parse_function_definition, Parser.parse_function_definition.
  sim_step.
  apply (sim_skip (stopped stdout) _ current); [apply reads_the_current_token|].
  intros s0. repeat sim_step;
    [apply sim_parameters_loop | by apply sim_parse_block].
Qed.

Lemma sim_parse_if_statement fuel pstl psti frames :
  (∀ n, sim (stopped stdout) (pstl n) psti) →
  sim (stopped stdout) (Limited.parse_if_statement stdout fuel pstl frames)
    (Parser.parse_if_statement fuel psti).
Proof.
  intros Hpst.
  unfold Limited.parse_if_statement, Parser.parse_if_statement.
  repeat sim_step;
    [apply sim_parse_expression | by apply sim_parse_block..].
Qed.

Lemma sim_parse_loop fuel pstl psti frames :
  (∀ n, sim (stopped stdout) (pstl n) psti) →
  sim (stopped stdout) (Limited.parse_loop stdout fuel pstl frames)
    (Parser.parse_loop fuel psti).
Proof.
  intros Hpst. unfold Limited.parse_loop, Parser.parse_loop.
  sim_step. destruct (decide (value _ = u "for"));
    repeat sim_step;
    first [apply sim_parse_expression | by apply sim_parse_block].
Qed.

Lemma sim_parse_statement fuel : ∀ frames,
  sim (stopped stdout) (Limited.parse_statement stdout fuel frames)
    (Parser.parse_statement fuel).
Proof.
  induction fuel as [|fuel IH]; intros frames; [apply sim_refl|].
  cbn [Limited.parse_statement Parser.parse_statement].
  repeat sim_step;
    [by apply sim_parse_function_definition | by apply sim_parse_if_statement
    | by apply sim_parse_loop | apply sim_parse_expression_statement].
Qed.

Lemma sim_program_loop pstl psti frames :
  (∀ n, sim (stopped stdout) (pstl n) psti) →
  ∀ fuel stmts,
    sim (stopped stdout) (Limited.program_loop pstl frames fuel stmts)
      (Parser.program_loop psti fuel stmts).
Proof.
  intros Hpst. induction fuel as [|fuel IH]; intros stmts; [apply sim_refl|].
  cbn [Limited.program_loop Parser.program_loop].
  repeat sim_step; [apply Hpst | apply IH].
Qed.

Lemma sim_parse_program fuel frames :
  sim (stopped stdout) (Limited.parse_program stdout fuel frames)
    (Parser.parse_program fuel).
Proof.
  unfold Limited.parse_program, Parser.parse_program.
  sim_step. apply sim_bind; [|intros ?; apply sim_refl].
  apply sim_program_loop. intros n. apply sim_parse_statement.
Qed.

(** What [parse] runs is what the unbounded reading runs, or it is
    stopped. *)
Lemma parsing_cases frames toks :
  Limited.parsing stdout frames toks
  = Parser.parse_program (length toks + 2) (mkParser toks 0)
  ∨ ∃ e s', Limited.parsing stdout frames toks = Raised e s' ∧ (stopped stdout) e.
Proof.
  unfold Limited.parsing.
  apply (sim_call (stopped stdout) stops_recursion). intros n. apply sim_parse_program.
Qed.

(** A tree that [parse] returns within the limits is the tree of the
    unbounded reading. *)
Lemma parse_returns_same_tree frames toks ast :
  Limited.parse stdout frames toks = Parser.Returns (Some ast) →
  Parser.parse toks = Parser.Returns (Some ast).
Proof.
  unfold Limited.parse, Parser.parse, Parser.parse_with.
  destruct (parsing_cases frames toks) as [->|(e & s' & -> & _)]; [|done].
  by destruct (Parser.parse_program (length toks + 2) (mkParser toks 0)).
Qed.

End LimitedParser.

(* ================================================================== *)
(** * The analyzer and the generator within the limit *)
(* ================================================================== *)

(** One step of a traversal in both readings. *)
Ltac tree_step :=
  cbv zeta;
  lazymatch goal with
  | |- sim _ ?m ?m => apply sim_refl
  | |- sim _ (Limited.build _ ?v) (ret ?v) =>
      apply sim_build, recursion_error_is
  | |- sim _ (bind (Limited.build _ ?v) _) _ =>
      apply (sim_skip is_RecursionError _ (fun _ => v));
        [apply reads_build, recursion_error_is | intros _]
  | |- sim _ (bind (ret ?v) _) _ =>
      apply (sim_skip _ _ (fun _ => v)); [apply reads_ret | intros _]
  | |- sim _ (bind _ _) (bind _ _) => apply sim_bind; [|intros ?]
  | |- sim _ (Limited.call _ _) _ =>
      apply sim_call; [apply recursion_error_is | intros ?]
  | |- sim _ (match ?l with [] => _ | _ :: _ => _ end)
             (match ?l with [] => _ | _ :: _ => _ end) => destruct l
  | |- sim _ (match ?x with Some _ => _ | None => _ end)
             (match ?x with Some _ => _ | None => _ end) => destruct x
  | |- sim _ (if ?c then _ else _) (if ?c then _ else _) => destruct c
  | |- sim _ (when ?c _) (when ?c _) => destruct c; cbn [when]
  | |- sim _ _ _ => apply sim_refl
  end.

Lemma sim_on_table {X} I (ml mi : SymbolTable.T X) :
  sim I ml mi → sim I (Semantic.on_table ml) (Semantic.on_table mi).
Proof.
  intros H s. unfold Semantic.on_table.
  destruct (H (symbol_table s)) as [->|(e & t & -> & He)]; [by left|].
  right. by eexists _, _.
Qed.

Lemma sim_add_symbol name symbol_type frames :
  sim is_RecursionError (Limited.add_symbol name symbol_type frames)
    (SymbolTable.add_symbol name symbol_type).
Proof.
  unfold Limited.add_symbol, SymbolTable.add_symbol. repeat tree_step.
Qed.

Lemma sim_table_add_symbol frames name symbol_type :
  sim is_RecursionError (Limited.table_add_symbol frames name symbol_type)
    (Semantic.on_table (SymbolTable.add_symbol name symbol_type)).
Proof.
  unfold Limited.table_add_symbol. tree_step.
  apply sim_on_table, sim_add_symbol.
Qed.

Lemma sim_add_parameters frames params :
  sim is_RecursionError (Limited.add_parameters frames params)
    (Semantic.add_parameters params).
Proof.
  induction params as [|param rest IH];
    cbn [Limited.add_parameters Semantic.add_parameters]; [apply sim_refl|].
  tree_step; [apply sim_table_add_symbol|exact IH].
Qed.

Lemma sim_declare_function frames function_name :
  sim is_RecursionError (Limited.declare_function frames function_name)
    (Semantic.declare_function function_name).
Proof.
  unfold Limited.declare_function, Semantic.declare_function,
    Limited.table_lookup, Limited.table_enter_scope.
  repeat tree_step. apply sim_table_add_symbol.
Qed.

Lemma sim_define_target frames var_name :
  sim is_RecursionError (Limited.define_target frames var_name)
    (Semantic.define_target var_name).
Proof.
  unfold Limited.define_target, Semantic.define_target, Limited.table_lookup.
  repeat tree_step. apply sim_table_add_symbol.
Qed.

Lemma sim_check_callee frames function_name :
  sim is_RecursionError (Limited.check_callee frames function_name)
    (Semantic.check_callee function_name).
Proof.
  unfold Limited.check_callee, Semantic.check_callee, Limited.table_lookup.
  repeat tree_step.
Qed.

Lemma sim_analyze_variable node frames :
  sim is_RecursionError (Limited._analyze_variable node frames)
    (Semantic._analyze_variable node).
Proof.
  unfold Limited._analyze_variable, Semantic._analyze_variable,
    Limited.table_lookup.
  repeat tree_step.
Qed.

Lemma sim_for_each I (fl fi : ASTNode → Semantic.A unit) l :
  Forall (fun child => sim I (fl child) (fi child)) l →
  sim I (Semantic.for_each fl l) (Semantic.for_each fi l).
Proof.
  induction 1 as [|child rest Hchild _ IH]; cbn [Semantic.for_each];
    [apply sim_refl|].
  tree_step; [exact Hchild|exact IH].
Qed.

Lemma sim_analyze_node node :
  (∀ frames,
     sim is_RecursionError (Limited._analyze_node frames node)
       (Semantic._analyze_node node))
  ∧ (∀ frames,
       sim is_RecursionError
         (Semantic.for_each (Limited.visit Limited._analyze_node frames)
            (children node))
         (Semantic.analyze_each (children node))).
Proof.
  induction node as [ty v kids IH] using ASTNode_ind.
  assert (∀ k, k ∈ kids → ∀ frames,
            sim is_RecursionError (Limited.visit Limited._analyze_node frames k)
              (Semantic._analyze_node k)) as IH1.
  { intros k Hk frames. unfold Limited.visit. tree_step.
    by apply (proj1 (Forall_forall _ _) IH k Hk). }
  assert (∀ k, k ∈ kids → ∀ frames,
            sim is_RecursionError
              (Semantic.for_each (Limited.visit Limited._analyze_node frames)
                 (children k))
              (Semantic.analyze_each (children k))) as IH2.
  { intros k Hk. by apply (proj1 (Forall_forall _ _) IH k Hk). }
  clear IH.
  assert (∀ frames,
            sim is_RecursionError
              (Semantic.for_each (Limited.visit Limited._analyze_node frames) kids)
              (Semantic.analyze_each kids)) as Heach.
  { intros frames. apply sim_for_each, Forall_forall.
    intros k Hk. by apply IH1. }
  split; [|exact Heach]. intros frames.
  cbn [Limited._analyze_node Semantic._analyze_node node_type].
  unfold Limited._analyze_program, Limited._analyze_function_def,
    Limited._analyze_block, Limited._analyze_if_statement,
    Limited._analyze_for_loop, Limited._analyze_while_loop,
    Limited._analyze_assignment, Limited._analyze_function_call,
    Semantic._analyze_program, Semantic._analyze_function_def,
    Semantic._analyze_block, Semantic._analyze_if_statement,
    Semantic._analyze_for_loop, Semantic._analyze_while_loop,
    Semantic._analyze_assignment, Semantic._analyze_function_call,
    Limited.table_exit_scope.
  cbn [children node_value]. fold Semantic.analyze_each.
  repeat tree_step;
    first [ apply Heach
          | apply sim_declare_function | apply sim_add_parameters
          | apply sim_table_add_symbol | apply sim_define_target
          | apply sim_check_callee | apply sim_analyze_variable
          | apply IH1; set_solver | apply IH2; set_solver ].
Qed.

(** What [analyze] runs is what the unbounded reading runs, or the
    recursion limit (stopped stdout) it. *)
Lemma analyzing_cases frames ast self :
  Limited.analyzing frames ast self
  = Semantic._analyze_node ast (mkAnalyzer (symbol_table self) [])
  ∨ ∃ e self', Limited.analyzing frames ast self = Raised e self'
               ∧ is_RecursionError e.
Proof.
  unfold Limited.analyzing.
  apply (sim_call is_RecursionError recursion_error_is).
  intros n. apply sim_analyze_node.
Qed.

Section LimitedGenerator.
Context (U : Unicode) (logging : nat).

Lemma reads_log frames :
  reads is_RecursionError (Limited.log logging frames) (fun _ => tt).
Proof.
  intros s. unfold Limited.log. destruct (frames <? logging); [|by left].
  right. exists recursion_error, s. split; [done|apply recursion_error_is].
Qed.

Lemma sim_indent frames : sim is_RecursionError (Limited.indent frames) _indent.
Proof. unfold Limited.indent. repeat tree_step. Qed.

Lemma sim_or_pass frames code filler :
  sim is_RecursionError (Limited.or_pass U frames code filler)
    (or_pass U code filler).
Proof.
  unfold Limited.or_pass, or_pass. repeat tree_step. apply sim_indent.
Qed.

Section Loops.
Variable limited_node : nat → ASTNode → G pyobj.
Variable kids : list ASTNode.
Hypothesis emits : ∀ k, k ∈ kids → ∀ frames,
  sim is_RecursionError (Limited.emit limited_node frames k)
    (_generate_node U k).

Lemma sim_deeper frames child filler :
  child ∈ kids →
  sim is_RecursionError (Limited.deeper U limited_node frames child filler)
    (deeper U (_generate_node U) child filler).
Proof.
  intros Hk. unfold Limited.deeper, deeper.
  repeat tree_step; [by apply emits|apply sim_or_pass].
Qed.

Lemma sim_generate_program_loop frames l : l ⊆ kids → ∀ code,
  sim is_RecursionError
    (Limited.generate_program_loop limited_node frames l code)
    (generate_program_loop (_generate_node U) l code).
Proof.
  induction l as [|child rest IH]; intros Hl code;
    cbn [Limited.generate_program_loop generate_program_loop];
    [apply sim_refl|].
  repeat tree_step; [apply emits; set_solver|apply IH; set_solver].
Qed.

Lemma sim_generate_block_loop frames l : l ⊆ kids → ∀ code,
  sim is_RecursionError
    (Limited.generate_block_loop limited_node frames l code)
    (generate_block_loop (_generate_node U) l code).
Proof.
  induction l as [|child rest IH]; intros Hl code;
    cbn [Limited.generate_block_loop generate_block_loop];
    [apply sim_refl|].
  tree_step; [apply emits; set_solver|].
  destruct a as [[|c cs]|]; [apply IH; set_solver| |apply IH; set_solver].
  tree_step; [apply sim_indent|apply IH; set_solver].
Qed.

Lemma sim_generate_arguments_loop frames l : l ⊆ kids →
  sim is_RecursionError
    (Limited.generate_arguments_loop limited_node frames l)
    (generate_arguments_loop (_generate_node U) l).
Proof.
  induction l as [|child rest IH]; intros Hl;
    cbn [Limited.generate_arguments_loop generate_arguments_loop];
    [apply sim_refl|].
  repeat tree_step; [apply emits; set_solver|apply IH; set_solver].
Qed.

End Loops.

Lemma sim_generate_node node : ∀ frames,
  sim is_RecursionError (Limited._generate_node U logging frames node)
    (_generate_node U node).
Proof.
  induction node as [ty v kids IH] using ASTNode_ind. intros frames.
  assert (∀ k, k ∈ kids → ∀ frames,
            sim is_RecursionError
              (Limited.emit (Limited._generate_node U logging) frames k)
              (_generate_node U k)) as IH1.
  { intros k Hk n. unfold Limited.emit. tree_step.
    by apply (proj1 (Forall_forall _ _) IH k Hk). }
  clear IH.
  cbn [Limited._generate_node _generate_node node_type].
  unfold Limited._generate_program, Limited._generate_function_def,
    Limited._generate_block, Limited._generate_if_statement,
    Limited._generate_for_loop, Limited._generate_while_loop,
    Limited._generate_assignment, Limited._generate_function_call,
    Limited._generate_condition, Limited._generate_then,
    Limited._generate_else, Limited._generate_arguments,
    Limited._generate_iterable, Limited._generate_body, Limited.first_child,
    _generate_program, _generate_function_def, _generate_block,
    _generate_if_statement, _generate_for_loop, _generate_while_loop,
    _generate_assignment, _generate_function_call, _generate_condition,
    _generate_then, _generate_else, _generate_arguments, _generate_iterable,
    _generate_body, first_child.
  cbn [children node_value].
  repeat match goal with
         | |- sim _ (if ?c then _ else _) (if ?c then _ else _) => destruct c
         end;
    try (apply (sim_skip is_RecursionError _ (fun _ => tt));
           [apply reads_log | intros _; apply sim_refl]);
    tree_step;
    repeat tree_step;
    first [ apply IH1; set_solver
          | apply (sim_deeper _ _ IH1); set_solver
          | apply (sim_generate_program_loop _ _ IH1); set_solver
          | apply (sim_generate_block_loop _ _ IH1); set_solver
          | apply (sim_generate_arguments_loop _ _ IH1); set_solver ].
Qed.

(** What [generate] runs is what the unbounded reading runs, or the
    recursion limit (stopped stdout) it. *)
Lemma generating_cases frames ast self :
  Limited.generating U logging frames ast self
  = (code <- _generate_node U ast ;; format_python_code U code) self
  ∨ ∃ e self', Limited.generating U logging frames ast self = Raised e self'
               ∧ is_RecursionError e.
Proof.
  unfold Limited.generating.
  apply (sim_bind is_RecursionError).
  - apply (sim_call is_RecursionError recursion_error_is).
    intros n. apply sim_generate_node.
  - intros code. apply (sim_call is_RecursionError recursion_error_is).
    intros _. apply sim_refl.
Qed.

End LimitedGenerator.

(* ================================================================== *)
(** * With room on the stack the two readings agree *)
(* ================================================================== *)

Lemma sim_never {St A} (ml mi : M St A) :
  sim never ml mi → ∀ s, ml s = mi s.
Proof. intros H s. by destruct (H s) as [?|(? & ? & _ & [])]. Qed.

Lemma height_child (k : ASTNode) kids :
  k ∈ kids → height k ≤ list_max (map height kids).
Proof.
  intros Hk. induction kids as [|k' kids IH]; [by apply elem_of_nil in Hk|].
  unfold list_max in *. cbn [map fold_right].
  apply elem_of_cons in Hk as [->|Hk]; [lia|].
  specialize (IH Hk). lia.
Qed.

Lemma add_symbol_with_room name symbol_type n :
  sim never (Limited.add_symbol name symbol_type (S n))
    (SymbolTable.add_symbol name symbol_type).
Proof.
  unfold Limited.add_symbol, SymbolTable.add_symbol.
  cbn [Limited.build Limited.call]. repeat tree_step.
Qed.



(** When [analyze] returns true within the limit, it does so with an
    unbounded stack, and leaves the same analyzer. *)
Lemma analyze_true_same frames ast self self' :
  Limited.analyze frames ast self = Some (true, self') →
  Semantic.analyze ast self = Some (true, self').
Proof.
  unfold Limited.analyze, Semantic.analyze.
  destruct (analyzing_cases frames ast self) as [->|(e & s' & -> & _)];
    [done|by intros [=]].
Qed.


Section GeneratorWithRoom.
Context (U : Unicode) (logging : nat).

Section Loops.
Variable limited_node : nat → ASTNode → G pyobj.
Variable kids : list ASTNode.
Variable frames : nat.
Hypothesis emits : ∀ k, k ∈ kids →
  sim never (limited_node frames k) (_generate_node U k).

Lemma deeper_with_room child filler :
  child ∈ kids →
  sim never (Limited.deeper U limited_node (S frames) child filler)
    (deeper U (_generate_node U) child filler).
Proof.
  intros Hk. unfold Limited.deeper, deeper, Limited.emit, Limited.or_pass,
    or_pass, Limited.indent.
  cbn [Limited.call]. repeat tree_step. by apply emits.
Qed.

Lemma generate_program_loop_with_room l : l ⊆ kids → ∀ code,
  sim never (Limited.generate_program_loop limited_node (S frames) l code)
    (generate_program_loop (_generate_node U) l code).
Proof.
  induction l as [|child rest IH]; intros Hl code;
    cbn [Limited.generate_program_loop generate_program_loop];
    [apply sim_refl|].
  unfold Limited.emit. cbn [Limited.call].
  repeat tree_step; [apply emits; set_solver|apply IH; set_solver].
Qed.

Lemma generate_block_loop_with_room l : l ⊆ kids → ∀ code,
  sim never (Limited.generate_block_loop limited_node (S frames) l code)
    (generate_block_loop (_generate_node U) l code).
Proof.
  induction l as [|child rest IH]; intros Hl code;
    cbn [Limited.generate_block_loop generate_block_loop];
    [apply sim_refl|].
  unfold Limited.emit, Limited.indent. cbn [Limited.call].
  tree_step; [apply emits; set_solver|].
  destruct a as [[|c cs]|]; [apply IH; set_solver| |apply IH; set_solver].
  tree_step; [apply sim_refl|apply IH; set_solver].
Qed.

Lemma generate_arguments_loop_with_room l : l ⊆ kids →
  sim never (Limited.generate_arguments_loop limited_node (S frames) l)
    (generate_arguments_loop (_generate_node U) l).
Proof.
  induction l as [|child rest IH]; intros Hl;
    cbn [Limited.generate_arguments_loop generate_arguments_loop];
    [apply sim_refl|].
  unfold Limited.emit. cbn [Limited.call].
  repeat tree_step; [apply emits; set_solver|apply IH; set_solver].
Qed.

End Loops.

Lemma generate_node_with_room node : ∀ frames,
  2 * height node + logging ≤ frames →
  sim never (Limited._generate_node U logging frames node)
    (_generate_node U node).
Proof.
  induction node as [ty v kids IH] using ASTNode_ind. intros frames Hf.
  cbn [height children] in Hf.
  destruct frames as [|[|frames]]; [lia..|].
  assert (∀ k, k ∈ kids →
            sim never (Limited._generate_node U logging frames k)
              (_generate_node U k)) as IH1.
  { intros k Hk. apply (proj1 (Forall_forall _ _) IH k Hk).
    pose proof (height_child k kids Hk). lia. }
  clear IH.
  cbn [Limited._generate_node _generate_node node_type].
  unfold Limited._generate_program, Limited._generate_function_def,
    Limited._generate_block, Limited._generate_if_statement,
    Limited._generate_for_loop, Limited._generate_while_loop,
    Limited._generate_assignment, Limited._generate_function_call,
    Limited._generate_condition, Limited._generate_then,
    Limited._generate_else, Limited._generate_arguments,
    Limited._generate_iterable, Limited._generate_body, Limited.first_child,
    Limited.emit,
    _generate_program, _generate_function_def, _generate_block,
    _generate_if_statement, _generate_for_loop, _generate_while_loop,
    _generate_assignment, _generate_function_call, _generate_condition,
    _generate_then, _generate_else, _generate_arguments, _generate_iterable,
    _generate_body, first_child.
  cbn [children node_value Limited.call].
  repeat match goal with
         | |- sim _ (if ?c then _ else _) (if ?c then _ else _) => destruct c
         end;
    try (unfold Limited.log;
         rewrite (proj2 (Nat.ltb_ge _ _)) by lia; apply sim_refl);
    tree_step;
    repeat tree_step;
    first [ apply IH1; set_solver
          | apply (deeper_with_room _ _ _ IH1); set_solver
          | apply (generate_program_loop_with_room _ _ _ IH1); set_solver
          | apply (generate_block_loop_with_room _ _ _ IH1); set_solver
          | apply (generate_arguments_loop_with_room _ _ _ IH1); set_solver ].
Qed.

(** With two frames for each level of the tree, those of the logger and
    one more, [generate] does what it does with an unbounded stack. *)
Lemma generate_with_room frames ast self :
  2 * height ast + logging + 1 ≤ frames →
  Limited.generate U logging frames ast self = generate U ast self.
Proof.
  intros Hf. unfold Limited.generate, generate, Limited.generating.
  destruct frames as [|frames]; [lia|]. cbn [Limited.call].
  unfold bind.
  rewrite (sim_never _ _ (generate_node_with_room ast frames ltac:(lia))).
  done.
Qed.

End GeneratorWithRoom.

(* ================================================================== *)
(** * The claims that depend on the limits of the interpreter *)
(* ================================================================== *)

(** ** C2 *)


(** A [print] call that cannot write (stopped stdout) the parse as well. *)
Example print_stops_parse :
  Limited.parsing (fun _ => Some (u "I/O operation on closed file.")) 1000
    [mkToken (u "KEYWORD") (u "def") 0; mkToken (u "IDENTIFIER") (u "f") 4;
     mkToken (u "EOF") [] 5]
  = Raised (OutputError (u "I/O operation on closed file."))
      (mkParser
         [mkToken (u "KEYWORD") (u "def") 0; mkToken (u "IDENTIFIER") (u "f") 4;
          mkToken (u "EOF") [] 5] 1).
Proof. by vm_compute. Qed.

(** Within the limits the parse is the one of the unbounded reading. *)
Example parse_within_limits :
  Limited.parse (fun _ => None) 1000 (nested_ifs 300)
  = Parser.parse (nested_ifs 300).
Proof. by vm_compute. Qed.


(** ** C6 *)

(** When the traversal returns and has recorded no error, the conditions
    held at each point of analysis. *)
Lemma returns_without_errors ast self :
  table_ok (symbol_table self) →
  match Semantic._analyze_node ast self with
  | Ok _ self' => bool_decide (errors self' = errors self)
  | _ => false
  end = true →
  forallb no_error_at (visits ast self) = true.
Proof.
  intros Hok E. apply not_false_iff_true. intros Hvis.
  pose proof (proj1 (analyze_node_noisy ast) self Hok Hvis) as H.
  unfold appends, wp in H.
  destruct (Semantic._analyze_node ast self) as [[] self'| |]; [|done|done].
  apply bool_decide_eq_true in E. destruct H as (_ & extra & Herr & Hlen).
  rewrite E in Herr. destruct extra; [cbn in Hlen; lia|].
  apply (f_equal length) in Herr. rewrite length_app in Herr.
  cbn [length] in Herr. lia.
Qed.

(** The conditions of the amended claim hold on [def f ( ) :] followed by
    600 nested calls of [f], and [analyze] returns false with no error
    listed: each level takes two frames ([_analyze_node],
    [_analyze_function_call]) and the recursion limit is exceeded. *)
Example deep_calls_stop_analysis :
  forallb no_error_at (visits (calls_in_function 600) Semantic.init) = true
  ∧ (fun r => (r.1, errors r.2))
      <$> Limited.analyze 1000 (calls_in_function 600) Semantic.init
    = Some (false, []).
Proof.
  split; [|by vm_compute].
  apply returns_without_errors; [exact table_ok_init | by vm_compute].
Qed.

Example shallow_calls_are_analyzed :
  (fun r => (r.1, errors r.2))
    <$> Limited.analyze 1000 (calls_in_function 400) Semantic.init
  = Some (true, []).
Proof. by vm_compute. Qed.

(** The tree of [calls_in_function] is the one that the parser builds. *)
Example calls_in_function_parsed :
  Parser.parse
    [mkToken (u "KEYWORD") (u "def") 0; mkToken (u "IDENTIFIER") (u "f") 4;
     mkToken (u "DELIMITER") (u "(") 6; mkToken (u "DELIMITER") (u ")") 8;
     mkToken (u "DELIMITER") (u ":") 10;
     mkToken (u "IDENTIFIER") (u "f") 12; mkToken (u "DELIMITER") (u "(") 14;
     mkToken (u "IDENTIFIER") (u "f") 16; mkToken (u "DELIMITER") (u "(") 18;
     mkToken (u "DELIMITER") (u ")") 20; mkToken (u "DELIMITER") (u ")") 22;
     mkToken (u "EOF") [] 23]
  = Parser.Returns (Some (calls_in_function 1)).
Proof. by vm_compute. Qed.



(** On [x = 5] the first case is the one that holds. *)
Example x_is_5_analyzed :
  (fun r => (r.1, errors r.2)) <$> Limited.analyze 1000 x_is_5 Semantic.init
  = Some (true, []).
Proof. by vm_compute. Qed.

(* ================================================================== *)
(** * Well-formed trees within the limit *)
(* ================================================================== *)





(** 300 nested calls take four frames each ([_generate_node],
    [_generate_function_call], [_generate_node], [_generate_arguments]):
    [generate] returns the error comment and leaves the level raised. *)
Example deep_calls_stop_generation :
  Limited.generate ascii_unicode 10 1000 (calls_in_function 300) new_generator
  = Some (error_comment recursion_error, mkGenerator 1 4).
Proof. by vm_compute. Qed.




(* ================================================================== *)
(** * What the analyzer has recorded when the limit stops it *)
(* ================================================================== *)

Lemma keeps_call {X} frames (callee : nat → Semantic.A X) :
  (∀ n, keeps (callee n)) → keeps (Limited.call frames callee).
Proof.
  intros H. destruct frames as [|n]; cbn [Limited.call]; [|apply H].
  apply keeps_raise.
Qed.

Lemma keeps_limited_add_symbol frames name T :
  keeps (Limited.table_add_symbol frames name T).
Proof.
  apply keeps_call. intros [|n].
  - apply keeps_on_table. intros t Hok. unfold wp. cbn.
    split; [done|apply extends_refl].
  - intros self Hok. unfold wp, Semantic.on_table.
    rewrite (sim_never _ _ (add_symbol_with_room name T n)).
    apply (keeps_add_symbol name T self Hok).
Qed.

Lemma keeps_limited_add_parameters frames params :
  keeps (Limited.add_parameters frames params).
Proof.
  induction params as [|p params IH]; cbn [Limited.add_parameters];
    [apply keeps_ret|].
  apply keeps_bind; [apply keeps_limited_add_symbol|]. intros _. exact IH.
Qed.

(** The analysis of a node keeps what is recorded also when the recursion
    limit stops it. *)
Lemma limited_analysis_only_adds node :
  (∀ frames, keeps (Limited._analyze_node frames node))
  ∧ (∀ frames,
       keeps (Semantic.for_each (Limited.visit Limited._analyze_node frames)
                (children node))).
Proof.
  induction node as [ty v kids IH] using ASTNode_ind.
  rewrite Forall_forall in IH.
  assert (∀ k, k ∈ kids → ∀ frames,
            keeps (Limited.visit Limited._analyze_node frames k)) as IH1.
  { intros k Hk frames. apply keeps_call. intros n. by apply IH. }
  assert (∀ k, k ∈ kids → ∀ frames,
            keeps (Semantic.for_each (Limited.visit Limited._analyze_node frames)
                     (children k)))
    as IH2 by (intros k Hk; by apply IH).
  clear IH.
  assert (∀ frames,
            keeps (Semantic.for_each (Limited.visit Limited._analyze_node frames)
                     kids)) as Heach.
  { intros frames. apply keeps_for_each. intros kid Hkid. by apply IH1. }
  split; [|exact Heach]. intros frames.
  cbn [Limited._analyze_node node_type].
  unfold Limited._analyze_program, Limited._analyze_function_def,
    Limited._analyze_block, Limited._analyze_if_statement,
    Limited._analyze_for_loop, Limited._analyze_while_loop,
    Limited._analyze_assignment, Limited._analyze_function_call,
    Limited._analyze_variable, Limited.declare_function,
    Limited.define_target, Limited.check_callee, Semantic.index_error,
    Limited.table_lookup, Limited.table_enter_scope, Limited.table_exit_scope.
  cbn [children node_value].
  keep ltac:(idtac; match goal with
             | |- keeps (Limited.call _ _) => apply keeps_call
             | |- keeps (Semantic.for_each _ kids) => apply Heach
             | |- keeps (Semantic.for_each _ (_ :: _)) => apply Heach
             | |- keeps (Limited.table_add_symbol _ _ _) =>
                 apply keeps_limited_add_symbol
             | |- keeps (Limited.add_parameters _ _) =>
                 apply keeps_limited_add_parameters
             | |- keeps (Limited.visit _ _ _) => apply IH1; set_solver
             | |- keeps (Semantic.for_each _ (children _)) =>
                 apply IH2; set_solver
             end).
Qed.
